(** * diplomna_be: transit routing back end

    A shallow embedding of the core of the repository and the properties
    its specification states about it:

    - [RealisticStopTimes]: services/realistic_stop_times_service.py
      (delay statistics with the IQR outlier filter, realistic stop times
      with monotonic enforcement);
    - [ArrivalLogger]: services/arrival_logger.py (the arrival observer and
      its latest-arrival cache);
    - [Raptor]: services/raptor_service.py (transfer graph, RAPTOR rounds,
      reconstruction and filtering of itineraries);
    - [Timetables]: services/timetables.py (the loop that groups the stop
      times by trip).

    Conventions.  Python [int] is [Z]; [//] and [%] by a positive constant
    are [Z.div] and [Z.modulo] (both floor); [int(x)] of a float truncates
    towards zero.  A [dict] whose iteration order matters is an association
    list in insertion order, one whose order does not matter is a [gmap].
    Python [float] coordinates and distances are idealised as real numbers
    ([R]).  *)

From Stdlib Require Import ZArith Reals Lra Lia.
From stdpp Require Import gmap strings list sorting.

(** ** Python built-ins shared by the three services *)

Module Py.

Section sorted.
Context {A K : Type} (le : relation K) `{!RelDecision le} (key : A → K).

(** [list.sort] / [sorted] with a key: stable, so an element goes in front
    of the first later element whose key is not smaller. *)
Fixpoint insort (x : A) (l : list A) : list A :=
  match l with
  | [] => [x]
  | y :: l' => if decide (le (key x) (key y)) then x :: y :: l' else y :: insort x l'
  end.

Definition sorted (l : list A) : list A := foldr insort [] l.

(** [min(l, key=...)]: the first element with the least key. *)
Fixpoint min_by (x : A) (l : list A) : A :=
  match l with
  | [] => x
  | y :: l' => if decide (le (key x) (key y)) then min_by x l' else min_by y l'
  end.

End sorted.

Section dict.
Context {K : Type} `{!EqDecision K}.

(** [d[k]] on a dictionary kept in insertion order; [None] when the key
    is missing. *)
Fixpoint getitem {V : Type} (d : list (K * V)) (k : K) : option V :=
  match d with
  | [] => None
  | (k', v) :: d => if decide (k' = k) then Some v else getitem d k
  end.

(** [d[k].append(x)] on a [defaultdict(list)]. *)
Fixpoint dict_append {A : Type} (d : list (K * list A)) (k : K) (x : A) : list (K * list A) :=
  match d with
  | [] => [(k, [x])]
  | (k', l) :: d => if decide (k' = k) then (k', l ++ [x]) :: d else (k', l) :: dict_append d k x
  end.

End dict.

(** [sorted(l)] on integers. *)
Definition sorted_int (l : list Z) : list Z := sorted Z.le (λ d, d) l.

(** [l[i]] on a list of integers; every use in the sources is in range. *)
Definition index (l : list Z) (i : nat) : Z := nth i l 0%Z.

(** [int(statistics.median(data))] for a non-empty list of integers: the
    middle sample, or the mean of the two middle samples truncated towards
    zero. *)
Definition median (data : list Z) : Z :=
  let data := sorted_int data in
  let n := length data in
  if decide (n `mod` 2 = 1)%nat then index data (n / 2)
  else Z.quot (index data (n / 2 - 1) + index data (n / 2)) 2.

End Py.

(** ** services/realistic_stop_times_service.py *)

Module RealisticStopTimes.
Import Py.
#[local] Open Scope Z_scope.

(** [IQR_MULTIPLIER = 3.0]: the bounds are computed in floating point from
    integer samples, which is exact for delays in seconds. *)
Definition IQR_MULTIPLIER : Z := 3.

(** A row of arrival_log.csv that the loop of [_parse_arrival_log] reads
    to the end of its body: the two stripped identifiers and
    [int(float(delay_str))], [None] when the field is empty or the
    conversion raises [ValueError] (both make the loop skip the row).  A
    row on which the body raises another exception ends the whole parse:
    [read_row] below tells these rows apart. *)
Record arrival_log_row := {
  log_trip_id : string;
  log_stop_id : string;
  log_delay_seconds : option Z
}.

(** First pass: [raw_delays[(trip_id, stop_id)].append(delay_seconds)]. *)
Definition collect_delay (raw_delays : gmap (string * string) (list Z))
    (row : arrival_log_row) : gmap (string * string) (list Z) :=
  if decide (log_trip_id row = "" ∨ log_stop_id row = "") then raw_delays
  else match log_delay_seconds row with
       | None => raw_delays
       | Some delay_seconds =>
           let key := (log_trip_id row, log_stop_id row) in
           <[key := default [] (raw_delays !! key) ++ [delay_seconds]]> raw_delays
       end.

Definition collect_raw_delays (log : list arrival_log_row) : gmap (string * string) (list Z) :=
  fold_left collect_delay log ∅.

(** The quartile samples of a group: [sorted_delays[len // 4]] and
    [sorted_delays[(3 * len) // 4]]. *)
Definition q1_of (delays : list Z) : Z :=
  let sorted_delays := sorted_int delays in
  index sorted_delays (length sorted_delays / 4).

Definition q3_of (delays : list Z) : Z :=
  let sorted_delays := sorted_int delays in
  index sorted_delays (3 * length sorted_delays / 4).

(** The outlier filter applied to a group of at least four samples. *)
Definition filter_outliers (delays : list Z) : list Z :=
  let q1 := q1_of delays in
  let q3 := q3_of delays in
  let iqr := q3 - q1 in
  let lower_bound := q1 - IQR_MULTIPLIER * iqr in
  let upper_bound := q3 + IQR_MULTIPLIER * iqr in
  filter (λ d, lower_bound ≤ d ≤ upper_bound) delays.

(** One iteration of the second pass: what is stored for a group, [None]
    when the loop stores nothing ([if filtered_delays:] fails). *)
Definition filter_group (delays : list Z) : option (list Z) :=
  if decide (length delays < 4)%nat then Some delays
  else match filter_outliers delays with
       | [] => None
       | filtered_delays => Some filtered_delays
       end.

Definition store_group (key : string * string) (delays : list Z)
    (delay_stats : gmap (string * string) (list Z)) : gmap (string * string) (list Z) :=
  match filter_group delays with
  | Some kept => <[key := kept]> delay_stats
  | None => delay_stats
  end.

(** Second pass: [for key, delays in raw_delays.items()]. *)
Definition filter_all_groups (raw_delays delay_stats : gmap (string * string) (list Z))
    : gmap (string * string) (list Z) :=
  map_fold store_group delay_stats raw_delays.

(** [_parse_arrival_log], from the parsed log and the previous
    [self.delay_stats]. *)
Definition parse_arrival_log (log : list arrival_log_row)
    (delay_stats : gmap (string * string) (list Z)) : gmap (string * string) (list Z) :=
  filter_all_groups (collect_raw_delays log) delay_stats.

(** [_calculate_average_delay]. *)
Definition calculate_average_delay (delay_stats : gmap (string * string) (list Z))
    (trip_id stop_id : string) : Z :=
  match delay_stats !! (trip_id, stop_id) with
  | None | Some [] => 0
  | Some delays => median delays
  end.

(** A GTFS time [H:M:S] as the three integers [split(":")] and [int]
    give. *)
Record gtfs_time := { hours : Z; minutes : Z; seconds : Z }.

Definition time_seconds (t : gtfs_time) : Z :=
  hours t * 3600 + minutes t * 60 + seconds t.

(** [f"{s // 3600:02d}:{(s % 3600) // 60:02d}:{s % 60:02d}"]. *)
Definition format_seconds (s : Z) : gtfs_time :=
  {| hours := s / 3600; minutes := (s mod 3600) / 60; seconds := s mod 60 |}.

(** [_adjust_gtfs_time] on a well-formed time string. *)
Definition adjust_gtfs_time (time_str : gtfs_time) (delay_seconds : Z) : gtfs_time :=
  let total_seconds := time_seconds time_str in
  let adjusted_seconds := total_seconds + delay_seconds in
  let adjusted_seconds := if decide (adjusted_seconds < 0) then 0 else adjusted_seconds in
  format_seconds adjusted_seconds.

(** A row of stop_times.txt; an empty [arrival_time] cell is [None]. *)
Record stop_time := {
  trip_id : string;
  stop_sequence : Z;
  stop_id : string;
  arrival_time : option gtfs_time;
  departure_time : option gtfs_time
}.

Definition set_times (st : stop_time) (t : gtfs_time) : stop_time :=
  {| trip_id := trip_id st; stop_sequence := stop_sequence st; stop_id := stop_id st;
     arrival_time := Some t; departure_time := Some t |}.

(** [trips_dict[trip_id].append(stop_time)]: the rows are shared with
    [self.stop_times_data], so a trip holds the positions of its rows. *)
Definition group_step (acc : list (string * list nat) * nat) (st : stop_time)
    : list (string * list nat) * nat :=
  let '(trips_dict, i) := acc in
  (if decide (trip_id st = "") then trips_dict else dict_append trips_dict (trip_id st) i, S i).

Definition group_by_trip (data : list stop_time) : list (string * list nat) :=
  (fold_left group_step data ([], 0%nat)).1.

(** The sort key [int(x.get('stop_sequence', 0))] of the row at a position. *)
Definition sequence_at (data : list stop_time) (i : nat) : Z :=
  from_option stop_sequence 0 (data !! i).

Definition sort_trips (data : list stop_time) (trips_dict : list (string * list nat))
    : list (string * list nat) :=
  map (λ kv, (kv.1, sorted Z.le (sequence_at data) kv.2)) trips_dict.

(** The body of the inner loop for the row at position [i]. *)
Definition process_stop (delay_stats : gmap (string * string) (list Z)) (trip : string)
    (state : list stop_time * option Z) (i : nat) : list stop_time * option Z :=
  let '(data, prev_time_seconds) := state in
  match data !! i with
  | None => state
  | Some st =>
      match arrival_time st with
      | None => state
      | Some original_arrival =>
          let avg_delay := calculate_average_delay delay_stats trip (stop_id st) in
          let adjusted_arrival :=
            if decide (avg_delay ≠ 0) then adjust_gtfs_time original_arrival avg_delay
            else original_arrival in
          let current_time_seconds := time_seconds adjusted_arrival in
          let '(current_time_seconds, adjusted_arrival) :=
            match prev_time_seconds with
            | Some prev =>
                if decide (current_time_seconds ≤ prev)
                then (prev + 60, format_seconds (prev + 60))
                else (current_time_seconds, adjusted_arrival)
            | None => (current_time_seconds, adjusted_arrival)
            end in
          (<[i := set_times st adjusted_arrival]> data, Some current_time_seconds)
      end
  end.

(** The inner loop over one trip, starting from [prev_time_seconds = None]. *)
Definition process_trip (delay_stats : gmap (string * string) (list Z))
    (data : list stop_time) (trip : string * list nat) : list stop_time :=
  (fold_left (process_stop delay_stats trip.1) trip.2 (data, None)).1.

(** [calculate_realistic_stop_times] up to the rows it writes out. *)
Definition calculate_realistic_stop_times (delay_stats : gmap (string * string) (list Z))
    (data : list stop_time) : list stop_time :=
  fold_left (process_trip delay_stats) (sort_trips data (group_by_trip data)) data.

(** *** Vocabulary for the properties of the synthesiser *)

(** The positions of the rows of trip [t], in file order. *)
Definition trip_positions (data : list stop_time) (t : string) : list nat :=
  filter (λ i, trip_id <$> data !! i = Some t) (seq 0 (length data)).

(** The rows of trip [t] in stop-sequence order (ties in file order). *)
Definition stop_sequence_order (data : list stop_time) (t : string) : list nat :=
  sorted Z.le (sequence_at data) (trip_positions data t).

(** The arrival time, in seconds, of the row at a position, if it has one. *)
Definition arrival_seconds (data : list stop_time) (i : nat) : option Z :=
  st ← data !! i; a ← arrival_time st; Some (time_seconds a).

Definition stop_at (data : list stop_time) (i : nat) : string :=
  from_option stop_id "" (data !! i).

(** The time the inner loop compares with the previous stop's: the
    scheduled time when the delay is 0, else the delayed time clamped at 0. *)
Definition candidate_seconds (delay_stats : gmap (string * string) (list Z)) (trip : string)
    (st : stop_time) (original_arrival : gtfs_time) : Z :=
  let avg_delay := calculate_average_delay delay_stats trip (stop_id st) in
  time_seconds (if decide (avg_delay ≠ 0) then adjust_gtfs_time original_arrival avg_delay
                else original_arrival).

Definition candidate_at (delay_stats : gmap (string * string) (list Z)) (trip : string)
    (data : list stop_time) (i : nat) : option Z :=
  st ← data !! i; a ← arrival_time st; Some (candidate_seconds delay_stats trip st a).

(** Monotonic enforcement of one candidate against the previous time. *)
Definition enforce (prev : option Z) (c : Z) : Z :=
  match prev with
  | Some p => if decide (c ≤ p) then p + 60 else c
  | None => c
  end.

Fixpoint enforced (prev : option Z) (cands : list Z) : list Z :=
  match cands with
  | [] => []
  | c :: cands => enforce prev c :: enforced (Some (enforce prev c)) cands
  end.

(** The delays that the rows of the log give for a key, in file order. *)
Definition delays_of (log : list arrival_log_row) (key : string * string) : list Z :=
  omap (λ row, if decide ((log_trip_id row, log_stop_id row) = key)
               then log_delay_seconds row else None) log.

(** *** The rows as [csv.DictReader] gives them

    The stripped text of the column [delay_seconds] and what
    [int(float(delay_str))] does with it: an empty field; a number, with
    the integer it is truncated to; text that [float] rejects, or [nan],
    on which [ValueError] is raised; an infinite float ([inf], [1e400]),
    on which [int] raises [OverflowError]. *)
Inductive delay_field :=
  | DelayEmpty
  | DelayValue (delay_seconds : Z)
  | DelayValueError
  | DelayOverflowError.

(** A row of the reader, for a file that the reader reads to its end: per
    column the stripped field, [None] when the row is shorter than the
    header, so that [row.get] returns [None]. *)
Record csv_row := {
  csv_trip_id : option string;
  csv_stop_id : option string;
  csv_delay_seconds : option delay_field
}.

(** The body of [for row in reader] up to the [append]: the row as the
    first pass uses it, [None] when an exception leaves the loop.  The
    three [.strip()] come first, and raise [AttributeError] on [None];
    the delay is converted only when both identifiers are non-empty, and
    the inner [except (ValueError, TypeError)] does not catch
    [OverflowError]. *)
Definition read_row (row : csv_row) : option arrival_log_row :=
  trip_id ← csv_trip_id row;
  stop_id ← csv_stop_id row;
  delay_str ← csv_delay_seconds row;
  let skipped := {| log_trip_id := trip_id; log_stop_id := stop_id;
                    log_delay_seconds := None |} in
  if decide (trip_id = "" ∨ stop_id = "") then Some skipped
  else match delay_str with
       | DelayEmpty | DelayValueError => Some skipped
       | DelayValue delay_seconds =>
           Some {| log_trip_id := trip_id; log_stop_id := stop_id;
                   log_delay_seconds := Some delay_seconds |}
       | DelayOverflowError => None
       end.

(** [raw_delays] at the end of the first pass, [None] when an exception
    has left the loop. *)
Definition first_pass (rows : list csv_row) : option (gmap (string * string) (list Z)) :=
  collect_raw_delays <$> mapM read_row rows.

(** [_parse_arrival_log] on the rows of the file: an exception of the
    first pass is caught by the outer [except Exception], before anything
    is written to [delay_stats]. *)
Definition parse_arrival_log_rows (rows : list csv_row)
    (delay_stats : gmap (string * string) (list Z)) : gmap (string * string) (list Z) :=
  match mapM read_row rows with
  | Some log => parse_arrival_log log delay_stats
  | None => delay_stats
  end.

(** A row that ends the parse: a short row, or a row with both
    identifiers whose delay overflows. *)
Definition aborts (row : csv_row) : Prop :=
  csv_trip_id row = None ∨ csv_stop_id row = None ∨ csv_delay_seconds row = None ∨
  ∃ trip_id stop_id,
    csv_trip_id row = Some trip_id ∧ csv_stop_id row = Some stop_id ∧
    trip_id ≠ "" ∧ stop_id ≠ "" ∧ csv_delay_seconds row = Some DelayOverflowError.

(** The delays that the rows of the file give for a key, in file order. *)
Definition csv_delays_of (rows : list csv_row) (key : string * string) : list Z :=
  omap (λ row, match csv_trip_id row, csv_stop_id row, csv_delay_seconds row with
               | Some trip_id, Some stop_id, Some (DelayValue delay_seconds) =>
                   if decide ((trip_id, stop_id) = key) then Some delay_seconds else None
               | _, _, _ => None
               end) rows.

End RealisticStopTimes.

(** ** Great-circle distance

    [haversine] is defined three times in the sources (arrival_logger.py,
    raptor_service.py, navigation_service.py), each time with the same
    body. *)

Module Geo.
#[local] Open Scope R_scope.

#[export] Instance Rle_decision : RelDecision Rle := Rle_dec.
#[export] Instance Rlt_decision : RelDecision Rlt := Rlt_dec.
#[export] Instance Rgt_decision : RelDecision Rgt := Rgt_dec.
#[export] Instance Req_decision : EqDecision R := Req_dec_T.

Definition radians (deg : R) : R := deg * PI / 180.

(** [math.atan2(y, x)]. *)
Definition atan2 (y x : R) : R :=
  if decide (0 < x) then atan (y / x)
  else if decide (x < 0) then (if decide (0 <= y) then atan (y / x) + PI else atan (y / x) - PI)
  else if decide (0 < y) then PI / 2
  else if decide (y < 0) then - PI / 2
  else 0.

(** [haversine] in exact arithmetic, where [0 <= a <= 1] and both square
    roots are defined.  In floating point the rounding of [a] can pass 1
    for two points that are nearly antipodal, and [math.sqrt(1 - a)] then
    raises [ValueError]: this error is not part of the model, so nothing
    below says that a call of [haversine] on such points returns. *)
Definition haversine (lat1 lon1 lat2 lon2 : R) : R :=
  let R0 := 6371000 in
  let phi1 := radians lat1 in
  let phi2 := radians lat2 in
  let dphi := radians (lat2 - lat1) in
  let dlambda := radians (lon2 - lon1) in
  let a := sin (dphi / 2) ^ 2 + cos phi1 * cos phi2 * sin (dlambda / 2) ^ 2 in
  let c := 2 * atan2 (sqrt a) (sqrt (1 - a)) in
  R0 * c.

(** [int(x)] of a float: truncation towards zero. *)
Definition int_of_float (x : R) : Z :=
  if decide (0 <= x) then Int_part x else (- Int_part (- x))%Z.

End Geo.

(** ** services/arrival_logger.py *)

Module ArrivalLogger.
Import Py Geo.
#[local] Open Scope Z_scope.

Definition DISTANCE_THRESHOLD_M : R := 30.
Definition CACHE_TTL_SECONDS : Z := 60.

(** Instants ([datetime] in the zone [TZ]) are counted in microseconds, the
    resolution of [datetime]; [total_seconds()] of a difference is that
    difference divided by [10^6]. *)
Definition MICROSECONDS : Z := 1000000.
Definition DAY : Z := 86400 * MICROSECONDS.

Record stop := { stop_name : string; stop_lat : R; stop_lon : R }.

(** An element of [trip_stops[trip_id]]; the scheduled time is [None] when
    the cell is empty or is not three integers separated by colons. *)
Record stop_info := {
  info_stop_id : string;
  info_arrival_time : option (Z * Z * Z);
  info_stop_sequence : string
}.

(** The static tables loaded by [__init__]. *)
Record gtfs_static := {
  stops : gmap string stop;
  trip_stops : gmap string (list stop_info)
}.

(** An entity of the position feed. *)
Record feed_entity := {
  has_vehicle_position : bool;
  entity_trip_id : option string;
  entity_route_id : option string;
  latitude : R;
  longitude : R
}.

(** A row appended to arrival_log.csv (the day of week and the hour are
    read off [actual_arrival]). *)
Record log_record := {
  rec_trip_id : string;
  rec_route_id : option string;
  rec_stop_id : string;
  rec_stop_name : string;
  rec_scheduled_arrival : option Z;
  rec_actual_arrival : Z;
  rec_delay_seconds : option Z
}.

(** A value of [vehicle_latest_arrival]: the fields handed to readers, and
    the internal [last_seen]. *)
Record arrival := {
  arr_stop_id : string;
  arr_stop_name : string;
  arr_stop_sequence : string;
  arr_timestamp : Z;
  arr_delay_seconds : option Z;
  arr_route_id : option string;
  arr_trip_id : string
}.

Record cache_entry := { entry_arrival : arrival; last_seen : Z }.

(** The mutable part of [ArrivalLogger], with the log file. *)
Record logger := {
  vehicle_arrivals : gmap string (gset string);
  vehicle_latest_arrival : gmap string cache_entry;
  arrival_log : list log_record
}.

(** The state after [__init__]. *)
Definition initial : logger :=
  {| vehicle_arrivals := ∅; vehicle_latest_arrival := ∅; arrival_log := [] |}.

(** [_parse_gtfs_time]: the scheduled time on the day of [now], moved by a
    day either way when that is closer to [now].  Both branches that choose
    [base] denote midnight of the day of [now]. *)
Definition parse_gtfs_time (time_str : option (Z * Z * Z)) (now : Z) : option Z :=
  match time_str with
  | None => None
  | Some (h, m, s) =>
      let base := now - now mod DAY in
      let candidate_dt := base + (h * 3600 + m * 60 + s) * MICROSECONDS in
      Some (min_by Z.le (λ dt, Z.abs (dt - now)) (candidate_dt - DAY)
                  [candidate_dt; candidate_dt + DAY])
  end.

(** [get_latest_arrival]: the answer and the state afterwards. *)
Definition get_latest_arrival (trip_id : string) (now : Z) (self : logger)
    : option arrival * logger :=
  match vehicle_latest_arrival self !! trip_id with
  | None => (None, self)
  | Some entry =>
      let age := now - last_seen entry in
      if decide (age > CACHE_TTL_SECONDS * MICROSECONDS)
      then (None, {| vehicle_arrivals := delete trip_id (vehicle_arrivals self);
                     vehicle_latest_arrival := delete trip_id (vehicle_latest_arrival self);
                     arrival_log := arrival_log self |})
      else (Some (entry_arrival entry), self)
  end.

(** The rest of the loop body for a stop within the threshold: the check
    of the observed set, and the record that is logged and cached. *)
Definition record_arrival (now : Z) (trip_id : string) (route_id : option string)
    (stop_id name : string) (info : stop_info) (self : logger) : logger :=
  let arrivals := default ∅ (vehicle_arrivals self !! trip_id) in
  if decide (stop_id ∈ arrivals)
  then {| vehicle_arrivals := <[trip_id := arrivals]> (vehicle_arrivals self);
          vehicle_latest_arrival := vehicle_latest_arrival self;
          arrival_log := arrival_log self |}
  else
    let scheduled_dt := parse_gtfs_time (info_arrival_time info) now in
    let delay_sec := (λ dt, Z.quot (now - dt) MICROSECONDS) <$> scheduled_dt in
    {| vehicle_arrivals := <[trip_id := {[stop_id]} ∪ arrivals]> (vehicle_arrivals self);
       vehicle_latest_arrival :=
         <[trip_id := {| entry_arrival :=
                           {| arr_stop_id := stop_id;
                              arr_stop_name := name;
                              arr_stop_sequence := info_stop_sequence info;
                              arr_timestamp := now;
                              arr_delay_seconds := delay_sec;
                              arr_route_id := route_id;
                              arr_trip_id := trip_id |};
                         last_seen := now |}]> (vehicle_latest_arrival self);
       arrival_log := arrival_log self ++
         [{| rec_trip_id := trip_id; rec_route_id := route_id; rec_stop_id := stop_id;
             rec_stop_name := name; rec_scheduled_arrival := scheduled_dt;
             rec_actual_arrival := now; rec_delay_seconds := delay_sec |}] |}.

(** The body of the loop over the stops of a trip, for one vehicle. *)
Definition check_stop (static : gtfs_static) (now : Z) (trip_id : string)
    (route_id : option string) (lat lon : R) (self : logger) (info : stop_info) : logger :=
  let stop_id := info_stop_id info in
  if decide (stop_id = "") then self else
  match stops static !! stop_id with
  | None => self
  | Some stop =>
      let distance := haversine lat lon (stop_lat stop) (stop_lon stop) in
      if decide (DISTANCE_THRESHOLD_M <= distance)%R then self
      else record_arrival now trip_id route_id stop_id (stop_name stop) info self
  end.

(** The body of the loop over the entities of the feed: the state and the
    list [trip_ids_in_feed]. *)
Definition check_entity (static : gtfs_static) (now : Z)
    (acc : logger * list string) (entity : feed_entity) : logger * list string :=
  let '(self, trip_ids_in_feed) := acc in
  if negb (has_vehicle_position entity) then acc else
  match entity_trip_id entity with
  | None => acc
  | Some trip_id =>
      if decide (trip_id = "") then acc else
      match trip_stops static !! trip_id with
      | None => acc
      | Some infos =>
          (fold_left (check_stop static now trip_id (entity_route_id entity)
                        (latitude entity) (longitude entity)) infos self,
           trip_ids_in_feed ++ [trip_id])
      end
  end.

(** [vehicle_latest_arrival[trip_id]['last_seen'] = now] for a trip seen
    in the feed. *)
Definition touch (now : Z) (latest : gmap string cache_entry) (trip_id : string)
    : gmap string cache_entry :=
  match latest !! trip_id with
  | None => latest
  | Some entry => <[trip_id := {| entry_arrival := entry_arrival entry; last_seen := now |}]> latest
  end.

(** One iteration of [poll_vehicles]; [feed = None] stands for a request
    that fails or a response that does not decode, which skips the tick. *)
Definition poll_once (static : gtfs_static) (feed : option (list feed_entity)) (now : Z)
    (self : logger) : logger :=
  match feed with
  | None => self
  | Some entities =>
      let '(self, trip_ids_in_feed) := fold_left (check_entity static now) entities (self, []) in
      {| vehicle_arrivals := vehicle_arrivals self;
         vehicle_latest_arrival := fold_left (touch now) trip_ids_in_feed (vehicle_latest_arrival self);
         arrival_log := arrival_log self |}
  end.

(** The observer's operations as they reach its state, one at a time. *)
Inductive operation :=
  | Poll (feed : option (list feed_entity)) (now : Z)
  | Read (trip_id : string) (now : Z).

Definition step (static : gtfs_static) (self : logger) (op : operation) : logger :=
  match op with
  | Poll feed now => poll_once static feed now self
  | Read trip_id now => (get_latest_arrival trip_id now self).2
  end.

Definition run (static : gtfs_static) (ops : list operation) (self : logger) : logger :=
  fold_left (step static) ops self.

(** *** Vocabulary for the properties of the observer *)

(** The stops observed for a trip. *)
Definition observed (self : logger) (trip_id : string) : gset string :=
  default ∅ (vehicle_arrivals self !! trip_id).

(** The records of a (trip, stop) pair in a piece of the log. *)
Definition records_of (trip_id stop_id : string) (log : list log_record) : list log_record :=
  filter (λ r, rec_trip_id r = trip_id ∧ rec_stop_id r = stop_id) log.

(** A read that finds an entry older than the time to live, and evicts. *)
Definition evicts (self : logger) (op : operation) : Prop :=
  match op with
  | Poll _ _ => False
  | Read trip_id now =>
      ∃ entry, vehicle_latest_arrival self !! trip_id = Some entry ∧
               now - last_seen entry > CACHE_TTL_SECONDS * MICROSECONDS
  end.

Fixpoint no_eviction (static : gtfs_static) (ops : list operation) (self : logger) : Prop :=
  match ops with
  | [] => True
  | op :: ops => ¬ evicts self op ∧ no_eviction static ops (step static self op)
  end.


(** The record of the arrival of an entity's vehicle at a stop of its
    trip, less than 30 m away, observed at [now]. *)
Definition logged_for (static : gtfs_static) (now : Z) (entity : feed_entity)
    (r : log_record) : Prop :=
  ∃ trip infos info stop,
    has_vehicle_position entity = true ∧ entity_trip_id entity = Some trip ∧
    trip_stops static !! trip = Some infos ∧ info ∈ infos ∧
    stops static !! info_stop_id info = Some stop ∧
    (haversine (latitude entity) (longitude entity) (stop_lat stop) (stop_lon stop) <
       DISTANCE_THRESHOLD_M)%R ∧
    let scheduled_dt := parse_gtfs_time (info_arrival_time info) now in
    r = {| rec_trip_id := trip; rec_route_id := entity_route_id entity;
           rec_stop_id := info_stop_id info; rec_stop_name := stop_name stop;
           rec_scheduled_arrival := scheduled_dt; rec_actual_arrival := now;
           rec_delay_seconds := (λ dt, Z.quot (now - dt) MICROSECONDS) <$> scheduled_dt |}.

End ArrivalLogger.

(** ** services/raptor_service.py *)

Module Raptor.
Import Py Geo.
#[local] Open Scope Z_scope.

Definition MAX_WALKING_DISTANCE_M : R := 500.
Definition WALKING_SPEED_MS : R := 1.4.
Definition MAX_RESULTS : nat := 5.
Definition MAX_TRANSFERS : nat := 3.
Definition SEARCH_WINDOW_HOURS : Z := 4.
Definition TRANSFER_TIME : Z := 180.

(** *** The in-memory timetable (services/timetables.py) *)

(** A value of [timetable.stops]. *)
Record stop := { stop_name : string; lat : R; lon : R }.

(** A stop time of a trip; the two time strings are [H:M:S], read by
    [time_to_seconds].  A string that is not three integers separated by
    colons makes [time_to_seconds] raise [ValueError]: the model holds the
    three integers, so it covers the timetables whose time strings are
    well formed, and says nothing of the others. *)
Record stop_time := {
  stop_id : string;
  arrival_time : Z * Z * Z;
  departure_time : Z * Z * Z
}.

(** [stops] and [stop_times_by_trip] are iterated, so they are kept in
    insertion order; [trips] maps a trip id to its route id. *)
Record timetable := {
  stops : list (string * stop);
  trips : gmap string string;
  stop_times_by_trip : list (string * list stop_time)
}.

Definition time_to_seconds (time_str : Z * Z * Z) : Z :=
  let '(h, m, s) := time_str in h * 3600 + m * 60 + s.

(** *** The transfer graph *)

(** [transfers[a].append((b, w))] on a [defaultdict(list)]. *)
Definition add_transfer (transfers : gmap string (list (string * Z))) (a b : string) (w : Z)
    : gmap string (list (string * Z)) :=
  <[a := default [] (transfers !! a) ++ [(b, w)]]> transfers.

(** The body of the inner loop of [_build_transfer_graph]. *)
Definition link (id1 : string) (s1 : stop) (transfers : gmap string (list (string * Z)))
    (entry : string * stop) : gmap string (list (string * Z)) :=
  let '(id2, s2) := entry in
  if decide (Rabs (lat s1 - lat s2) > 0.01)%R then transfers
  else if decide (Rabs (lon s1 - lon s2) > 0.01)%R then transfers
  else
    let dist := haversine (lat s1) (lon s1) (lat s2) (lon s2) in
    if decide (dist <= MAX_WALKING_DISTANCE_M)%R then
      let walk_time := int_of_float (dist / WALKING_SPEED_MS) in
      add_transfer (add_transfer transfers id1 id2 walk_time) id2 id1 walk_time
    else transfers.

(** The outer loop: every stop against the stops after it. *)
Fixpoint link_all (stops : list (string * stop)) (transfers : gmap string (list (string * Z)))
    : gmap string (list (string * Z)) :=
  match stops with
  | [] => transfers
  | (id1, s1) :: rest => link_all rest (fold_left (link id1 s1) rest transfers)
  end.

Definition build_transfer_graph (tt : timetable) : gmap string (list (string * Z)) :=
  link_all (stops tt) ∅.

(** Vocabulary for the transfer graph: the bounding box that the loop
    checks first, the distance it computes, and an edge of the graph. *)
Definition boxed (s1 s2 : stop) : Prop :=
  (Rabs (lat s1 - lat s2) <= 0.01)%R ∧ (Rabs (lon s1 - lon s2) <= 0.01)%R.

Definition distance (s1 s2 : stop) : R := haversine (lat s1) (lon s1) (lat s2) (lon s2).

Definition has_transfer (transfers : gmap string (list (string * Z))) (a b : string) (w : Z)
    : Prop :=
  (b, w) ∈ default [] (transfers !! a).

(** A [RaptorService]; [__init__] computes the transfers once. *)
Record service := {
  service_timetable : timetable;
  transfers : gmap string (list (string * Z))
}.

Definition init (tt : timetable) : service :=
  {| service_timetable := tt; transfers := build_transfer_graph tt |}.

(** *** Nearby stops *)

Record nearby_stop := {
  nb_stop_id : string;
  nb_stop : stop;
  nb_distance : R;
  nb_walking_time : Z
}.

Definition nearby_of (lat0 lon0 max_distance : R) (entry : string * stop) : option nearby_stop :=
  let '(stop_id, stop) := entry in
  let distance := haversine lat0 lon0 (lat stop) (lon stop) in
  if decide (distance <= max_distance)%R
  then Some {| nb_stop_id := stop_id; nb_stop := stop; nb_distance := distance;
               nb_walking_time := int_of_float (distance / WALKING_SPEED_MS) |}
  else None.

Definition find_nearby_stops (tt : timetable) (lat0 lon0 : R) : list nearby_stop :=
  let nearby := omap (nearby_of lat0 lon0 MAX_WALKING_DISTANCE_M) (stops tt) in
  take 15 (sorted Rle nb_distance nearby).

(** *** Legs and itineraries *)

(** The ["from"] or ["to"] of a walk: a coordinate, with the id and name of
    the stop when it is one. *)
Record place := {
  place_lat : R;
  place_lon : R;
  place_stop : option (string * string)
}.

Inductive leg :=
  | Walk (from to : place) (distance_m : R) (duration_seconds : Z)
  | Transit (route_id trip_id from_stop_id to_stop_id from_stop_name to_stop_name : string)
      (departure arrival : Z * Z * Z).

Definition is_walk (l : leg) : bool :=
  match l with Walk _ _ _ _ => true | Transit _ _ _ _ _ _ _ _ => false end.

Definition is_transit (l : leg) : bool := negb (is_walk l).

Definition leg_route_id (l : leg) : string :=
  match l with Walk _ _ _ _ => "" | Transit route_id _ _ _ _ _ _ _ => route_id end.

Definition walk_distance (l : leg) : R :=
  match l with Walk _ _ d _ => d | Transit _ _ _ _ _ _ _ _ => 0%R end.

Definition walk_duration (l : leg) : Z :=
  match l with Walk _ _ _ d => d | Transit _ _ _ _ _ _ _ _ => 0 end.

(** An element of [temp_results]. *)
Record result := {
  dest_stop : string;
  total_time : Z;
  transfer_count : nat;
  legs : list leg
}.

(** An element of [clean_results]. *)
Record route := {
  route_dest_stop : string;
  route_total_time : Z;
  route_legs : list leg
}.

(** [has_duplicate_route_transfer]. *)
Fixpoint adjacent_equal (route_ids : list string) : bool :=
  match route_ids with
  | a :: (b :: _) as rest => bool_decide (a = b) || adjacent_equal rest
  | _ => false
  end.

Definition has_duplicate_route_transfer (legs : list leg) : bool :=
  let transit_legs := List.filter is_transit legs in
  adjacent_equal (leg_route_id <$> transit_legs).

(** [_get_transit_signature]. *)
Definition get_transit_signature (legs : list leg) : list (string * string * string) :=
  omap (λ l, match l with
             | Transit route_id _ from_stop_id to_stop_id _ _ _ _ =>
                 Some (route_id, from_stop_id, to_stop_id)
             | Walk _ _ _ _ => None
             end) legs.

(** The key of [min]: the duration of the first walk leg, else 0. *)
Definition first_walk_duration (r : result) : Z :=
  match List.filter is_walk (legs r) with
  | l :: _ => walk_duration l
  | [] => 0
  end.

(** The choice within a group: the group's only element, or [min] by
    the key. *)
Definition choose (group : list result) : option result :=
  match group with
  | [] => None
  | r :: group => Some (min_by Z.le first_walk_duration r group)
  end.

(** [_filter_duplicate_routes_different_walk]. *)
Definition filter_duplicate_routes_different_walk (results : list result) : list result :=
  let transit_groups :=
    fold_left (λ groups r, dict_append groups (get_transit_signature (legs r)) r) results [] in
  omap (λ g, choose g.2) transit_groups.

(** The leg that replaces two or more consecutive walks. *)
Definition merged_leg (first_walk last_walk : leg) (consecutive_walks : list leg) : leg :=
  match first_walk, last_walk with
  | Walk from _ _ _, Walk _ to _ _ =>
      Walk from to
        (fold_left Rplus (walk_distance <$> consecutive_walks) 0%R)
        (fold_left Z.add (walk_duration <$> consecutive_walks) 0)
  | _, _ => first_walk
  end.

(** What is appended for a maximal run of walks. *)
Definition flush_walks (consecutive_walks : list leg) : list leg :=
  match consecutive_walks with
  | first_walk :: _ :: _ =>
      [merged_leg first_walk (List.last consecutive_walks first_walk) consecutive_walks]
  | _ => consecutive_walks
  end.

(** [_merge_consecutive_walk_legs]: the outer loop over the legs, and the
    inner loop that collects the walks following a walk. *)
Fixpoint merge_consecutive_walk_legs (legs : list leg) : list leg :=
  match legs with
  | [] => []
  | leg :: rest =>
      if is_walk leg then collect_walks [leg] rest
      else leg :: merge_consecutive_walk_legs rest
  end
with collect_walks (consecutive_walks : list leg) (rest : list leg) : list leg :=
  match rest with
  | [] => flush_walks consecutive_walks
  | leg :: rest =>
      if is_walk leg then collect_walks (consecutive_walks ++ [leg]) rest
      else flush_walks consecutive_walks ++ leg :: merge_consecutive_walk_legs rest
  end.

(** Vocabulary for the shape of an itinerary: the two ends of a walk, and
    whether a list of legs starts with a walk. *)
Definition walk_origin (l : leg) : option place :=
  match l with Walk from _ _ _ => Some from | Transit _ _ _ _ _ _ _ _ => None end.

Definition walk_terminus (l : leg) : option place :=
  match l with Walk _ to _ _ => Some to | Transit _ _ _ _ _ _ _ _ => None end.

Definition head_is_walk (legs : list leg) : bool :=
  match legs with l :: _ => is_walk l | [] => false end.

(** No walk leg is followed by a walk leg. *)
Fixpoint no_walk_pair (legs : list leg) : bool :=
  match legs with
  | [] => true
  | l :: legs => negb (is_walk l && head_is_walk legs) && no_walk_pair legs
  end.

(** The walking time of an itinerary, summed over its walk legs. *)
Definition total_walking_time (r : result) : Z :=
  foldr Z.add 0 (walk_duration <$> List.filter is_walk (legs r)).

(** *** Pruning the reconstructed itineraries (the end of [run]) *)

(** [min(...)] of a non-empty list of integers. *)
Definition minimum (x : Z) (l : list Z) : Z := min_by Z.le (λ v, v) x l.

Definition clean (r : result) : route :=
  {| route_dest_stop := dest_stop r; route_total_time := total_time r; route_legs := legs r |}.

(** The results kept by the loop over [temp_results]. *)
Definition prune (temp_results : list result) : list result :=
  match temp_results with
  | [] => []
  | r :: rest =>
      let fastest_time := minimum (total_time r) (total_time <$> rest) in
      let threshold_time := fastest_time + 60 in
      let min_transfers :=
        minimum (Z.of_nat (transfer_count r)) (Z.of_nat ∘ transfer_count <$> rest) in
      filter (λ result, total_time result ≤ threshold_time ∨
                        Z.of_nat (transfer_count result) ≤ min_transfers) temp_results
  end.

(** From [if temp_results:] to the end of [run]. *)
Definition finish (temp_results : list result) : list route :=
  clean <$> take MAX_RESULTS (filter_duplicate_routes_different_walk (prune temp_results)).

(** *** The rounds of [run] *)

(** How a call ends: with a value, with an exception ([KeyError],
    [IndexError], [StopIteration]), or, for the model of a [while] loop,
    with the fuel used up. *)
Inductive outcome (A : Type) :=
  | Done (a : A)
  | Raised
  | Timeout.
Arguments Done {A} a.
Arguments Raised {A}.
Arguments Timeout {A}.

(** A loop whose body can raise. *)
Fixpoint fold_left_opt {A B : Type} (f : A → B → option A) (l : list B) (a : A) : option A :=
  match l with
  | [] => Some a
  | x :: l => a' ← f a x; fold_left_opt f l a'
  end.

(** An entry of [parent]; the field [previous_leg] of a transfer record is
    never read and is left out. *)
Inductive parent_record :=
  | ParentWalk (from_lat from_lon : R) (to_stop : nearby_stop) (arrival : Z)
  | ParentTransfer (from_stop_id to_stop_id : string) (arrival walk_time : Z)
  | ParentTransit (trip_id boarding_stop : string) (boarding_time : Z) (boarding_st : stop_time)
      (arrival_stop : string) (arrival_time : Z) (arrival_st : stop_time).

(** [tau[stop][k]] and [parent[stop][k]] are the entries at [(stop, k)]; a
    missing entry of [tau] is [float("inf")], a missing entry of [parent]
    is the empty record.  (Both are [defaultdict]s of rows of
    [MAX_TRANSFERS + 2] such defaults; a row created by a read holds
    defaults only.) *)
Record labels := {
  tau : gmap (string * nat) Z;
  parent : gmap (string * nat) parent_record
}.

Definition set_label (lab : labels) (stop : string) (k : nat) (t : Z) (p : parent_record)
    : labels :=
  {| tau := <[(stop, k) := t]> (tau lab); parent := <[(stop, k) := p]> (parent lab) |}.

(** [x < tau[stop][k]]. *)
Definition improves (lab : labels) (stop : string) (k : nat) (x : Z) : bool :=
  match tau lab !! (stop, k) with
  | Some t => bool_decide (x < t)
  | None => true
  end.

Section engine.

(** [hash] of a tuple of stop ids, and the order in which a [set] of
    strings with the given elements is iterated: both are fixed for a
    process, and otherwise arbitrary. *)
Variable hash_pattern : list string → Z.
Variable set_iter : list string → list string.

(** Walking from the origin. *)
Definition init_origin (origin_lat origin_lon : R) (departure_time_seconds : Z)
    (lab : labels) (o : nearby_stop) : labels :=
  let arrival := departure_time_seconds + nb_walking_time o in
  set_label lab (nb_stop_id o) 0 arrival (ParentWalk origin_lat origin_lon o arrival).

(** The pre-grouping of the trips by virtual route id. *)
Definition group_trip (tt : timetable)
    (trips_by_route : list (string * Z * list (string * list stop_time)))
    (entry : string * list stop_time)
    : option (list (string * Z * list (string * list stop_time))) :=
  let '(trip_id, stop_times) := entry in
  route_id ← trips tt !! trip_id;
  let sorted_stops := sorted Z.le (λ st, time_to_seconds (departure_time st)) stop_times in
  let stop_pattern := stop_id <$> sorted_stops in
  Some (dict_append trips_by_route (route_id, hash_pattern stop_pattern)
          (trip_id, sorted_stops)).

(** A time of the timetable on the continuous axis of the query. *)
Definition normalise (raw first_stop_time departure_time_seconds : Z) : Z :=
  let t := if decide (raw < first_stop_time - 43200) then raw + 86400 else raw in
  if decide (t < departure_time_seconds - 43200) then t + 86400 else t.

(** [{stop_id for stop_id in tau if tau[stop_id][k-1] < inf}]. *)
Definition marked_stops (lab : labels) (k : nat) : gset string :=
  set_map fst (filter (λ key : string * nat, key.2 = (k - 1)%nat) (dom (tau lab))).

(** The best boarding found so far. *)
Record boarding := {
  best_trip_id : string;
  best_stop_times : list stop_time;
  best_first_stop_time : Z;
  best_boarding_stop : string;
  best_boarding_time : Z;
  best_boarding_idx : nat;
  best_boarding_st : stop_time
}.

(** The tests of the scan at one stop time: the departure time if the trip
    can be boarded there and beats the best boarding so far. *)
Definition boardable (lab : labels) (k : nat) (marked : gset string)
    (departure_time_seconds first_stop_time : Z) (best : option boarding) (st : stop_time)
    : option Z :=
  if decide (stop_id st ∈ marked) then
    let dep_time := normalise (time_to_seconds (departure_time st)) first_stop_time
                      departure_time_seconds in
    match tau lab !! (stop_id st, (k - 1)%nat) with
    | None => None
    | Some earliest_arrival =>
        if decide (dep_time < earliest_arrival) then None
        else if decide (earliest_arrival + TRANSFER_TIME > dep_time) then None
        else match best with
             | Some b => if decide (dep_time >= best_boarding_time b) then None else Some dep_time
             | None => Some dep_time
             end
    end
  else None.

(** [for idx, st in enumerate(stop_times)] up to the [break]. *)
Fixpoint first_boardable (test : stop_time → option Z) (idx : nat) (stop_times : list stop_time)
    : option (nat * stop_time * Z) :=
  match stop_times with
  | [] => None
  | st :: stop_times =>
      match test st with
      | Some dep_time => Some (idx, st, dep_time)
      | None => first_boardable test (S idx) stop_times
      end
  end.

(** The body of [for trip_id, stop_times in trips]; [stop_times[0]] raises
    on a trip without stop times. *)
Definition scan_trip (lab : labels) (k : nat) (marked : gset string)
    (departure_time_seconds : Z) (best : option boarding) (trip : string * list stop_time)
    : option (option boarding) :=
  let '(trip_id, stop_times) := trip in
  first ← head stop_times;
  let first_stop_time := time_to_seconds (departure_time first) in
  match first_boardable (boardable lab k marked departure_time_seconds first_stop_time best)
          0 stop_times with
  | Some (idx, st, dep_time) =>
      Some (Some {| best_trip_id := trip_id; best_stop_times := stop_times;
                    best_first_stop_time := first_stop_time;
                    best_boarding_stop := stop_id st; best_boarding_time := dep_time;
                    best_boarding_idx := idx; best_boarding_st := st |})
  | None => Some best
  end.

(** The body of the loop over the stops after the boarding stop; the
    second component is [stops_updated_by_transit]. *)
Definition alight (k : nat) (departure_time_seconds : Z) (b : boarding)
    (acc : labels * list string) (st : stop_time) : labels * list string :=
  let '(lab, updated) := acc in
  let arr_time := normalise (time_to_seconds (arrival_time st)) (best_first_stop_time b)
                    departure_time_seconds in
  if decide (arr_time > departure_time_seconds + SEARCH_WINDOW_HOURS * 3600) then acc
  else if improves lab (stop_id st) k arr_time then
    (set_label lab (stop_id st) k arr_time
       (ParentTransit (best_trip_id b) (best_boarding_stop b) (best_boarding_time b)
          (best_boarding_st b) (stop_id st) arr_time st),
     updated ++ [stop_id st])
  else acc.

(** The body of [for route_id, trips in trips_by_route.items()]. *)
Definition ride_route (k : nat) (marked : gset string) (departure_time_seconds : Z)
    (acc : labels * list string) (bucket : string * Z * list (string * list stop_time))
    : option (labels * list string) :=
  let trips := bucket.2 in
  sample ← head trips;
  if decide (Exists (λ st, stop_id st ∈ marked) sample.2) then
    best ← fold_left_opt (scan_trip acc.1 k marked departure_time_seconds) trips None;
    match best with
    | Some b =>
        Some (fold_left (alight k departure_time_seconds b)
                (drop (S (best_boarding_idx b)) (best_stop_times b)) acc)
    | None => Some acc
    end
  else Some acc.

(** The body of [for neighbor_id, walk_seconds in self.transfers[stop_id]]. *)
Definition relax (k : nat) (stop : string) (arrival_time : Z) (lab : labels)
    (edge : string * Z) : labels :=
  let '(neighbor_id, walk_seconds) := edge in
  let walk_arrival := arrival_time + walk_seconds in
  if improves lab neighbor_id k walk_arrival then
    set_label lab neighbor_id k walk_arrival
      (ParentTransfer stop neighbor_id walk_arrival walk_seconds)
  else lab.

(** [d[k]] on a [defaultdict(list)]: a read of a missing key inserts it. *)
Definition defaultdict_getitem (d : gmap string (list (string * Z))) (k : string)
    : list (string * Z) * gmap string (list (string * Z)) :=
  match d !! k with
  | Some v => (v, d)
  | None => ([], <[k := []]> d)
  end.

(** The body of [for stop_id in stops_updated_by_transit]; [self.transfers]
    is read under [if stop_id in self.transfers].  An arrival time of
    [inf] improves nothing. *)
Definition walk_from (k : nat) (acc : labels * gmap string (list (string * Z)))
    (stop : string) : labels * gmap string (list (string * Z)) :=
  let '(lab, transfers) := acc in
  if decide (stop ∈ dom transfers) then
    let '(edges, transfers) := defaultdict_getitem transfers stop in
    match tau lab !! (stop, k) with
    | Some arrival_time => (fold_left (relax k stop arrival_time) edges lab, transfers)
    | None => (lab, transfers)
    end
  else acc.

(** One round of the main loop, after the test of [marked_stops]. *)
Definition raptor_round (trips_by_route : list (string * Z * list (string * list stop_time)))
    (departure_time_seconds : Z) (k : nat)
    (acc : labels * gmap string (list (string * Z)))
    : option (labels * gmap string (list (string * Z))) :=
  let '(lab, transfers) := acc in
  let marked := marked_stops lab k in
  '(lab, updated) ← fold_left_opt (ride_route k marked departure_time_seconds)
                      trips_by_route (lab, []);
  Some (fold_left (walk_from k) (set_iter (remove_dups updated)) (lab, transfers)).

(** [for k in range(1, MAX_TRANSFERS + 2)], with its [break]. *)
Fixpoint raptor_rounds (trips_by_route : list (string * Z * list (string * list stop_time)))
    (departure_time_seconds : Z) (ks : list nat)
    (acc : labels * gmap string (list (string * Z)))
    : option (labels * gmap string (list (string * Z))) :=
  match ks with
  | [] => Some acc
  | k :: ks =>
      if decide (marked_stops acc.1 k = ∅) then Some acc
      else acc ← raptor_round trips_by_route departure_time_seconds k acc;
           raptor_rounds trips_by_route departure_time_seconds ks acc
  end.

(** *** Reconstruction *)

Definition stop_place (stop_id : string) (s : stop) : place :=
  {| place_lat := lat s; place_lon := lon s; place_stop := Some (stop_id, stop_name s) |}.

Definition coordinate (lat0 lon0 : R) : place :=
  {| place_lat := lat0; place_lon := lon0; place_stop := None |}.

(** The [while current_round >= 0] loop that follows the parent records. *)
Fixpoint walk_parents (fuel : nat) (tt : timetable) (lab : labels)
    (current_stop : string) (current_round : nat) (legs : list leg) : outcome (list leg) :=
  match fuel with
  | O => Timeout
  | S fuel =>
      match parent lab !! (current_stop, current_round) with
      | None => Done legs
      | Some (ParentWalk from_lat from_lon to_stop _) =>
          Done (Walk (coordinate from_lat from_lon)
                  (stop_place (nb_stop_id to_stop) (nb_stop to_stop))
                  (nb_distance to_stop) (nb_walking_time to_stop) :: legs)
      | Some (ParentTransfer from_stop_id to_stop_id _ walk_time) =>
          match getitem (stops tt) from_stop_id, getitem (stops tt) to_stop_id with
          | Some from_stop, Some to_stop =>
              walk_parents fuel tt lab from_stop_id current_round
                (Walk (stop_place from_stop_id from_stop) (stop_place to_stop_id to_stop)
                   (IZR walk_time * WALKING_SPEED_MS) walk_time :: legs)
          | _, _ => Raised
          end
      | Some (ParentTransit trip_id boarding_stop _ boarding_st _ _ arrival_st) =>
          match trips tt !! trip_id, getitem (stops tt) (stop_id boarding_st),
                getitem (stops tt) (stop_id arrival_st) with
          | Some route_id, Some from_stop, Some to_stop =>
              let leg := Transit route_id trip_id (stop_id boarding_st) (stop_id arrival_st)
                           (stop_name from_stop) (stop_name to_stop)
                           (departure_time boarding_st) (arrival_time arrival_st) in
              match current_round with
              | O => Done (leg :: legs)
              | S round => walk_parents fuel tt lab boarding_stop round (leg :: legs)
              end
          | _, _, _ => Raised
          end
      end
  end.

(** [candidate_routes], sorted by arrival time. *)
Definition candidate_routes (lab : labels) (dest_stops : list nearby_stop)
    (search_window_end : Z) : list (Z * string * nat) :=
  let dest_stop_ids := set_iter (remove_dups (nb_stop_id <$> dest_stops)) in
  let found :=
    dest_id ← dest_stop_ids;
    omap (λ k, arrival_time ← tau lab !! (dest_id, k);
               if decide (arrival_time ≤ search_window_end)
               then Some (arrival_time, dest_id, k) else None)
         (seq 0 (MAX_TRANSFERS + 2)) in
  sorted Z.le (λ c : Z * string * nat, c.1.1) found.

(** The body of the loop over the candidates: the itinerary, or [None]
    when it is skipped. *)
Definition itinerary (fuel : nat) (tt : timetable) (lab : labels)
    (dest_stops : list nearby_stop) (dest_lat dest_lon : R) (departure_time_seconds : Z)
    (candidate : Z * string * nat) : outcome (option result) :=
  let '(best_time, best_dest, best_round) := candidate in
  match walk_parents fuel tt lab best_dest best_round [] with
  | Done legs =>
      match list_find (λ d, nb_stop_id d = best_dest) dest_stops with
      | None => Raised
      | Some (_, dest_stop_info) =>
          let final_walk_time := nb_walking_time dest_stop_info in
          let legs := legs ++ [Walk (stop_place best_dest (nb_stop dest_stop_info))
                                 (coordinate dest_lat dest_lon)
                                 (nb_distance dest_stop_info) final_walk_time] in
          let legs := merge_consecutive_walk_legs legs in
          if has_duplicate_route_transfer legs then Done None
          else
            let total_time := best_time - departure_time_seconds + final_walk_time in
            if decide (total_time < 0 ∨ total_time > SEARCH_WINDOW_HOURS * 3600) then Done None
            else Done (Some {| dest_stop := best_dest; total_time := total_time;
                               transfer_count := length (List.filter is_transit legs);
                               legs := legs |})
      end
  | Raised => Raised
  | Timeout => Timeout
  end.

(** The loop that fills [temp_results]. *)
Fixpoint itineraries (fuel : nat) (tt : timetable) (lab : labels)
    (dest_stops : list nearby_stop) (dest_lat dest_lon : R) (departure_time_seconds : Z)
    (candidates : list (Z * string * nat)) : outcome (list result) :=
  match candidates with
  | [] => Done []
  | c :: candidates =>
      match itinerary fuel tt lab dest_stops dest_lat dest_lon departure_time_seconds c with
      | Done r =>
          match itineraries fuel tt lab dest_stops dest_lat dest_lon departure_time_seconds
                  candidates with
          | Done rs => Done (option_list r ++ rs)
          | Raised => Raised
          | Timeout => Timeout
          end
      | Raised => Raised
      | Timeout => Timeout
      end
  end.

(** What [run] returns: the routes, and in debug mode the debug log (one
    line, which holds the number of origin stops). *)
Record output := {
  routes : list route;
  debug_logs : option (list nat)
}.

(** [run]: the outcome, and the service afterwards. *)
Definition run (fuel : nat) (self : service) (origin_lat origin_lon dest_lat dest_lon : R)
    (departure_time_seconds : Z) (debug : bool) : outcome output * service :=
  let tt := service_timetable self in
  let origin_stops := find_nearby_stops tt origin_lat origin_lon in
  let dest_stops := find_nearby_stops tt dest_lat dest_lon in
  let debug_logs := if debug then Some [length origin_stops] else None in
  match origin_stops, dest_stops with
  | [], _ | _, [] => (Done {| routes := []; debug_logs := debug_logs |}, self)
  | _, _ =>
      let lab := fold_left (init_origin origin_lat origin_lon departure_time_seconds)
                   origin_stops {| tau := ∅; parent := ∅ |} in
      match fold_left_opt (group_trip tt) (stop_times_by_trip tt) [] with
      | None => (Raised, self)
      | Some trips_by_route =>
          match raptor_rounds trips_by_route departure_time_seconds
                  (seq 1 (MAX_TRANSFERS + 1)) (lab, transfers self) with
          | None => (Raised, self)
          | Some (lab, transfers) =>
              let self := {| service_timetable := tt; transfers := transfers |} in
              let search_window_end := departure_time_seconds + SEARCH_WINDOW_HOURS * 3600 in
              let candidates := candidate_routes lab dest_stops search_window_end in
              match itineraries fuel tt lab dest_stops dest_lat dest_lon
                      departure_time_seconds candidates with
              | Done temp_results =>
                  (Done {| routes := finish temp_results; debug_logs := debug_logs |}, self)
              | Raised => (Raised, self)
              | Timeout => (Timeout, self)
              end
          end
      end
  end.

(** [tau] and [parent] when [run] starts the reconstruction, after the
    walks from the origin and the rounds; [None] when a lookup of the
    rounds raises.  [run] gets there when it has found stops near the
    origin and near the destination. *)
Definition search (self : service) (origin_lat origin_lon : R) (departure_time_seconds : Z)
    : option labels :=
  let tt := service_timetable self in
  let origin_stops := find_nearby_stops tt origin_lat origin_lon in
  let lab := fold_left (init_origin origin_lat origin_lon departure_time_seconds)
               origin_stops {| tau := ∅; parent := ∅ |} in
  trips_by_route ← fold_left_opt (group_trip tt) (stop_times_by_trip tt) [];
  acc ← raptor_rounds trips_by_route departure_time_seconds
          (seq 1 (MAX_TRANSFERS + 1)) (lab, transfers self);
  Some acc.1.

(** The legs of a candidate as the loop hands them to
    [_merge_consecutive_walk_legs]: the legs of the parent records and the
    final walk. *)
Definition unmerged_legs (fuel : nat) (tt : timetable) (lab : labels)
    (dest_stops : list nearby_stop) (dest_lat dest_lon : R) (candidate : Z * string * nat)
    : outcome (list leg) :=
  let '(_, best_dest, best_round) := candidate in
  match walk_parents fuel tt lab best_dest best_round [] with
  | Done legs =>
      match list_find (λ d, nb_stop_id d = best_dest) dest_stops with
      | None => Raised
      | Some (_, dest_stop_info) =>
          Done (legs ++ [Walk (stop_place best_dest (nb_stop dest_stop_info))
                           (coordinate dest_lat dest_lon)
                           (nb_distance dest_stop_info) (nb_walking_time dest_stop_info)])
      end
  | Raised => Raised
  | Timeout => Timeout
  end.

End engine.

(** *** Vocabulary for the labels

    [tau_le lab x y]: both entries of [tau] are finite, the one at [x] at
    most the one at [y].  [chain origin_lat origin_lon lab s k]: the parent
    records lead from [(s, k)] to a walk from the origin coordinate in
    round 0, through transit records, which go down one round, and transfer
    records, which stay in their round and go to an entry that is not later.
    [labels_ok]: every finite entry of [tau] has such a chain. *)
Definition tau_le (lab : labels) (x y : string * nat) : Prop :=
  ∃ tx ty, tau lab !! x = Some tx ∧ tau lab !! y = Some ty ∧ tx ≤ ty.

Inductive chain (origin_lat origin_lon : R) (lab : labels) : string → nat → Prop :=
  | chain_walk s to_stop arrival :
      parent lab !! (s, 0%nat) = Some (ParentWalk origin_lat origin_lon to_stop arrival) →
      chain origin_lat origin_lon lab s 0
  | chain_transit s k trip_id boarding_stop boarding_time boarding_st arrival_stop
        arrival_time arrival_st :
      parent lab !! (s, S k) =
        Some (ParentTransit trip_id boarding_stop boarding_time boarding_st arrival_stop
                arrival_time arrival_st) →
      chain origin_lat origin_lon lab boarding_stop k →
      chain origin_lat origin_lon lab s (S k)
  | chain_transfer s k from_stop_id to_stop_id arrival walk_time :
      parent lab !! (s, S k) = Some (ParentTransfer from_stop_id to_stop_id arrival walk_time) →
      tau_le lab (from_stop_id, S k) (s, S k) →
      chain origin_lat origin_lon lab from_stop_id (S k) →
      chain origin_lat origin_lon lab s (S k).

Definition labels_ok (origin_lat origin_lon : R) (lab : labels) : Prop :=
  ∀ s k, is_Some (tau lab !! (s, k)) → chain origin_lat origin_lon lab s k.

(** No walk of the transfer graph takes a negative time. *)
Definition nonnegative_transfers (transfers : gmap string (list (string * Z))) : Prop :=
  ∀ a b w, has_transfer transfers a b w → 0 ≤ w.

(** The seconds walked along a list of legs. *)
Definition walking_seconds (legs : list leg) : Z := foldr Z.add 0 (walk_duration <$> legs).

(** [known_stop tt id]: [timetable.stops[id]] does not raise. *)
Definition known_stop (tt : timetable) (id : string) : Prop :=
  is_Some (getitem (stops tt) id).

(** A timetable whose trips all have a route, at least one stop time, and
    stop times at stops of the table only. *)
Definition well_formed (tt : timetable) : Prop :=
  ∀ trip_id stop_times, (trip_id, stop_times) ∈ stop_times_by_trip tt →
    is_Some (trips tt !! trip_id) ∧ stop_times ≠ [] ∧
    ∀ st, st ∈ stop_times → known_stop tt (stop_id st).

(** [timetable_ride tt l]: a transit leg is a ride of the timetable, on a
    trip with its route, from one stop time of the trip to a later one in
    the order of the departure times, with the names of the two stops. *)
Definition timetable_ride (tt : timetable) (l : leg) : Prop :=
  match l with
  | Walk _ _ _ _ => True
  | Transit route_id trip_id from_stop_id to_stop_id from_stop_name to_stop_name
      departure arrival =>
      ∃ stop_times pre boarding_st mid arrival_st post from_stop to_stop,
        (trip_id, stop_times) ∈ stop_times_by_trip tt ∧
        trips tt !! trip_id = Some route_id ∧
        sorted Z.le (λ st, time_to_seconds (departure_time st)) stop_times =
          pre ++ boarding_st :: mid ++ arrival_st :: post ∧
        from_stop_id = stop_id boarding_st ∧ to_stop_id = stop_id arrival_st ∧
        getitem (stops tt) from_stop_id = Some from_stop ∧
        from_stop_name = stop_name from_stop ∧
        getitem (stops tt) to_stop_id = Some to_stop ∧
        to_stop_name = stop_name to_stop ∧
        departure = departure_time boarding_st ∧ arrival = arrival_time arrival_st
  end.

(** The stop where a leg begins and the stop where it ends, if it is one. *)
Definition leg_from_stop (l : leg) : option string :=
  match l with
  | Walk from _ _ _ => fst <$> place_stop from
  | Transit _ _ from_stop_id _ _ _ _ _ => Some from_stop_id
  end.

Definition leg_to_stop (l : leg) : option string :=
  match l with
  | Walk _ to _ _ => fst <$> place_stop to
  | Transit _ _ _ to_stop_id _ _ _ _ => Some to_stop_id
  end.

(** [joined a b]: the leg [a] ends at the stop where [b] begins. *)
Definition joined (a b : leg) : Prop :=
  ∃ id, leg_to_stop a = Some id ∧ leg_from_stop b = Some id.

(** Every leg is joined to the next. *)
Fixpoint connected (legs : list leg) : Prop :=
  match legs with
  | [] => True
  | a :: rest => (∀ b, head rest = Some b → joined a b) ∧ connected rest
  end.

End Raptor.

(** ** The loader of the timetable (services/timetables.py) *)

Module Timetables.
Import Py Raptor.

(** A row of the query of [_load_stop_times]: a stop time with the id of
    its trip. *)
Record row := { row_trip_id : string; row_stop_time : stop_time }.

(** The two dictionaries that [_load_stop_times] fills, both
    [defaultdict(list)]. *)
Record loaded := {
  loaded_stop_times_by_trip : list (string * list stop_time);
  loaded_stop_routes : list (string * list string)
}.

(** The dictionaries of [__init__]. *)
Definition empty : loaded :=
  {| loaded_stop_times_by_trip := []; loaded_stop_routes := [] |}.

(** The body of [for st in stop_times_query]; [trips] gives the route id
    of a trip.  The read [self.stop_routes[st.stop_id]] of a missing key
    inserts an empty list, to which the route is appended at once. *)
Definition load_stop_time (trips : gmap string string) (acc : loaded) (st : row) : loaded :=
  let stop_times_by_trip :=
    dict_append (loaded_stop_times_by_trip acc) (row_trip_id st) (row_stop_time st) in
  match trips !! row_trip_id st with
  | Some route_id =>
      let stop := stop_id (row_stop_time st) in
      if decide (route_id ∈ default [] (getitem (loaded_stop_routes acc) stop)) then
        {| loaded_stop_times_by_trip := stop_times_by_trip;
           loaded_stop_routes := loaded_stop_routes acc |}
      else
        {| loaded_stop_times_by_trip := stop_times_by_trip;
           loaded_stop_routes := dict_append (loaded_stop_routes acc) stop route_id |}
  | None =>
      {| loaded_stop_times_by_trip := stop_times_by_trip;
         loaded_stop_routes := loaded_stop_routes acc |}
  end.

(** The loop of [_load_stop_times] over the rows of the query. *)
Definition load_stop_times (trips : gmap string string) (rows : list row) (acc : loaded)
    : loaded :=
  fold_left (load_stop_time trips) rows acc.

(** The timetable that [RaptorService] reads after [load]. *)
Definition loaded_timetable (stops : list (string * stop)) (trips : gmap string string)
    (rows : list row) : timetable :=
  {| Raptor.stops := stops; Raptor.trips := trips;
     stop_times_by_trip := loaded_stop_times_by_trip (load_stop_times trips rows empty) |}.

End Timetables.

(** * Properties *)

(** ** Python built-ins *)

Module PyFacts.
Import Py.

Section sorted.
Context {A K : Type} (le : relation K) `{!RelDecision le} (key : A → K).

Lemma insort_Permutation (x : A) (l : list A) : insort le key x l ≡ₚ x :: l.
Proof.
  induction l as [|y l IH]; simpl; [done|].
  case_decide; [done|]. rewrite IH. apply Permutation_swap.
Qed.

Lemma sorted_Permutation (l : list A) : sorted le key l ≡ₚ l.
Proof.
  induction l as [|x l IH]; simpl; [done|].
  by rewrite insort_Permutation, IH.
Qed.

Lemma length_sorted (l : list A) : length (sorted le key l) = length l.
Proof. by rewrite sorted_Permutation. Qed.

Lemma elem_of_sorted (x : A) (l : list A) : x ∈ sorted le key l ↔ x ∈ l.
Proof. by rewrite sorted_Permutation. Qed.

Lemma NoDup_sorted (l : list A) : NoDup l → NoDup (sorted le key l).
Proof. by rewrite sorted_Permutation. Qed.

Context `{!Total le, !Transitive le}.

Lemma insort_Sorted (x : A) (l : list A) :
  Sorted (λ a b, le (key a) (key b)) l →
  Sorted (λ a b, le (key a) (key b)) (insort le key x l).
Proof.
  induction 1 as [|y l Hl IH Hy]; simpl; [by repeat constructor|].
  case_decide as Hxy.
  - by repeat constructor.
  - constructor; [done|].
    assert (le (key y) (key x)) as Hyx by (by destruct (total le (key x) (key y))).
    destruct l as [|z l]; simpl in *; [by constructor|].
    case_decide; constructor; try done. by inversion Hy.
Qed.

Lemma sorted_Sorted (l : list A) : Sorted (λ a b, le (key a) (key b)) (sorted le key l).
Proof. induction l; simpl; [constructor|by apply insort_Sorted]. Qed.

Lemma min_by_elem_of (x : A) (l : list A) : min_by le key x l ∈ x :: l.
Proof.
  revert x. induction l as [|y l IH]; intros x; simpl; [left|].
  case_decide.
  - specialize (IH x). apply elem_of_cons in IH as [->|?]; [left|by do 2 right].
  - right. apply IH.
Qed.

Lemma min_by_le (x : A) (l : list A) (y : A) :
  y ∈ x :: l → le (key (min_by le key x l)) (key y).
Proof.
  revert x y. induction l as [|z l IH]; intros x y; simpl.
  - intros ->%list_elem_of_singleton. by destruct (total le (key x) (key x)).
  - intros Hy. case_decide as Hxz.
    + apply elem_of_cons in Hy as [Hy|[Hy|Hy]%elem_of_cons]; subst.
      * apply IH. left.
      * etrans; [apply (IH x x); left|done].
      * apply IH. by right.
    + assert (le (key z) (key x)) by (by destruct (total le (key x) (key z))).
      apply elem_of_cons in Hy as [Hy|Hy]; subst; [|by apply IH].
      etrans; [apply (IH z z); left|done].
Qed.

(** [min] returns the first of the least elements. *)
Lemma min_by_first (x : A) (l : list A) :
  ∃ pre post, x :: l = pre ++ min_by le key x l :: post ∧
    ∀ y, y ∈ pre → ¬ le (key y) (key (min_by le key x l)).
Proof.
  revert x. induction l as [|z l IH]; intros x; simpl.
  { exists [], []. split; [done|]. by intros y ?%elem_of_nil. }
  case_decide as Hxz.
  - destruct (IH x) as (pre & post & Heq & Hpre). destruct pre as [|x' pre].
    + simpl in Heq. injection Heq as Hm Hpost. exists [], (z :: l).
      split; [by rewrite <-Hm|]. by intros y ?%elem_of_nil.
    + simpl in Heq. injection Heq as <- Hl. exists (x :: z :: pre), post.
      split; [simpl; by rewrite <-Hl|].
      intros y [->|[->|Hy]%elem_of_cons]%elem_of_cons.
      * apply Hpre. left.
      * intros Hzm. apply (Hpre x); [left|]. by etrans.
      * apply Hpre. by right.
  - destruct (IH z) as (pre & post & Heq & Hpre). exists (x :: pre), post.
    split; [simpl; by rewrite Heq|].
    intros y [->|Hy]%elem_of_cons; [|by apply Hpre].
    intros Hxm. apply Hxz. etrans; [done|]. apply min_by_le. left.
Qed.

End sorted.

Section dict.
Context {K A : Type} `{!EqDecision K}.
Implicit Types (d : list (K * list A)) (k t : K) (x : A).

Lemma dict_append_keys d k x t : t ∈ (dict_append d k x).*1 ↔ t = k ∨ t ∈ d.*1.
Proof.
  induction d as [|[k' l] d IH]; csimpl.
  - rewrite list_elem_of_singleton, elem_of_nil. tauto.
  - case_decide as Hk; csimpl; rewrite !elem_of_cons; [subst; tauto|]. rewrite IH. tauto.
Qed.

Lemma dict_append_NoDup d k x : NoDup d.*1 → NoDup (dict_append d k x).*1.
Proof.
  induction d as [|[k' l] d IH]; csimpl; intros Hnd.
  - apply NoDup_singleton.
  - apply NoDup_cons in Hnd as [Hk' Hnd]. case_decide as Hk; csimpl.
    + by apply NoDup_cons.
    + apply NoDup_cons. split; [|by apply IH].
      rewrite dict_append_keys. intros [->|?]; done.
Qed.

Lemma getitem_append d k x t :
  getitem (dict_append d k x) t =
  if decide (t = k) then Some (default [] (getitem d k) ++ [x]) else getitem d t.
Proof.
  induction d as [|[k' l] d IH]; simpl.
  - repeat case_decide; congruence.
  - destruct (decide (k' = k)) as [->|Hk]; simpl.
    + repeat case_decide; congruence.
    + rewrite IH. repeat case_decide; congruence.
Qed.

Lemma dict_append_fresh d k x : k ∉ d.*1 → dict_append d k x = d ++ [(k, [x])].
Proof.
  induction d as [|[k' l] d IH]; csimpl; intros Hk; [done|].
  apply not_elem_of_cons in Hk as [Hne Hk]. rewrite decide_False by done.
  by rewrite IH.
Qed.

Lemma getitem_elem_of {V : Type} (d : list (K * V)) k (v : V) :
  getitem d k = Some v → (k, v) ∈ d.
Proof.
  induction d as [|[k' v'] d IH]; simpl; [done|].
  case_decide as Hk; [intros [= ->]; subst; left|intros; right; auto].
Qed.

Lemma elem_of_getitem {V : Type} (d : list (K * V)) k (v : V) :
  NoDup d.*1 → (k, v) ∈ d → getitem d k = Some v.
Proof.
  induction d as [|[k' v'] d IH]; csimpl; intros Hnd Hin.
  { by apply elem_of_nil in Hin. }
  apply NoDup_cons in Hnd as [Hk' Hnd].
  apply elem_of_cons in Hin as [[= -> ->]|Hin]; [by case_decide|].
  case_decide as Hk; [|by apply IH]. subst. destruct Hk'.
  apply list_elem_of_fmap. by exists (k, v).
Qed.

Lemma getitem_None {V : Type} (d : list (K * V)) k : getitem d k = None ↔ k ∉ d.*1.
Proof.
  induction d as [|[k' v'] d IH]; csimpl.
  - split; [intros _; apply not_elem_of_nil|done].
  - rewrite not_elem_of_cons. case_decide as Hk; [subst; split; [done|tauto]|].
    rewrite IH. split; [by split|tauto].
Qed.

End dict.

Section group.
Context {K A : Type} `{!EqDecision K} (key : A → K).

(** Grouping a list by a key with [d[key(x)].append(x)]: the keys are
    distinct and every key holds the elements that have it, in order. *)
Lemma group_spec (l : list A) :
  let d := fold_left (λ d x, dict_append d (key x) x) l [] in
  NoDup d.*1 ∧
  ∀ k, getitem d k =
       if decide (filter (λ x, key x = k) l = []) then None
       else Some (filter (λ x, key x = k) l).
Proof.
  induction l as [|x l IH] using rev_ind; simpl.
  { split; [constructor|done]. }
  rewrite fold_left_app. simpl. destruct IH as [Hnd Hget]. split.
  - by apply dict_append_NoDup.
  - intros k. rewrite getitem_append, !Hget, filter_app, filter_cons, filter_nil.
    destruct (decide (k = key x)) as [->|Hne].
    + rewrite (decide_True (P := key x = key x)) by done.
      rewrite (decide_False (P := _ ++ _ = [])) by (by intros [_ ?]%app_eq_nil).
      do 2 f_equal. by case_decide as Hd; [rewrite Hd|].
    + rewrite (decide_False (P := key x = k)) by done. by rewrite app_nil_r.
Qed.

(** When the keys are pairwise distinct every group is a singleton. *)
Lemma group_NoDup (l : list A) :
  NoDup (key <$> l) →
  fold_left (λ d x, dict_append d (key x) x) l [] = (λ x, (key x, [x])) <$> l.
Proof.
  induction l as [|x l IH] using rev_ind; [done|].
  rewrite fmap_app. intros [Hnd [Hx _]]%NoDup_app.
  rewrite fold_left_app, fmap_app. simpl. rewrite IH by done.
  apply dict_append_fresh. rewrite <-list_fmap_compose.
  intros Hin. apply (Hx (key x)); [done|]. csimpl. left.
Qed.

End group.

Lemma last_List_last {A : Type} (l : list A) (d : A) : l ≠ [] → last l = Some (List.last l d).
Proof.
  induction l as [|x l IH]; [done|]. intros _. destruct l as [|y l]; [done|].
  change (last (x :: y :: l)) with (last (y :: l)).
  change (List.last (x :: y :: l) d) with (List.last (y :: l) d). by apply IH.
Qed.

Lemma filter_split {A : Type} (P : A → Prop) `{!∀ x, Decision (P x)} (l l1 l2 : list A) x :
  filter P l = l1 ++ x :: l2 →
  ∃ pre post, l = pre ++ x :: post ∧ filter P pre = l1 ∧ filter P post = l2.
Proof.
  revert l1. induction l as [|y l IH]; intros l1 Heq.
  { by destruct l1. }
  rewrite filter_cons in Heq. case_decide as Hy.
  - destruct l1 as [|z l1]; simpl in Heq; injection Heq as -> Heq.
    + exists [], l. by rewrite filter_nil.
    + destruct (IH _ Heq) as (pre & post & -> & <- & <-).
      exists (z :: pre), post. by rewrite filter_cons_True.
  - destruct (IH _ Heq) as (pre & post & -> & <- & <-).
    exists (y :: pre), post. by rewrite filter_cons_False.
Qed.

(** A list comprehension with a condition keeps the whole list exactly
    when every element meets the condition. *)
Lemma filter_id_iff {A : Type} (P : A → Prop) `{!∀ x, Decision (P x)} (l : list A) :
  filter P l = l ↔ ∀ x, x ∈ l → P x.
Proof.
  split.
  - intros Heq x Hx. rewrite <-Heq in Hx. by apply list_elem_of_filter in Hx as [? _].
  - intros Hall. induction l as [|x l IH]; [done|].
    rewrite filter_cons_True by (apply Hall; left).
    f_equal. apply IH. intros y Hy. apply Hall. by right.
Qed.

Lemma sorted_int_Permutation (l : list Z) : sorted_int l ≡ₚ l.
Proof. apply sorted_Permutation. Qed.

Lemma sorted_int_Sorted (l : list Z) : Sorted Z.le (sorted_int l).
Proof. apply (sorted_Sorted Z.le (λ d : Z, d)). Qed.

(** A sorted permutation of a list of integers is [sorted(l)]. *)
Lemma sorted_int_unique (l s : list Z) : Sorted Z.le s → s ≡ₚ l → sorted_int l = s.
Proof.
  intros Hs Hp. apply (Sorted_unique Z.le); [apply sorted_int_Sorted|done|].
  by rewrite sorted_int_Permutation, Hp.
Qed.

Lemma index_sorted_mono (s : list Z) (i j : nat) :
  Sorted Z.le s → (i ≤ j < length s)%nat → (index s i ≤ index s j)%Z.
Proof.
  intros Hs%Sorted_StronglySorted; [|intros ???; lia]. unfold index.
  revert i j. induction Hs as [|x s Hs IH Hx]; intros i j Hij; simpl in *; [lia|].
  destruct i as [|i], j as [|j]; try lia.
  - rewrite Forall_forall in Hx. apply Hx, list_elem_of_In, nth_In. lia.
  - apply IH. lia.
Qed.

Lemma index_elem_of (s : list Z) (i : nat) : (i < length s)%nat → index s i ∈ s.
Proof. intros. by apply list_elem_of_In, nth_In. Qed.

End PyFacts.

(** ** The realistic-time synthesiser *)

Module RealisticStopTimesFacts.
Import Py PyFacts RealisticStopTimes.
#[local] Open Scope Z_scope.

(** *** The IQR outlier filter *)

Lemma length_sorted_int (l : list Z) : length (sorted_int l) = length l.
Proof. apply length_sorted. Qed.

Lemma index_sorted_int_elem_of (l : list Z) (i : nat) :
  (i < length l)%nat → index (sorted_int l) i ∈ l.
Proof.
  intros. apply (elem_of_sorted Z.le (λ d : Z, d)), index_elem_of.
  by rewrite length_sorted.
Qed.

Lemma quartiles_ordered (delays : list Z) :
  (0 < length delays)%nat →
  q1_of delays ∈ delays ∧ q3_of delays ∈ delays ∧ q1_of delays ≤ q3_of delays.
Proof.
  intros Hn. unfold q1_of, q3_of. rewrite length_sorted_int.
  assert (length delays / 4 ≤ 3 * length delays / 4 < length delays)%nat as Hi.
  { split; [apply Nat.Div0.div_le_mono; lia|apply Nat.Div0.div_lt_upper_bound; lia]. }
  split_and!.
  - apply index_sorted_int_elem_of. lia.
  - apply index_sorted_int_elem_of. lia.
  - apply index_sorted_mono; [apply sorted_int_Sorted|].
    rewrite length_sorted_int. lia.
Qed.

(** The first quartile sample always passes the filter, so the filtered
    group is never empty and [if filtered_delays:] always holds. *)
Lemma filter_outliers_nonempty (delays : list Z) :
  (0 < length delays)%nat → filter_outliers delays ≠ [].
Proof.
  intros Hn. destruct (quartiles_ordered delays Hn) as (Hq1 & _ & Hle).
  intros Hnil. assert (q1_of delays ∈ filter_outliers delays) as Hin.
  { unfold filter_outliers. apply list_elem_of_filter. split; [|done].
    unfold IQR_MULTIPLIER. lia. }
  rewrite Hnil in Hin. by apply elem_of_nil in Hin.
Qed.

Lemma filter_group_small (delays : list Z) :
  (length delays < 4)%nat → filter_group delays = Some delays.
Proof. intros. unfold filter_group. by case_decide. Qed.

Lemma filter_group_large (delays : list Z) :
  (4 ≤ length delays)%nat → filter_group delays = Some (filter_outliers delays).
Proof.
  intros Hn. unfold filter_group. case_decide; [lia|].
  pose proof (filter_outliers_nonempty delays ltac:(lia)).
  by destruct (filter_outliers delays).
Qed.

Lemma filter_group_is_Some (delays : list Z) : is_Some (filter_group delays).
Proof.
  destruct (decide (length delays < 4)%nat).
  - rewrite filter_group_small by done. eauto.
  - rewrite filter_group_large by lia. eauto.
Qed.

(** What the second pass leaves under a key. *)
Lemma filter_all_groups_lookup (raw_delays delay_stats : gmap (string * string) (list Z))
    (key : string * string) :
  filter_all_groups raw_delays delay_stats !! key =
    match raw_delays !! key with
    | Some delays => filter_group delays
    | None => delay_stats !! key
    end.
Proof.
  unfold filter_all_groups.
  apply (map_fold_weak_ind (λ r m, r !! key =
    match m !! key with Some delays => filter_group delays | None => delay_stats !! key end)).
  - by rewrite lookup_empty.
  - intros k delays m r Hk IH. unfold store_group.
    destruct (filter_group_is_Some delays) as [kept Hkept]. rewrite Hkept.
    destruct (decide (k = key)) as [->|Hne].
    + by rewrite !lookup_insert_eq.
    + by rewrite !lookup_insert_ne.
Qed.

(** The quartile samples read off any sorted copy of the group. *)
Lemma filter_outliers_sorted_copy (delays s : list Z) :
  Sorted Z.le s → s ≡ₚ delays →
  let n := length delays in
  let q1 := index s (n / 4) in
  let q3 := index s (3 * n / 4) in
  filter_outliers delays = filter (λ d, q1 - 3 * (q3 - q1) ≤ d ≤ q3 + 3 * (q3 - q1)) delays.
Proof.
  intros Hs Hp. simpl. unfold filter_outliers, q1_of, q3_of, IQR_MULTIPLIER.
  rewrite (sorted_int_unique delays s Hs Hp). by rewrite (Permutation_length Hp).
Qed.

(** C2.  For every (trip, stop) group the arrival log yields: a group of
    fewer than 4 delays is stored as it is; a group of at least 4 delays is
    stored as exactly the delays [d] of the group (in their order) with
    [Q1 - 3*IQR <= d <= Q3 + 3*IQR], where [Q1] and [Q3] are the samples at
    indices [n/4] and [3n/4] of the group sorted in ascending order and
    [IQR = Q3 - Q1].  In particular 3 delays are kept unfiltered and 4
    delays are filtered. *)
Theorem iqr_filter_per_group (log : list arrival_log_row)
    (delay_stats : gmap (string * string) (list Z)) (key : string * string) (delays : list Z) :
  collect_raw_delays log !! key = Some delays →
  let kept := parse_arrival_log log delay_stats !! key in
  let n := length delays in
  let filtered (s : list Z) :=
    let q1 := index s (n / 4) in
    let q3 := index s (3 * n / 4) in
    let iqr := q3 - q1 in
    filter (λ d, q1 - 3 * iqr ≤ d ≤ q3 + 3 * iqr) delays in
  ((n < 4)%nat → kept = Some delays) ∧
  ((4 ≤ n)%nat → ∀ s, Sorted Z.le s → s ≡ₚ delays → kept = Some (filtered s)) ∧
  (n = 3%nat → kept = Some delays) ∧
  (n = 4%nat → kept = Some (filtered (sorted_int delays))).
Proof.
  intros Hraw kept n filtered. subst kept. unfold parse_arrival_log.
  rewrite filter_all_groups_lookup, Hraw.
  assert (∀ s, (4 ≤ n)%nat → Sorted Z.le s → s ≡ₚ delays →
    filter_group delays = Some (filtered s)) as Hlarge.
  { intros s Hn Hs Hp. rewrite filter_group_large by done.
    f_equal. by apply filter_outliers_sorted_copy. }
  split_and!.
  - apply filter_group_small.
  - intros Hn s. by apply Hlarge.
  - intros Hn. apply filter_group_small. lia.
  - intros Hn. apply Hlarge; [lia|apply sorted_int_Sorted|apply sorted_int_Permutation].
Qed.

(** Scenario 3 of the specification: seven observed delays of one stop. *)
Definition scenario3_delays : list Z := [-30; 0; 60; 90; 120; 180; 3600].

Definition scenario3_log : list arrival_log_row :=
  map (λ d, {| log_trip_id := "T"; log_stop_id := "S"; log_delay_seconds := Some d |})
      scenario3_delays.

Lemma iqr_filter_per_group_witness :
  collect_raw_delays scenario3_log !! ("T", "S") = Some scenario3_delays ∧
  parse_arrival_log scenario3_log ∅ !! ("T", "S") = Some [-30; 0; 60; 90; 120; 180].
Proof.
  assert (collect_raw_delays scenario3_log !! ("T", "S") = Some scenario3_delays) as Hraw
    by (vm_compute; reflexivity).
  split; [exact Hraw|].
  destruct (iqr_filter_per_group scenario3_log ∅ _ _ Hraw) as (_ & Hlarge & _).
  rewrite (Hlarge ltac:(simpl; lia) (sorted_int scenario3_delays)
             (sorted_int_Sorted _) (sorted_int_Permutation _)).
  vm_compute. reflexivity.
Defined.

(** C9 fails as stated: filtering [0,0,0,0,0,0,10,41] drops 41 (bounds
    [-30, 40]), and filtering the result again drops 10 (the quartile
    samples of the seven survivors are both 0, so the bounds are [0, 0]). *)
Lemma iqr_filter_not_idempotent :
  ∃ delays once twice : list Z,
    filter_group delays = Some once ∧ filter_group once = Some twice ∧ twice ≠ once.
Proof.
  exists [0; 0; 0; 0; 0; 0; 10; 41], [0; 0; 0; 0; 0; 0; 10], [0; 0; 0; 0; 0; 0].
  split_and!; [by vm_compute|by vm_compute|discriminate].
Qed.

(** C9, amended.  The filter only removes samples, and filtering a
    filtered group again never adds or reorders samples: the result is a
    sub-sequence of the filtered group.  It is the filtered group unchanged
    when that group has fewer than 4 samples, and otherwise exactly when
    every sample of it lies within the bounds recomputed from the filtered
    group's own quartile samples. *)
Theorem iqr_filter_twice (delays once : list Z) :
  filter_group delays = Some once →
  sublist once delays ∧
  ∃ twice, filter_group once = Some twice ∧
    sublist twice once ∧
    ((length once < 4)%nat → twice = once) ∧
    ((4 ≤ length once)%nat →
       twice = once ↔
       ∀ d, d ∈ once →
         q1_of once - 3 * (q3_of once - q1_of once) ≤ d ≤
         q3_of once + 3 * (q3_of once - q1_of once)).
Proof.
  intros Honce. split.
  { destruct (decide (length delays < 4)%nat).
    - rewrite filter_group_small in Honce by done. by injection Honce as <-.
    - rewrite filter_group_large in Honce by lia. injection Honce as <-.
      apply sublist_filter. }
  destruct (decide (length once < 4)%nat) as [Hsmall|Hlarge].
  - exists once. rewrite filter_group_small by done. split_and!; [done..|lia].
  - exists (filter_outliers once). rewrite filter_group_large by lia.
    split_and!; [done|apply sublist_filter|lia|].
    intros _. unfold filter_outliers, IQR_MULTIPLIER. apply filter_id_iff.
Qed.

Lemma iqr_filter_twice_witness :
  filter_group scenario3_delays = Some [-30; 0; 60; 90; 120; 180] ∧
  filter_group [-30; 0; 60; 90; 120; 180] = Some [-30; 0; 60; 90; 120; 180].
Proof.
  assert (filter_group scenario3_delays = Some [-30; 0; 60; 90; 120; 180]) as Honce
    by (by vm_compute).
  split; [exact Honce|].
  destruct (iqr_filter_twice _ _ Honce) as (_ & twice & -> & _ & _ & Hiff).
  f_equal. apply Hiff; [simpl; lia|]. intros d Hd.
  change (q1_of [-30; 0; 60; 90; 120; 180]) with 0.
  change (q3_of [-30; 0; 60; 90; 120; 180]) with 120.
  rewrite !elem_of_cons, elem_of_nil in Hd.
  destruct Hd as [->|[->|[->|[->|[->|[->|[]]]]]]]; lia.
Defined.

(** *** Monotonic enforcement *)

(** Formatting a number of seconds and reading it back is the identity. *)
Lemma time_seconds_format (s : Z) : time_seconds (format_seconds s) = s.
Proof.
  unfold time_seconds, format_seconds. simpl.
  Z.to_euclidean_division_equations. lia.
Qed.

Lemma last_cons_from_option {A : Type} (d : option A) (x : A) (l : list A) :
  from_option Some d (last (x :: l)) = from_option Some (Some x) (last l).
Proof.
  destruct l as [|y l]; [done|]. change (last (x :: y :: l)) with (last (y :: l)).
  destruct (last (y :: l)) eqn:Hl; [done|]. by apply last_None in Hl.
Qed.

Lemma enforced_app (prev : option Z) (cs1 cs2 : list Z) :
  enforced prev (cs1 ++ cs2) =
  enforced prev cs1 ++ enforced (from_option Some prev (last (enforced prev cs1))) cs2.
Proof.
  revert prev. induction cs1 as [|c cs1 IH]; intros prev; simpl; [done|].
  f_equal. by rewrite IH, last_cons_from_option.
Qed.

Lemma enforce_gt (p c : Z) : p < enforce (Some p) c.
Proof. unfold enforce. case_decide; lia. Qed.

(** The enforced times are strictly increasing and above the previous one. *)
Lemma enforced_increasing (prev : option Z) (cands : list Z) :
  StronglySorted Z.lt (enforced prev cands) ∧
  ∀ p, prev = Some p → Forall (Z.lt p) (enforced prev cands).
Proof.
  revert prev. induction cands as [|c cands IH]; intros prev; simpl.
  { split; [constructor|by constructor]. }
  destruct (IH (Some (enforce prev c))) as [Hs Hlt].
  specialize (Hlt _ eq_refl). split.
  - by constructor.
  - intros p ->. constructor; [apply enforce_gt|].
    eapply Forall_impl; [done|]. intros x Hx. pose proof (enforce_gt p c). lia.
Qed.

Lemma enforced_nonneg (prev : option Z) (cands : list Z) :
  Forall (Z.le 0) cands → (∀ p, prev = Some p → 0 ≤ p) →
  Forall (Z.le 0) (enforced prev cands).
Proof.
  revert prev. induction cands as [|c cands IH]; intros prev Hc Hp; simpl; [constructor|].
  inversion_clear Hc as [|?? Hc0 Hcs].
  assert (0 ≤ enforce prev c) as He.
  { unfold enforce. destruct prev as [p|]; [|done].
    specialize (Hp p eq_refl). case_decide; lia. }
  constructor; [done|]. apply IH; [done|]. by intros ? [= <-].
Qed.

(** One iteration of the inner loop on a row that has an arrival time. *)
Lemma process_stop_timed delay_stats trip (data : list stop_time) prev i st a :
  data !! i = Some st → arrival_time st = Some a →
  ∃ t, time_seconds t = enforce prev (candidate_seconds delay_stats trip st a) ∧
    process_stop delay_stats trip (data, prev) i =
      (<[i := set_times st t]> data,
       Some (enforce prev (candidate_seconds delay_stats trip st a))).
Proof.
  intros Hi Ha. unfold process_stop. rewrite Hi, Ha.
  fold (candidate_seconds delay_stats trip st a).
  destruct prev as [p|]; simpl.
  - case_decide.
    + exists (format_seconds (p + 60)). by rewrite time_seconds_format.
    + eexists. split; [|done]. done.
  - eexists. split; [|done]. done.
Qed.

Lemma process_stop_untimed delay_stats trip (data : list stop_time) prev i :
  candidate_at delay_stats trip data i = None →
  process_stop delay_stats trip (data, prev) i = (data, prev).
Proof.
  unfold candidate_at, process_stop. intros Hc.
  destruct (data !! i) as [st|]; [|done]. simpl in Hc.
  by destruct (arrival_time st).
Qed.

Lemma omap_ext_elem_of {A B : Type} (f g : A → option B) (l : list A) :
  (∀ x, x ∈ l → f x = g x) → omap f l = omap g l.
Proof.
  induction l as [|x l IH]; intros Hfg; [done|]. csimpl.
  rewrite (Hfg x) by left. rewrite IH; [done|]. intros y Hy. apply Hfg. by right.
Qed.

Lemma candidate_at_None delay_stats trip (data : list stop_time) i :
  candidate_at delay_stats trip data i = None ↔ arrival_seconds data i = None.
Proof.
  unfold candidate_at, arrival_seconds.
  destruct (data !! i) as [st|]; simpl; [|done]. by destruct (arrival_time st).
Qed.

#[local] Arguments process_stop : simpl never.

Lemma arrival_seconds_insert_None (data : list stop_time) i st a t j :
  data !! i = Some st → arrival_time st = Some a →
  arrival_seconds (<[i := set_times st t]> data) j = None ↔ arrival_seconds data j = None.
Proof.
  intros Hst Ha. unfold arrival_seconds. destruct (decide (i = j)) as [<-|Hne].
  - rewrite list_lookup_insert_eq by (by eapply lookup_lt_Some).
    rewrite Hst. simpl. by rewrite Ha.
  - by rewrite list_lookup_insert_ne.
Qed.

(** The inner loop over the rows of one trip: rows elsewhere are left alone,
    a row has a time afterwards exactly if it had one before, and the times
    written are the candidates after enforcement. *)
Lemma process_stops_spec delay_stats trip (idxs : list nat) (data : list stop_time) prev :
  NoDup idxs →
  let out := (fold_left (process_stop delay_stats trip) idxs (data, prev)).1 in
  (∀ j, j ∉ idxs → out !! j = data !! j) ∧
  (∀ j, arrival_seconds out j = None ↔ arrival_seconds data j = None) ∧
  omap (arrival_seconds out) idxs =
    enforced prev (omap (candidate_at delay_stats trip data) idxs).
Proof.
  revert data prev. induction idxs as [|i idxs IH]; intros data prev Hnd; csimpl; [done|].
  apply NoDup_cons in Hnd as [Hi Hnd].
  destruct (candidate_at delay_stats trip data i) as [c|] eqn:Hc.
  - unfold candidate_at in Hc.
    destruct (data !! i) as [st|] eqn:Hst; simpl in Hc; [|done].
    destruct (arrival_time st) as [a|] eqn:Ha; simpl in Hc; [|done].
    injection Hc as <-.
    destruct (process_stop_timed delay_stats trip data prev i st a Hst Ha) as (t & Ht & ->).
    destruct (IH (<[i := set_times st t]> data)
                 (Some (enforce prev (candidate_seconds delay_stats trip st a))) Hnd)
      as (Hframe & Hnone & Htimes).
    split_and!.
    + intros j Hj. apply not_elem_of_cons in Hj as [Hji Hj].
      rewrite Hframe by done. by apply list_lookup_insert_ne.
    + intros j. rewrite Hnone. by eapply arrival_seconds_insert_None.
    + unfold arrival_seconds at 1. rewrite Hframe by done.
      rewrite list_lookup_insert_eq by (by eapply lookup_lt_Some). simpl.
      rewrite Ht, Htimes. do 2 f_equal. apply omap_ext_elem_of.
      intros j Hj. unfold candidate_at.
      rewrite list_lookup_insert_ne; [done|]. by intros ->.
  - rewrite process_stop_untimed by done.
    destruct (IH data prev Hnd) as (Hframe & Hnone & Htimes). split_and!.
    + intros j Hj. apply not_elem_of_cons in Hj as [_ Hj]. by apply Hframe.
    + done.
    + apply candidate_at_None in Hc. unfold arrival_seconds at 1.
      rewrite Hframe by done. fold (arrival_seconds data i). by rewrite Hc.
Qed.

(** The outer loop: the rows of a trip are touched by that trip's pass
    only, so each trip is enforced on its own candidates. *)
Lemma process_trips_frame delay_stats (trips : list (string * list nat))
    (data : list stop_time) j :
  (∀ tr, tr ∈ trips → NoDup tr.2 ∧ j ∉ tr.2) →
  fold_left (process_trip delay_stats) trips data !! j = data !! j.
Proof.
  revert data. induction trips as [|tr trips IH]; intros data Htr; simpl; [done|].
  rewrite IH by (intros; apply Htr; by right).
  destruct (Htr tr ltac:(left)) as [Hnd Hj].
  by apply (process_stops_spec delay_stats tr.1 tr.2 data None Hnd).
Qed.

Lemma process_trips_None delay_stats (trips : list (string * list nat))
    (data : list stop_time) j :
  (∀ tr, tr ∈ trips → NoDup tr.2) →
  arrival_seconds (fold_left (process_trip delay_stats) trips data) j = None ↔
  arrival_seconds data j = None.
Proof.
  revert data. induction trips as [|tr trips IH]; intros data Htr; simpl; [done|].
  rewrite IH by (intros; apply Htr; by right).
  by apply (process_stops_spec delay_stats tr.1 tr.2 data None), Htr; left.
Qed.

Lemma process_trips_spec (owner : nat → option string) delay_stats
    (trips : list (string * list nat)) :
  NoDup trips.*1 →
  (∀ t idxs, (t, idxs) ∈ trips → NoDup idxs ∧ ∀ i, i ∈ idxs → owner i = Some t) →
  ∀ (data : list stop_time) t idxs, (t, idxs) ∈ trips →
    omap (arrival_seconds (fold_left (process_trip delay_stats) trips data)) idxs =
    enforced None (omap (candidate_at delay_stats t data) idxs).
Proof.
  induction trips as [|[t0 idxs0] trips IH]; intros Hkeys Hown data t idxs Hin.
  { by apply elem_of_nil in Hin. }
  csimpl in Hkeys. apply NoDup_cons in Hkeys as [Ht0 Hkeys].
  assert (∀ t' idxs', (t', idxs') ∈ trips → t' ≠ t0) as Hne.
  { intros t' idxs' Hin' ->. apply Ht0. apply list_elem_of_fmap. by exists (t0, idxs'). }
  destruct (Hown t0 idxs0 ltac:(left)) as [Hnd0 Hown0].
  simpl. apply elem_of_cons in Hin as [[= -> ->]|Hin].
  - erewrite omap_ext_elem_of.
    + by apply (process_stops_spec delay_stats t0 idxs0 data None Hnd0).
    + intros i Hi. unfold arrival_seconds. rewrite process_trips_frame; [done|].
      intros [t' idxs'] Hin'. destruct (Hown t' idxs' ltac:(by right)) as [? Hown'].
      split; [done|]. simpl. intros Hi'. apply (Hne t' idxs' Hin').
      specialize (Hown0 i Hi). specialize (Hown' i Hi'). congruence.
  - rewrite (IH Hkeys) with (t := t);
      [|intros; apply Hown; by right|done].
    f_equal. apply omap_ext_elem_of. intros i Hi. unfold candidate_at.
    destruct (Hown t idxs ltac:(by right)) as [_ Hown'].
    assert (i ∉ idxs0) as Hi0.
    { intros Hi0. apply (Hne t idxs Hin).
      specialize (Hown0 i Hi0). specialize (Hown' i Hi). congruence. }
    unfold process_trip. simpl.
    by rewrite (proj1 (process_stops_spec delay_stats t0 idxs0 data None Hnd0) i Hi0).
Qed.

(** *** Grouping the rows by trip *)

(** The positions of the rows of trip [t] among the first [n] rows. *)
Definition positions_upto (data : list stop_time) (n : nat) (t : string) : list nat :=
  filter (λ i, trip_id <$> data !! i = Some t) (seq 0 n).

Lemma positions_upto_S (data : list stop_time) n t :
  positions_upto data (S n) t =
  positions_upto data n t ++ (if decide (trip_id <$> data !! n = Some t) then [n] else []).
Proof.
  unfold positions_upto. by rewrite seq_S, filter_app.
Qed.

Lemma group_by_trip_upto (data : list stop_time) (n : nat) :
  (n ≤ length data)%nat →
  ∃ d, fold_left group_step (take n data) ([], 0%nat) = (d, n) ∧ NoDup d.*1 ∧
    ∀ t, getitem d t =
         if decide (t ≠ "" ∧ positions_upto data n t ≠ [])
         then Some (positions_upto data n t) else None.
Proof.
  induction n as [|n IH]; intros Hn.
  - exists []. split_and!; [done|constructor|]. intros t. simpl.
    case_decide as H; [|done]. by destruct H.
  - destruct IH as (d & Hfold & Hnd & Hget); [lia|].
    destruct (lookup_lt_is_Some_2 data n ltac:(lia)) as [st Hst].
    rewrite (take_S_r _ _ _ Hst), fold_left_app, Hfold. simpl.
    eexists. split; [done|]. case_decide as Hid.
    + split; [done|]. intros t. rewrite Hget, positions_upto_S, Hst. simpl.
      destruct (decide (Some (trip_id st) = Some t)) as [[= <-]|_].
      * by rewrite !decide_False by (by intros [? _]).
      * by rewrite app_nil_r.
    + split; [by apply dict_append_NoDup|]. intros t.
      rewrite getitem_append, !Hget, positions_upto_S, Hst. simpl.
      destruct (decide (t = trip_id st)) as [->|Hne].
      * rewrite (decide_True (P := Some _ = Some _)) by done.
        rewrite (decide_True (P := _ ∧ _ ++ _ ≠ _)).
        2:{ split; [done|]. by intros [_ ?]%app_eq_nil. }
        do 2 f_equal. case_decide as Hd; [done|].
        destruct (positions_upto data n (trip_id st)); [done|]. by destruct Hd.
      * rewrite (decide_False (P := Some _ = Some _)) by congruence.
        by rewrite app_nil_r.
Qed.

Lemma group_by_trip_spec (data : list stop_time) :
  NoDup (group_by_trip data).*1 ∧
  ∀ t, getitem (group_by_trip data) t =
       if decide (t ≠ "" ∧ trip_positions data t ≠ [])
       then Some (trip_positions data t) else None.
Proof.
  destruct (group_by_trip_upto data (length data) ltac:(done)) as (d & Hfold & Hnd & Hget).
  rewrite firstn_all in Hfold. unfold group_by_trip. by rewrite Hfold.
Qed.

Lemma elem_of_trip_positions (data : list stop_time) t i :
  i ∈ trip_positions data t ↔ trip_id <$> data !! i = Some t.
Proof.
  unfold trip_positions. rewrite list_elem_of_filter, elem_of_seq. split; [tauto|].
  intros Hi. split; [done|]. destruct (data !! i) eqn:Hl; [|done].
  apply lookup_lt_Some in Hl. lia.
Qed.

Lemma sort_trips_spec (data : list stop_time) :
  let trips := sort_trips data (group_by_trip data) in
  NoDup trips.*1 ∧
  (∀ t idxs, (t, idxs) ∈ trips →
     NoDup idxs ∧ ∀ i, i ∈ idxs → trip_id <$> data !! i = Some t) ∧
  (∀ t, t ≠ "" → trip_positions data t ≠ [] → (t, stop_sequence_order data t) ∈ trips).
Proof.
  destruct (group_by_trip_spec data) as [Hnd Hget]. simpl. unfold sort_trips. split_and!.
  - by rewrite <-list_fmap_compose.
  - intros t idxs ([t' l] & [= -> ->] & Hin)%list_elem_of_fmap. simpl.
    apply elem_of_getitem in Hin; [|done]. rewrite Hget in Hin.
    case_decide; [|done]. injection Hin as <-. split.
    + apply NoDup_sorted. unfold trip_positions. apply NoDup_filter, NoDup_seq.
    + intros i. rewrite elem_of_sorted. apply elem_of_trip_positions.
  - intros t Ht Hpos. apply list_elem_of_fmap. exists (t, trip_positions data t).
    split; [done|]. apply getitem_elem_of. rewrite Hget. by rewrite decide_True.
Qed.

(** *** The realistic times of a trip *)

Lemma length_enforced (prev : option Z) (cands : list Z) :
  length (enforced prev cands) = length cands.
Proof. revert prev. induction cands; intros; simpl; [done|]. by f_equal. Qed.

Lemma enforce_ge (prev : option Z) (c : Z) : c ≤ enforce prev c.
Proof. unfold enforce. destruct prev; [case_decide|]; lia. Qed.

Lemma length_omap_None {A B C : Type} (f : A → option B) (g : A → option C) (l : list A) :
  (∀ x, f x = None ↔ g x = None) → length (omap f l) = length (omap g l).
Proof.
  intros Hfg. induction l as [|x l IH]; [done|]. csimpl. specialize (Hfg x).
  destruct (f x), (g x); simpl; [by f_equal| | |done]; destruct Hfg as [H1 H2];
    [by specialize (H2 eq_refl)|by specialize (H1 eq_refl)].
Qed.

Lemma omap_all_None {A B : Type} (f : A → option B) (l : list A) :
  (∀ x, x ∈ l → f x = None) → omap f l = [].
Proof.
  induction l as [|x l IH]; intros Hf; [done|]. csimpl.
  rewrite (Hf x) by left. apply IH. intros. apply Hf. by right.
Qed.

(** Two consecutive timed stops of an enforced sequence. *)
Lemma enforced_adjacent (f g : nat → option Z) (order l1 mid l2 : list nat) i j prev cj :
  (∀ x, f x = None ↔ g x = None) →
  omap f order = enforced None (omap g order) →
  order = l1 ++ i :: mid ++ j :: l2 →
  (∀ m, m ∈ mid → g m = None) →
  f i = Some prev → g j = Some cj →
  (∃ ci, g i = Some ci ∧ ci ≤ prev) ∧ f j = Some (enforce (Some prev) cj).
Proof.
  intros Hfg Heq -> Hmid Hi Hj.
  destruct (g i) as [ci|] eqn:Hgi; [|apply Hfg in Hgi; congruence].
  destruct (f j) as [oj|] eqn:Hfj; [|apply Hfg in Hfj; congruence].
  rewrite !omap_app in Heq. csimpl in Heq. rewrite !omap_app in Heq. csimpl in Heq.
  rewrite Hi, Hgi, Hj, Hfj in Heq.
  rewrite (omap_all_None g mid) in Heq by done.
  rewrite (omap_all_None f mid) in Heq by (intros; by apply Hfg, Hmid).
  simpl in Heq. rewrite enforced_app in Heq. simpl in Heq.
  apply app_inj_1 in Heq as [_ Heq].
  2:{ rewrite length_enforced. by apply length_omap_None. }
  injection Heq as -> -> _. split; [|done].
  exists ci. split; [done|]. apply enforce_ge.
Qed.

Lemma candidate_seconds_nonneg delay_stats trip st a :
  0 ≤ time_seconds a → 0 ≤ candidate_seconds delay_stats trip st a.
Proof.
  intros Ha. unfold candidate_seconds, adjust_gtfs_time.
  case_decide; [|done]. rewrite time_seconds_format. case_decide; lia.
Qed.

(** The candidate of the code is the scheduled time plus the delay, except
    that a negative sum is clamped to 0. *)
Lemma candidate_seconds_clamped delay_stats trip st a :
  let delayed := time_seconds a + calculate_average_delay delay_stats trip (stop_id st) in
  candidate_seconds delay_stats trip st a =
    if decide (calculate_average_delay delay_stats trip (stop_id st) ≠ 0 ∧ delayed < 0)
    then 0 else delayed.
Proof.
  simpl. unfold candidate_seconds, adjust_gtfs_time. case_decide as Hd.
  - rewrite time_seconds_format. repeat case_decide; lia.
  - rewrite decide_False by tauto. lia.
Qed.

(** The synthesiser rewrites the two time columns only. *)
Definition row_key (st : stop_time) : string * Z * string :=
  (trip_id st, stop_sequence st, stop_id st).

Lemma process_stop_keys delay_stats trip (data : list stop_time) prev i j :
  row_key <$> (process_stop delay_stats trip (data, prev) i).1 !! j = row_key <$> data !! j.
Proof.
  unfold process_stop. destruct (data !! i) as [st|] eqn:Hst; [|done].
  destruct (arrival_time st); [|done].
  match goal with |- context [let '(_, _) := ?x in _] => destruct x end. simpl.
  destruct (decide (i = j)) as [<-|Hne].
  - rewrite list_lookup_insert_eq by (by eapply lookup_lt_Some). by rewrite Hst.
  - by rewrite list_lookup_insert_ne.
Qed.

Lemma process_stop_length delay_stats trip (data : list stop_time) prev i :
  length (process_stop delay_stats trip (data, prev) i).1 = length data.
Proof.
  unfold process_stop. destruct (data !! i) as [st|]; [|done].
  destruct (arrival_time st); [|done].
  match goal with |- context [let '(_, _) := ?x in _] => destruct x end. simpl.
  apply length_insert.
Qed.

Lemma process_trip_keys delay_stats (data : list stop_time) trip :
  length (process_trip delay_stats data trip) = length data ∧
  ∀ j, row_key <$> process_trip delay_stats data trip !! j = row_key <$> data !! j.
Proof.
  unfold process_trip. generalize (@None Z) as prev. revert data.
  induction trip.2 as [|i idxs IH]; intros data prev; simpl; [done|].
  destruct (process_stop delay_stats trip.1 (data, prev) i) as [data1 prev1] eqn:Hstep.
  destruct (IH data1 prev1) as [Hlen Hkeys].
  pose proof (process_stop_length delay_stats trip.1 data prev i) as Hlen1.
  pose proof (process_stop_keys delay_stats trip.1 data prev i) as Hkeys1.
  rewrite Hstep in Hlen1, Hkeys1. simpl in *. split; [congruence|].
  intros j. by rewrite Hkeys, Hkeys1.
Qed.

Lemma process_trips_keys delay_stats (trips : list (string * list nat))
    (data : list stop_time) :
  let out := fold_left (process_trip delay_stats) trips data in
  length out = length data ∧ ∀ j, row_key <$> out !! j = row_key <$> data !! j.
Proof.
  revert data. induction trips as [|trip trips IH]; intros data; simpl; [done|].
  destruct (IH (process_trip delay_stats data trip)) as [Hlen Hkeys].
  destruct (process_trip_keys delay_stats data trip) as [Hlen1 Hkeys1].
  split; [congruence|]. intros j. by rewrite Hkeys, Hkeys1.
Qed.

Lemma sorted_ext {A K : Type} (le : relation K) `{!RelDecision le} (key1 key2 : A → K)
    (l : list A) :
  (∀ x, key1 x = key2 x) → sorted le key1 l = sorted le key2 l.
Proof.
  intros Hkey. induction l as [|x l IH]; simpl; [done|]. rewrite IH.
  generalize (sorted le key2 l) as s. intros s.
  induction s as [|y s IHs]; simpl; [done|]. by rewrite !Hkey, IHs.
Qed.

(** The stop-sequence order of a trip is the same before and after. *)
Lemma stop_sequence_order_calculate delay_stats (data : list stop_time) t :
  stop_sequence_order (calculate_realistic_stop_times delay_stats data) t =
  stop_sequence_order data t.
Proof.
  destruct (process_trips_keys delay_stats (sort_trips data (group_by_trip data)) data)
    as [Hlen Hkeys].
  fold (calculate_realistic_stop_times delay_stats data) in Hlen, Hkeys.
  set (out := calculate_realistic_stop_times delay_stats data) in *.
  assert (∀ j, trip_id <$> out !! j = trip_id <$> data !! j) as Htrip.
  { intros j. specialize (Hkeys j). unfold row_key in Hkeys.
    destruct (out !! j), (data !! j); simpl in *; congruence. }
  assert (∀ j, sequence_at out j = sequence_at data j) as Hseq.
  { intros j. specialize (Hkeys j). unfold sequence_at. unfold row_key in Hkeys.
    destruct (out !! j), (data !! j); simpl in *; congruence. }
  unfold stop_sequence_order, trip_positions. rewrite Hlen.
  rewrite (sorted_ext Z.le _ _ _ Hseq). f_equal.
  apply list_filter_iff. intros j. by rewrite Htrip.
Qed.

(** The times written for a trip are its candidates after enforcement. *)
Lemma calculate_enforced delay_stats (data : list stop_time) t :
  t ≠ "" →
  let out := calculate_realistic_stop_times delay_stats data in
  let order := stop_sequence_order data t in
  omap (arrival_seconds out) order =
  enforced None (omap (candidate_at delay_stats t data) order).
Proof.
  intros Ht. simpl. destruct (sort_trips_spec data) as (Hkeys & Hmem & Hall).
  destruct (decide (trip_positions data t = [])) as [Hnil|Hpos].
  - unfold stop_sequence_order. by rewrite Hnil.
  - unfold calculate_realistic_stop_times.
    by apply (process_trips_spec (λ i, trip_id <$> data !! i)); [..|apply Hall].
Qed.

Lemma calculate_None delay_stats (data : list stop_time) j :
  arrival_seconds (calculate_realistic_stop_times delay_stats data) j = None ↔
  arrival_seconds data j = None.
Proof.
  apply process_trips_None. intros [t idxs] Hin.
  by apply (sort_trips_spec data) in Hin as [? _].
Qed.

Lemma StronglySorted_lt_le (l : list Z) : StronglySorted Z.lt l → StronglySorted Z.le l.
Proof.
  induction 1 as [|x l Hl IH Hx]; constructor; [done|].
  eapply Forall_impl; [done|]. intros; lia.
Qed.

(** C1.  For every trip the synthesiser processes (every non-empty trip
    id), the arrival times written, read in stop-sequence order over the
    rows that have a time, are non-decreasing, and indeed strictly
    increasing.  Whenever a stop's candidate (scheduled time plus
    representative delay) is at most the realistic time of the previous
    timed stop of the trip, the time written for it is that previous time
    plus 60 seconds.  Scheduled times are times of day, hence not negative. *)
Theorem realistic_times_monotonic (delay_stats : gmap (string * string) (list Z))
    (data : list stop_time) (t : string) :
  t ≠ "" →
  (∀ st a, st ∈ data → arrival_time st = Some a → 0 ≤ time_seconds a) →
  let out := calculate_realistic_stop_times delay_stats data in
  let order := stop_sequence_order out t in
  let times := omap (arrival_seconds out) order in
  StronglySorted Z.le times ∧
  StronglySorted Z.lt times ∧
  ∀ l1 i mid j l2 st a prev,
    order = l1 ++ i :: mid ++ j :: l2 →
    (∀ m, m ∈ mid → arrival_seconds out m = None) →
    data !! j = Some st → arrival_time st = Some a →
    arrival_seconds out i = Some prev →
    time_seconds a + calculate_average_delay delay_stats t (stop_id st) ≤ prev →
    arrival_seconds out j = Some (prev + 60).
Proof.
  intros Ht Hsched out order times. subst order times.
  pose proof (stop_sequence_order_calculate delay_stats data t) as Hord.
  fold out in Hord. rewrite Hord. clear Hord.
  pose proof (calculate_enforced delay_stats data t Ht) as Henf. simpl in Henf.
  fold out in Henf.
  assert (StronglySorted Z.lt (omap (arrival_seconds out) (stop_sequence_order data t)))
    as Hlt by (rewrite Henf; apply enforced_increasing).
  split_and!; [by apply StronglySorted_lt_le|done|].
  intros l1 i mid j l2 st a prev Horder Hmid Hst Ha Hprev Hle.
  assert (candidate_at delay_stats t data j = Some (candidate_seconds delay_stats t st a))
    as Hcj by (unfold candidate_at; rewrite Hst; simpl; by rewrite Ha).
  destruct (enforced_adjacent (arrival_seconds out) (candidate_at delay_stats t data)
              (stop_sequence_order data t) l1 mid l2 i j prev
              (candidate_seconds delay_stats t st a)) as [(ci & Hci & Hcip) ->]; try done.
  - intros x. unfold out. rewrite calculate_None. symmetry. apply candidate_at_None.
  - intros m Hm. apply candidate_at_None.
    apply (proj1 (calculate_None delay_stats data m)). by apply Hmid.
  - f_equal. unfold enforce. rewrite decide_True; [done|].
    assert (0 ≤ ci) as Hci0.
    { unfold candidate_at in Hci. destruct (data !! i) as [sti|] eqn:Hsti; [|done].
      simpl in Hci. destruct (arrival_time sti) as [ai|] eqn:Hai; [|done].
      injection Hci as <-. apply candidate_seconds_nonneg.
      eapply Hsched; [|done]. by eapply list_elem_of_lookup_2. }
    rewrite candidate_seconds_clamped. simpl. case_decide; lia.
Qed.

(** Scenario 4 of the specification: scheduled 10:00, 10:01, 10:02 with
    delays +0, +120, -60 gives 10:00, 10:03, 10:04. *)
Definition scenario4_data : list stop_time :=
  [ {| trip_id := "T"; stop_sequence := 1; stop_id := "A";
       arrival_time := Some {| hours := 10; minutes := 0; seconds := 0 |};
       departure_time := Some {| hours := 10; minutes := 0; seconds := 0 |} |};
    {| trip_id := "T"; stop_sequence := 2; stop_id := "B";
       arrival_time := Some {| hours := 10; minutes := 1; seconds := 0 |};
       departure_time := Some {| hours := 10; minutes := 1; seconds := 0 |} |};
    {| trip_id := "T"; stop_sequence := 3; stop_id := "C";
       arrival_time := Some {| hours := 10; minutes := 2; seconds := 0 |};
       departure_time := Some {| hours := 10; minutes := 2; seconds := 0 |} |} ].

Definition scenario4_stats : gmap (string * string) (list Z) :=
  {[ ("T", "B") := [120]; ("T", "C") := [-60] ]}.

Lemma realistic_times_monotonic_witness :
  let out := calculate_realistic_stop_times scenario4_stats scenario4_data in
  omap (arrival_seconds out) (stop_sequence_order out "T") = [36000; 36180; 36240] ∧
  StronglySorted Z.lt (omap (arrival_seconds out) (stop_sequence_order out "T")) ∧
  arrival_seconds out 2 = Some (36180 + 60).
Proof.
  assert (∀ st a, st ∈ scenario4_data → arrival_time st = Some a → 0 ≤ time_seconds a)
    as Hsched.
  { intros st a Hin. unfold scenario4_data in Hin.
    rewrite !elem_of_cons, elem_of_nil in Hin.
    destruct Hin as [->|[->|[->|[]]]]; intros [= <-]; by vm_compute. }
  destruct (realistic_times_monotonic scenario4_stats scenario4_data "T" ltac:(done) Hsched)
    as (_ & Hlt & Hadj).
  split; [by vm_compute|]. split; [exact Hlt|].
  eapply (Hadj [0%nat] 1%nat [] 2%nat []); [by vm_compute|by intros ? ?%elem_of_nil|
    by vm_compute|by vm_compute|by vm_compute|by vm_compute].
Defined.

End RealisticStopTimesFacts.

(** ** Great-circle distance *)

Module GeoFacts.
Import Geo.
#[local] Open Scope R_scope.

Lemma atan2_0_1 : atan2 0 1 = 0.
Proof.
  unfold atan2. rewrite decide_True by lra.
  replace (0 / 1) with 0 by lra. apply atan_0.
Qed.

(** With no angle between the two points the distance is 0. *)
Lemma haversine_zero_angle (lat1 lon1 lat2 lon2 : R) :
  sin (radians (lat2 - lat1) / 2) = 0 →
  cos (radians lat1) * cos (radians lat2) * sin (radians (lon2 - lon1) / 2) ^ 2 = 0 →
  haversine lat1 lon1 lat2 lon2 = 0.
Proof.
  intros Hlat Hlon. unfold haversine. rewrite Hlat, Hlon.
  replace (0 ^ 2 + 0) with 0 by lra. rewrite sqrt_0.
  replace (1 - 0) with 1 by lra. rewrite sqrt_1, atan2_0_1. lra.
Qed.

Lemma haversine_same (lat lon : R) : haversine lat lon lat lon = 0.
Proof.
  assert (∀ x, sin (radians (x - x) / 2) = 0) as Hsin.
  { intros x. unfold radians. replace ((x - x) * PI / 180 / 2) with 0 by lra. apply sin_0. }
  apply haversine_zero_angle; [done|]. rewrite Hsin. lra.
Qed.

Lemma haversine_sym (lat1 lon1 lat2 lon2 : R) :
  haversine lat1 lon1 lat2 lon2 = haversine lat2 lon2 lat1 lon1.
Proof.
  unfold haversine.
  assert (∀ x y, sin (radians (x - y) / 2) ^ 2 = sin (radians (y - x) / 2) ^ 2) as Hsin.
  { intros x y. replace (radians (x - y) / 2) with (- (radians (y - x) / 2))
      by (unfold radians; lra).
    rewrite sin_neg. ring. }
  rewrite (Hsin lat2 lat1), (Hsin lon2 lon1).
  by rewrite (Rmult_comm (cos (radians lat1))).
Qed.

Lemma atan2_nonneg (y x : R) : 0 <= y → 0 <= x → 0 <= atan2 y x.
Proof.
  intros Hy Hx. unfold atan2. pose proof PI_RGT_0.
  repeat case_decide; try lra.
  assert (0 <= y / x) as Hq.
  { unfold Rdiv. apply Rmult_le_pos; [done|]. left. by apply Rinv_0_lt_compat. }
  destruct Hq as [Hq|<-]; [|rewrite atan_0; lra].
  apply atan_increasing in Hq. rewrite atan_0 in Hq. lra.
Qed.

Lemma haversine_nonneg (lat1 lon1 lat2 lon2 : R) : 0 <= haversine lat1 lon1 lat2 lon2.
Proof.
  unfold haversine.
  pose proof (atan2_nonneg _ _ (sqrt_pos (sin (radians (lat2 - lat1) / 2) ^ 2 +
    cos (radians lat1) * cos (radians lat2) * sin (radians (lon2 - lon1) / 2) ^ 2))
    (sqrt_pos (1 - (sin (radians (lat2 - lat1) / 2) ^ 2 +
    cos (radians lat1) * cos (radians lat2) * sin (radians (lon2 - lon1) / 2) ^ 2)))).
  lra.
Qed.

(** From a point of the equator to the opposite point: half the
    circumference. *)
Lemma haversine_antipode : haversine 0 0 0 180 = 6371000 * PI.
Proof.
  unfold haversine, radians.
  replace ((0 - 0) * PI / 180 / 2) with 0 by lra.
  replace ((180 - 0) * PI / 180 / 2) with (PI / 2) by lra.
  replace (0 * PI / 180) with 0 by lra.
  rewrite sin_0, cos_0, sin_PI2.
  replace (0 ^ 2 + 1 * 1 * 1 ^ 2) with 1 by lra.
  replace (1 - 1) with 0 by lra. rewrite sqrt_1, sqrt_0.
  unfold atan2. rewrite decide_False by lra. rewrite decide_False by lra.
  rewrite decide_True by lra. lra.
Qed.

(** [int] of a non-negative float is its floor. *)
Lemma int_of_float_floor (x : R) : 0 <= x → int_of_float x = Int_part x.
Proof. intros. unfold int_of_float. by rewrite decide_True. Qed.

End GeoFacts.

(** ** The arrival observer *)

Module ArrivalLoggerFacts.
Import Py Geo GeoFacts ArrivalLogger.
#[local] Open Scope Z_scope.

(** *** The latest-arrival cache *)

(** An entry whose vehicle was last seen at instant 0. *)
Definition sample_entry : cache_entry :=
  {| entry_arrival :=
       {| arr_stop_id := "S"; arr_stop_name := "Stop"; arr_stop_sequence := "1";
          arr_timestamp := 0; arr_delay_seconds := Some 0; arr_route_id := Some "R";
          arr_trip_id := "T" |};
     last_seen := 0 |}.

Definition sample_logger : logger :=
  {| vehicle_arrivals := {[ "T" := {[ "S" ]} ]};
     vehicle_latest_arrival := {[ "T" := sample_entry ]};
     arrival_log := [] |}.

(** C6 fails as stated at the boundary: an entry of age exactly 60.0 s is
    returned, and nothing is evicted. *)
Lemma cache_entry_present_at_ttl :
  get_latest_arrival "T" (60 * MICROSECONDS) sample_logger =
    (Some (entry_arrival sample_entry), sample_logger).
Proof. reflexivity. Qed.

(** C6, amended.  A read of a cached entry returns it iff its age is at
    most 60 seconds: up to and including 60.0 s (so also at 59.9 s) the
    entry is returned and the state is left as it is; at any greater age
    the read returns nothing and removes the trip from both the cache and
    the table of observed stops. *)
Theorem latest_arrival_ttl (self : logger) (trip_id : string) (entry : cache_entry) (now : Z) :
  vehicle_latest_arrival self !! trip_id = Some entry →
  let age := now - last_seen entry in
  let answer := get_latest_arrival trip_id now self in
  (answer.1 = Some (entry_arrival entry) ↔ age ≤ 60 * MICROSECONDS) ∧
  (age ≤ 60 * MICROSECONDS → answer = (Some (entry_arrival entry), self)) ∧
  (age > 60 * MICROSECONDS →
     answer.1 = None ∧
     vehicle_latest_arrival answer.2 = delete trip_id (vehicle_latest_arrival self) ∧
     vehicle_arrivals answer.2 = delete trip_id (vehicle_arrivals self) ∧
     arrival_log answer.2 = arrival_log self) ∧
  (age = 59900000 → answer.1 = Some (entry_arrival entry)) ∧
  (age = 60000000 → answer.1 = Some (entry_arrival entry)).
Proof.
  intros Hentry age answer. subst answer. unfold get_latest_arrival.
  rewrite Hentry. fold age. unfold CACHE_TTL_SECONDS, MICROSECONDS in *.
  case_decide as Hage; simpl.
  - split_and!; [split; [done|lia]|lia|done|lia|lia].
  - split_and!; [split; [lia|done]|done|lia|done|done].
Qed.

Lemma latest_arrival_ttl_witness :
  vehicle_latest_arrival sample_logger !! "T" = Some sample_entry ∧
  (get_latest_arrival "T" 59900000 sample_logger).1 = Some (entry_arrival sample_entry) ∧
  (get_latest_arrival "T" 60000001 sample_logger).1 = None.
Proof.
  assert (vehicle_latest_arrival sample_logger !! "T" = Some sample_entry) as Hentry
    by reflexivity.
  split; [exact Hentry|]. split.
  - destruct (latest_arrival_ttl sample_logger "T" sample_entry 59900000 Hentry)
      as (_ & _ & _ & Hyoung & _).
    by apply Hyoung.
  - destruct (latest_arrival_ttl sample_logger "T" sample_entry 60000001 Hentry)
      as (_ & _ & Hold & _).
    by apply Hold.
Defined.

(** *** One record per observed stop *)

(** [extends s0 s]: from [s0] to [s] the observed sets have only grown and
    the log has only been appended to, with at most one new record per
    (trip, stop), and that for a stop not observed at [s0] and observed at
    [s]. *)
Definition extends (s0 s : logger) : Prop :=
  (∀ trip, observed s0 trip ⊆ observed s trip) ∧
  ∃ new, arrival_log s = arrival_log s0 ++ new ∧
    ∀ trip stop,
      (length (records_of trip stop new) ≤ 1)%nat ∧
      (records_of trip stop new ≠ [] → (stop ∉ observed s0 trip) ∧ (stop ∈ observed s trip)).

Lemma records_of_app trip stop (l1 l2 : list log_record) :
  records_of trip stop (l1 ++ l2) = records_of trip stop l1 ++ records_of trip stop l2.
Proof. apply filter_app. Qed.

Lemma extends_refl (s : logger) : extends s s.
Proof.
  split; [done|]. exists []. split; [by rewrite app_nil_r|].
  intros trip stop. split; [simpl; lia|done].
Qed.

Lemma extends_trans (s0 s1 s2 : logger) : extends s0 s1 → extends s1 s2 → extends s0 s2.
Proof.
  intros [Hsub1 (new1 & Hlog1 & Hnew1)] [Hsub2 (new2 & Hlog2 & Hnew2)]. split.
  - intros trip. etrans; [apply Hsub1|apply Hsub2].
  - exists (new1 ++ new2). split; [by rewrite Hlog2, Hlog1, app_assoc|].
    intros trip stop. rewrite records_of_app.
    destruct (Hnew1 trip stop) as [Hlen1 Hin1], (Hnew2 trip stop) as [Hlen2 Hin2].
    destruct (records_of trip stop new1) as [|r1 l1] eqn:H1;
      destruct (records_of trip stop new2) as [|r2 l2] eqn:H2; simpl in *.
    + split; [lia|done].
    + split; [done|]. intros _. destruct Hin2 as [Hout Hin]; [done|]. split; [|done].
      intros Hin0. by apply Hout, Hsub1.
    + rewrite app_nil_r. split; [done|]. intros _.
      destruct Hin1 as [Hout Hin]; [done|]. split; [done|]. by apply Hsub2.
    + destruct Hin1 as [_ Hin]; [done|]. destruct Hin2 as [Hout _]; [done|]. done.
Qed.

Lemma check_stop_extends static now trip_id route_id lat lon self info :
  extends self (check_stop static now trip_id route_id lat lon self info).
Proof.
  unfold check_stop. case_decide; [apply extends_refl|].
  destruct (stops static !! info_stop_id info) as [stop|]; [|apply extends_refl].
  case_decide; [apply extends_refl|]. unfold record_arrival. case_decide as Hseen.
  - split; simpl.
    + intros trip. unfold observed. simpl.
      destruct (decide (trip = trip_id)) as [->|Hne].
      * by rewrite lookup_insert_eq.
      * by rewrite lookup_insert_ne.
    + exists []. split; [by rewrite app_nil_r|]. intros. split; [simpl; lia|done].
  - split; simpl.
    + intros trip. unfold observed. simpl.
      destruct (decide (trip = trip_id)) as [->|Hne].
      * rewrite lookup_insert_eq. simpl. set_solver.
      * by rewrite lookup_insert_ne.
    + eexists. split; [done|]. intros t st. unfold records_of.
      rewrite filter_cons, filter_nil. simpl. case_decide as Hrec; [|split; [simpl; lia|done]].
      destruct Hrec as [<- <-]. split; [done|]. intros _. split; [done|].
      unfold observed. simpl. rewrite lookup_insert_eq. simpl. set_solver.
Qed.

Lemma check_stops_extends static now trip_id route_id lat lon (infos : list stop_info)
    (s0 s : logger) :
  extends s0 s →
  extends s0 (fold_left (check_stop static now trip_id route_id lat lon) infos s).
Proof.
  revert s. induction infos as [|info infos IH]; intros s Hs; simpl; [done|].
  apply IH. eapply extends_trans; [done|apply check_stop_extends].
Qed.

Lemma check_entity_extends static now self trips entity :
  extends self (check_entity static now (self, trips) entity).1.
Proof.
  unfold check_entity. destruct (has_vehicle_position entity); simpl; [|apply extends_refl].
  destruct (entity_trip_id entity) as [trip_id|]; [|apply extends_refl].
  case_decide; [apply extends_refl|].
  destruct (trip_stops static !! trip_id) as [infos|]; [|apply extends_refl]. simpl.
  apply check_stops_extends, extends_refl.
Qed.

Lemma check_entities_extends static now (entities : list feed_entity) (s0 : logger) acc :
  extends s0 acc.1 →
  extends s0 (fold_left (check_entity static now) entities acc).1.
Proof.
  revert acc. induction entities as [|entity entities IH]; intros [s trips] Hs; simpl; [done|].
  apply IH. eapply extends_trans; [done|apply check_entity_extends].
Qed.

(** A tick of the polling loop never removes an observed stop and logs a
    (trip, stop) pair at most once, and only if it was not yet observed. *)
Lemma poll_once_extends static feed now self : extends self (poll_once static feed now self).
Proof.
  unfold poll_once. destruct feed as [entities|]; [|apply extends_refl].
  pose proof (check_entities_extends static now entities self (self, []) (extends_refl _))
    as Hext.
  destruct (fold_left (check_entity static now) entities (self, [])) as [s trips].
  apply Hext.
Qed.

Lemma step_extends static self op : ¬ evicts self op → extends self (step static self op).
Proof.
  destruct op as [feed now|trip_id now]; simpl; intros Hev.
  - apply poll_once_extends.
  - unfold get_latest_arrival.
    destruct (vehicle_latest_arrival self !! trip_id) as [entry|] eqn:Hentry;
      [|apply extends_refl].
    case_decide; [|apply extends_refl]. destruct Hev. by exists entry.
Qed.

Lemma run_extends static (ops : list operation) (self : logger) :
  no_eviction static ops self → extends self (run static ops self).
Proof.
  unfold run. revert self. induction ops as [|op ops IH]; intros self; simpl.
  - intros _. apply extends_refl.
  - intros [Hev Hrest]. eapply extends_trans; [by apply step_extends|by apply IH].
Qed.

(** C5, amended.  From any state of the observer and over any sequence of
    polling ticks and cache reads in which no read evicts (finds an entry
    older than 60 s), at most one record is appended to the arrivals log
    for every pair (trip, stop), none for a stop already in the trip's
    observed set, and the per-trip sets of observed stops only grow. *)
Theorem one_record_between_evictions (static : gtfs_static) (ops : list operation)
    (self : logger) :
  no_eviction static ops self →
  let self' := run static ops self in
  (∀ trip, observed self trip ⊆ observed self' trip) ∧
  ∃ new, arrival_log self' = arrival_log self ++ new ∧
    ∀ trip stop,
      (length (records_of trip stop new) ≤ 1)%nat ∧
      (stop ∈ observed self trip → records_of trip stop new = []).
Proof.
  intros Hev. destruct (run_extends static ops self Hev) as [Hsub (new & Hlog & Hnew)].
  split; [done|]. exists new. split; [done|]. intros trip stop.
  destruct (Hnew trip stop) as [Hlen Hin]. split; [done|]. intros Hseen.
  destruct (records_of trip stop new) eqn:Hrec; [done|].
  by destruct Hin as [Hout _].
Qed.

(** One trip with one stop, and a feed that reports the trip's vehicle at
    the coordinates of that stop. *)
Definition sample_info : stop_info :=
  {| info_stop_id := "S"; info_arrival_time := Some (10, 0, 0); info_stop_sequence := "1" |}.

Definition sample_static : gtfs_static :=
  {| stops := {[ "S" := {| stop_name := "Stop"; stop_lat := 0; stop_lon := 0 |} ]};
     trip_stops := {[ "T" := [sample_info] ]} |}.

Definition sample_feed : option (list feed_entity) :=
  Some [ {| has_vehicle_position := true; entity_trip_id := Some "T";
            entity_route_id := Some "R"; latitude := 0; longitude := 0 |} ].

Lemma poll_sample (now : Z) (self : logger) :
  poll_once sample_static sample_feed now self =
  let self1 := record_arrival now "T" (Some "R") "S" "Stop" sample_info self in
  {| vehicle_arrivals := vehicle_arrivals self1;
     vehicle_latest_arrival := touch now (vehicle_latest_arrival self1) "T";
     arrival_log := arrival_log self1 |}.
Proof.
  unfold poll_once, sample_feed. simpl fold_left. unfold check_entity. simpl.
  rewrite lookup_singleton_eq. simpl. unfold check_stop. simpl.
  rewrite lookup_singleton_eq. simpl.
  rewrite haversine_same. rewrite decide_False; [done|].
  unfold DISTANCE_THRESHOLD_M. lra.
Qed.

(** C5 fails as stated: a vehicle is observed at a stop, a cache read 61 s
    later evicts the trip's entry together with its set of observed stops,
    and at the next tick the same (trip, stop) is recorded a second time. *)
Lemma record_repeated_after_eviction :
  ("S" ∈ observed (run sample_static [Poll sample_feed 0] initial) "T") ∧
  ("S" ∉ observed (run sample_static [Poll sample_feed 0; Read "T" 61000000] initial) "T") ∧
  length (records_of "T" "S" (arrival_log
    (run sample_static [Poll sample_feed 0; Read "T" 61000000; Poll sample_feed 62000000]
       initial))) = 2%nat.
Proof.
  unfold run. cbn [fold_left step]. rewrite !poll_sample. split_and!.
  - by vm_compute.
  - by vm_compute.
  - by vm_compute.
Qed.

Lemma one_record_between_evictions_witness :
  no_eviction sample_static
    [Poll sample_feed 0; Read "T" 30000000; Poll sample_feed 35000000] initial ∧
  (length (records_of "T" "S" (arrival_log
     (run sample_static [Poll sample_feed 0; Read "T" 30000000; Poll sample_feed 35000000]
        initial))) ≤ 1)%nat.
Proof.
  assert (no_eviction sample_static
    [Poll sample_feed 0; Read "T" 30000000; Poll sample_feed 35000000] initial) as Hev.
  { cbn [no_eviction step evicts]. split_and!; try tauto.
    rewrite poll_sample. intros (entry & Hentry & Hage).
    vm_compute in Hentry. injection Hentry as <-. by vm_compute in Hage. }
  split; [exact Hev|].
  destruct (one_record_between_evictions sample_static _ initial Hev)
    as [_ (new & -> & Hnew)].
  apply Hnew.
Defined.

End ArrivalLoggerFacts.

(** ** The RAPTOR engine *)

Module RaptorFacts.
Import Py PyFacts Geo GeoFacts Raptor.
#[local] Open Scope Z_scope.

(** *** Itineraries with the same transit legs *)

Lemma choose_spec (group : list result) :
  group ≠ [] →
  ∃ r pre post, choose group = Some r ∧ group = pre ++ r :: post ∧
    (∀ r', r' ∈ pre → first_walk_duration r < first_walk_duration r') ∧
    (∀ r', r' ∈ group → first_walk_duration r ≤ first_walk_duration r').
Proof.
  destruct group as [|r group]; [done|]. intros _. simpl.
  destruct (min_by_first Z.le first_walk_duration r group) as (pre & post & Heq & Hpre).
  exists (min_by Z.le first_walk_duration r group), pre, post. split_and!; [done..| |].
  - intros r' Hr'. apply Hpre in Hr'. lia.
  - intros r' Hr'. by apply (min_by_le Z.le first_walk_duration).
Qed.

(** The groups of [_filter_duplicate_routes_different_walk]. *)
Lemma transit_groups_spec (results : list result) :
  let groups :=
    fold_left (λ groups r, dict_append groups (get_transit_signature (legs r)) r) results [] in
  NoDup groups.*1 ∧
  ∀ sig group, (sig, group) ∈ groups ↔
    group ≠ [] ∧ group = filter (λ r, get_transit_signature (legs r) = sig) results.
Proof.
  destruct (group_spec (λ r, get_transit_signature (legs r)) results) as [Hnd Hget].
  simpl. split; [done|]. intros sig group. split.
  - intros Hin%elem_of_getitem; [|done]. rewrite Hget in Hin.
    case_decide; [done|]. by injection Hin as <-.
  - intros [Hne ->]. apply getitem_elem_of. rewrite Hget. by rewrite decide_False.
Qed.

(** C4.  The key of the filter against the walking time of the itinerary.
    The query from (1, 1) to (0, 0.0066) at 9:55:00, on the timetable with the
    stops A (1, 1), B (0, 0), C1 (0.0015, 0.0026) and C2 (0, 0.004) and one
    trip of route R1 from A at 10:00:00 to B at 10:10:00, has two
    candidates.  Both walk 0 s to A and ride to B; the first walks on by
    C1 (238 s and 339 s), the second by C2 (317 s and 206 s); distances
    are given to the metre.  The transit signatures are equal and so are
    the keys, the duration of the walk to A: the first candidate is kept,
    with 577 s of walking, and the second, with 523 s, is dropped. *)
Lemma first_candidate_kept :
  let origin := {| place_lat := 1; place_lon := 1; place_stop := None |} in
  let dest := {| place_lat := 0; place_lon := 0.0066; place_stop := None |} in
  let a := {| place_lat := 1; place_lon := 1; place_stop := Some ("A", "A") |} in
  let b := {| place_lat := 0; place_lon := 0; place_stop := Some ("B", "B") |} in
  let c1 := {| place_lat := 0.0015; place_lon := 0.0026; place_stop := Some ("C1", "C1") |} in
  let c2 := {| place_lat := 0; place_lon := 0.004; place_stop := Some ("C2", "C2") |} in
  let ride := Transit "R1" "T" "A" "B" "A" "B" (10, 0, 0) (10, 10, 0) in
  let via_c1 :=
    {| dest_stop := "C1"; total_time := 36838 - 35700 + 339; transfer_count := 1;
       legs := merge_consecutive_walk_legs
                 [Walk origin a 0 0; ride; Walk b c1 (238 * WALKING_SPEED_MS) 238;
                  Walk c1 dest 475 339] |} in
  let via_c2 :=
    {| dest_stop := "C2"; total_time := 36917 - 35700 + 206; transfer_count := 1;
       legs := merge_consecutive_walk_legs
                 [Walk origin a 0 0; ride; Walk b c2 (317 * WALKING_SPEED_MS) 317;
                  Walk c2 dest 289 206] |} in
  get_transit_signature (legs via_c1) = get_transit_signature (legs via_c2) ∧
  first_walk_duration via_c1 = first_walk_duration via_c2 ∧
  total_walking_time via_c1 = 577 ∧
  total_walking_time via_c2 = 523 ∧
  finish [via_c1; via_c2] = [clean via_c1].
Proof. split_and!; by vm_compute. Qed.

Lemma chosen_signatures (groups : list (list (string * string * string) * list result)) :
  (∀ sig group, (sig, group) ∈ groups →
     group ≠ [] ∧ ∀ r, r ∈ group → get_transit_signature (legs r) = sig) →
  (λ r, get_transit_signature (legs r)) <$> omap (λ g, choose g.2) groups = groups.*1.
Proof.
  induction groups as [|[sig group] groups IH]; intros Hgroups; [done|]. csimpl.
  destruct (Hgroups sig group ltac:(left)) as [Hne Hsig].
  destruct (choose_spec group Hne) as (r & pre & post & -> & -> & _). csimpl.
  rewrite IH by (intros; apply Hgroups; by right). f_equal.
  apply Hsig. apply elem_of_app. right. left.
Qed.

(** What the filter keeps: one itinerary per signature, the first of the
    least by the duration of the first walk leg. *)
Lemma filter_duplicate_spec (results : list result) :
  let signature r := get_transit_signature (legs r) in
  let out := filter_duplicate_routes_different_walk results in
  NoDup (signature <$> out) ∧
  (∀ r, r ∈ results → ∃ r', r' ∈ out ∧ signature r' = signature r) ∧
  (∀ r', r' ∈ out →
     ∃ pre post, results = pre ++ r' :: post ∧
       (∀ r, r ∈ pre → signature r = signature r' →
          first_walk_duration r' < first_walk_duration r) ∧
       (∀ r, r ∈ post → signature r = signature r' →
          first_walk_duration r' ≤ first_walk_duration r)).
Proof.
  intros signature out. subst out. unfold filter_duplicate_routes_different_walk.
  destruct (transit_groups_spec results) as [Hnd Hgroups]. simpl in Hnd, Hgroups.
  set (groups := fold_left _ results []) in *.
  assert (∀ sig group, (sig, group) ∈ groups →
    group ≠ [] ∧ ∀ r, r ∈ group → get_transit_signature (legs r) = sig) as Hsigs.
  { intros sig group [Hne ->]%Hgroups. split; [done|].
    by intros r [? _]%list_elem_of_filter. }
  split_and!.
  - unfold signature. by rewrite chosen_signatures.
  - intros r Hr.
    set (group := filter (λ r', get_transit_signature (legs r') = signature r) results).
    assert (r ∈ group) as Hrg by (by apply list_elem_of_filter).
    assert (group ≠ []) as Hne by (intros Hnil; rewrite Hnil in Hrg; by apply elem_of_nil in Hrg).
    destruct (choose_spec group Hne) as (r' & pre & post & Hch & Hsplit & _).
    exists r'. split.
    + apply list_elem_of_omap. exists (signature r, group). split; [|done].
      by apply Hgroups.
    + assert (r' ∈ group) as Hr' by (rewrite Hsplit; apply elem_of_app; right; left).
      by apply list_elem_of_filter in Hr' as [? _].
  - intros r' ([sig group] & Hin & Hch)%list_elem_of_omap. simpl in Hch.
    apply Hgroups in Hin as [Hne Hgroup].
    destruct (choose_spec group Hne) as (r & gpre & gpost & Hch' & Hsplit & Hlt & Hle).
    rewrite Hch in Hch'. injection Hch' as <-.
    assert (signature r' = sig) as Hsig.
    { assert (r' ∈ group) as Hr' by (rewrite Hsplit; apply elem_of_app; right; left).
      rewrite Hgroup in Hr'. by apply list_elem_of_filter in Hr' as [? _]. }
    rewrite Hgroup in Hsplit. destruct (filter_split _ _ _ _ _ Hsplit)
      as (pre & post & -> & Hpre & Hpost).
    exists pre, post. split_and!; [done| |].
    + intros r Hr Heq. apply Hlt. rewrite <-Hpre. apply list_elem_of_filter.
      split; [|done]. unfold signature in *. congruence.
    + intros r Hr Heq. apply Hle. rewrite Hgroup. apply list_elem_of_filter. split.
      * unfold signature in *. congruence.
      * apply elem_of_app. right. by right.
Qed.

(** *** Pruning by total time and number of transit legs *)

Lemma minimum_spec (x : Z) (l : list Z) :
  minimum x l ∈ x :: l ∧ ∀ y, y ∈ x :: l → minimum x l ≤ y.
Proof.
  split; [apply (min_by_elem_of Z.le (λ v : Z, v))|].
  intros y Hy. by apply (min_by_le Z.le (λ v : Z, v)).
Qed.

Lemma filter_duplicate_NoDup (results : list result) :
  NoDup ((λ r, get_transit_signature (legs r)) <$> results) →
  filter_duplicate_routes_different_walk results = results.
Proof.
  intros Hnd. unfold filter_duplicate_routes_different_walk.
  rewrite (group_NoDup (λ r, get_transit_signature (legs r))) by done.
  clear Hnd. induction results as [|r results IH]; [done|]. csimpl. by rewrite IH.
Qed.

Lemma filter_duplicate_subset (results : list result) (r : result) :
  r ∈ filter_duplicate_routes_different_walk results → r ∈ results.
Proof.
  intros Hr. destruct (filter_duplicate_spec results) as (_ & _ & Hout).
  destruct (Hout r Hr) as (pre & post & -> & _). apply elem_of_app. right. left.
Qed.

(** Two itineraries that meet the condition of C3 and have the same (empty)
    transit signature: only one of them is returned. *)
Lemma kept_by_time_dropped_as_duplicate :
  let origin := {| place_lat := 0; place_lon := 0; place_stop := None |} in
  let dest := {| place_lat := 0; place_lon := 0; place_stop := None |} in
  let w1 := {| dest_stop := "A"; total_time := 100; transfer_count := 0;
               legs := [Walk origin dest 140 100] |} in
  let w2 := {| dest_stop := "B"; total_time := 110; transfer_count := 0;
               legs := [Walk origin dest 154 110] |} in
  prune [w1; w2] = [w1; w2] ∧
  total_time w2 ≤ total_time w1 + 60 ∧
  finish [w1; w2] = [clean w1] ∧
  clean w2 ∉ finish [w1; w2].
Proof.
  simpl. split_and!; [reflexivity|lia|reflexivity|].
  intros [=]%list_elem_of_singleton.
Qed.

Lemma prune_spec (r0 : result) (rest : list result) :
  let temp_results := r0 :: rest in
  let fastest := minimum (total_time r0) (total_time <$> rest) in
  let fewest := minimum (Z.of_nat (transfer_count r0)) (Z.of_nat ∘ transfer_count <$> rest) in
  (∃ r, r ∈ temp_results ∧ total_time r = fastest) ∧
  (∀ r, r ∈ temp_results → fastest ≤ total_time r) ∧
  (∃ r, r ∈ temp_results ∧ Z.of_nat (transfer_count r) = fewest) ∧
  (∀ r, r ∈ temp_results → fewest ≤ Z.of_nat (transfer_count r)) ∧
  (∀ r, r ∈ prune temp_results ↔
        r ∈ temp_results ∧
        (total_time r ≤ fastest + 60 ∨ Z.of_nat (transfer_count r) = fewest)).
Proof.
  intros temp_results fastest fewest.
  destruct (minimum_spec (total_time r0) (total_time <$> rest)) as [Hf1 Hf2].
  destruct (minimum_spec (Z.of_nat (transfer_count r0)) (Z.of_nat ∘ transfer_count <$> rest))
    as [Ht1 Ht2].
  fold fastest in Hf1, Hf2. fold fewest in Ht1, Ht2.
  assert (∀ r, r ∈ temp_results → fastest ≤ total_time r) as Hfast.
  { intros r Hr. apply Hf2. change (total_time r ∈ total_time <$> temp_results).
    by apply list_elem_of_fmap_2. }
  assert (∀ r, r ∈ temp_results → fewest ≤ Z.of_nat (transfer_count r)) as Hfew.
  { intros r Hr. apply Ht2.
    change ((Z.of_nat ∘ transfer_count) r ∈ Z.of_nat ∘ transfer_count <$> temp_results).
    by apply list_elem_of_fmap_2. }
  split_and!; [|done| |done|].
  - change (fastest ∈ total_time <$> temp_results) in Hf1.
    apply list_elem_of_fmap in Hf1 as (r & -> & Hr). by exists r.
  - change (fewest ∈ Z.of_nat ∘ transfer_count <$> temp_results) in Ht1.
    apply list_elem_of_fmap in Ht1 as (r & -> & Hr). by exists r.
  - intros r. unfold prune, temp_results. fold fastest fewest.
    rewrite list_elem_of_filter. split.
    + intros [[Htime|Hcount] Hr]; (split; [done|]); [by left|right].
      specialize (Hfew r Hr). lia.
    + intros [Hr [Htime|Hcount]]; (split; [|done]); [by left|right]. lia.
Qed.

(** C3, amended.  For a non-empty list of reconstructed candidates, with
    [fastest] the least total time and [fewest] the least number of transit
    legs among them: the pruning loop keeps a candidate iff its total time
    is at most [fastest + 60] or its number of transit legs is [fewest];
    every itinerary the engine returns is one of the kept candidates (the
    de-duplication by transit signature and the cap of 5 that follow only
    remove results); and when the kept candidates have pairwise distinct
    transit signatures and number at most 5, the engine returns exactly
    the kept candidates.  In particular, candidates with (total time,
    transit legs) = (1200, 2), (1250, 1), (1300, 3) yield exactly the first
    two. *)
Theorem pruned_results (temp_results : list result) :
  temp_results ≠ [] →
  ∃ fastest fewest : Z,
    (∃ r, r ∈ temp_results ∧ total_time r = fastest) ∧
    (∀ r, r ∈ temp_results → fastest ≤ total_time r) ∧
    (∃ r, r ∈ temp_results ∧ Z.of_nat (transfer_count r) = fewest) ∧
    (∀ r, r ∈ temp_results → fewest ≤ Z.of_nat (transfer_count r)) ∧
    (∀ r, r ∈ prune temp_results ↔
          r ∈ temp_results ∧
          (total_time r ≤ fastest + 60 ∨ Z.of_nat (transfer_count r) = fewest)) ∧
    (∀ rt, rt ∈ finish temp_results → ∃ r, r ∈ prune temp_results ∧ rt = clean r) ∧
    (NoDup ((λ r, get_transit_signature (legs r)) <$> prune temp_results) →
     (length (prune temp_results) ≤ 5)%nat →
     finish temp_results = clean <$> prune temp_results) ∧
    (∀ r1 r2 r3,
       temp_results = [r1; r2; r3] →
       (∀ r, r ∈ temp_results →
          transfer_count r = length (get_transit_signature (legs r))) →
       (total_time r1, transfer_count r1) = (1200, 2%nat) →
       (total_time r2, transfer_count r2) = (1250, 1%nat) →
       (total_time r3, transfer_count r3) = (1300, 3%nat) →
       finish temp_results = [clean r1; clean r2]).
Proof.
  destruct temp_results as [|r0 rest]; [done|]. intros _.
  destruct (prune_spec r0 rest) as (Hf1 & Hf2 & Ht1 & Ht2 & Hprune).
  eexists _, _. split_and!; [exact Hf1|exact Hf2|exact Ht1|exact Ht2|exact Hprune|..].
  - intros rt (r & -> & Hr)%list_elem_of_fmap. exists r. split; [|done].
    apply elem_of_take in Hr as (i & Hr & _). apply list_elem_of_lookup_2 in Hr.
    by apply filter_duplicate_subset.
  - intros Hnd Hlen. unfold finish. rewrite filter_duplicate_NoDup by done.
    by rewrite take_ge.
  - intros r1 r2 r3 [= -> ->] Hcount [= Htime1 Hcount1] [= Htime2 Hcount2]
      [= Htime3 Hcount3].
    assert (prune [r1; r2; r3] = [r1; r2]) as Hkept.
    { unfold prune. cbn [fmap list_fmap compose].
      rewrite Htime1, Htime2, Htime3, Hcount1, Hcount2, Hcount3.
      change (minimum 1200 [1250; 1300]) with 1200.
      change (minimum (Z.of_nat 2) [Z.of_nat 1; Z.of_nat 3]) with 1.
      rewrite filter_cons_True by lia. rewrite filter_cons_True by lia.
      rewrite filter_cons_False by lia. done. }
    unfold finish. rewrite Hkept. rewrite filter_duplicate_NoDup; [done|].
    csimpl. apply NoDup_cons. split; [|apply NoDup_singleton].
    intros Hin%list_elem_of_singleton.
    pose proof (Hcount r1 ltac:(left)) as H1.
    pose proof (Hcount r2 ltac:(right; left)) as H2.
    rewrite Hin, <-H2, Hcount1, Hcount2 in H1. done.
Qed.

(** Scenario 6 of the specification, with itineraries of 2, 1 and 3
    transit legs. *)
Definition sample_place : place := {| place_lat := 0; place_lon := 0; place_stop := None |}.

Definition sample_ride (route_id from_stop_id to_stop_id : string) : leg :=
  Transit route_id "T" from_stop_id to_stop_id from_stop_id to_stop_id (10, 0, 0) (10, 5, 0).

Definition scenario6 : list result :=
  [ {| dest_stop := "C"; total_time := 1200; transfer_count := 2;
       legs := [Walk sample_place sample_place 70 50; sample_ride "R1" "A" "B";
                sample_ride "R2" "B" "C"; Walk sample_place sample_place 70 50] |};
    {| dest_stop := "C"; total_time := 1250; transfer_count := 1;
       legs := [Walk sample_place sample_place 70 50; sample_ride "R3" "A" "C";
                Walk sample_place sample_place 70 50] |};
    {| dest_stop := "C"; total_time := 1300; transfer_count := 3;
       legs := [Walk sample_place sample_place 70 50; sample_ride "R1" "A" "B";
                sample_ride "R4" "B" "D"; sample_ride "R5" "D" "C";
                Walk sample_place sample_place 70 50] |} ].

Lemma pruned_results_witness :
  scenario6 ≠ [] ∧ finish scenario6 = clean <$> take 2 scenario6.
Proof.
  assert (scenario6 ≠ []) as Hne by done. split; [exact Hne|].
  destruct (pruned_results scenario6 Hne) as (fastest & fewest & _ & _ & _ & _ & _ & _ & _ & Hex).
  eapply Hex; [reflexivity| |reflexivity..].
  intros r Hr. unfold scenario6 in Hr. rewrite !elem_of_cons, elem_of_nil in Hr.
  destruct Hr as [->|[->|[->|[]]]]; reflexivity.
Defined.

(** *** The transfer graph *)

(** What [link] requires of a pair of stops, and the duration it stores. *)
Definition linked (s1 s2 : stop) (w : Z) : Prop :=
  boxed s1 s2 ∧ (distance s1 s2 <= MAX_WALKING_DISTANCE_M)%R ∧
  w = int_of_float (distance s1 s2 / WALKING_SPEED_MS).

Lemma linked_sym (s1 s2 : stop) (w : Z) : linked s1 s2 w → linked s2 s1 w.
Proof.
  unfold linked, boxed, distance. intros ([Hlat Hlon] & Hdist & ->).
  rewrite (haversine_sym (lat s2)). split_and!; [|..|done|done].
  - by rewrite Rabs_minus_sym.
  - by rewrite Rabs_minus_sym.
Qed.

Lemma has_transfer_add (transfers : gmap string (list (string * Z))) a b w a' b' w' :
  has_transfer (add_transfer transfers a b w) a' b' w' ↔
  has_transfer transfers a' b' w' ∨ (a' = a ∧ b' = b ∧ w' = w).
Proof.
  unfold has_transfer, add_transfer. destruct (decide (a = a')) as [<-|Hne].
  - rewrite lookup_insert_eq. simpl. rewrite elem_of_app, list_elem_of_singleton.
    split; [intros [?|[= -> ->]]; auto|intros [?|(_ & -> & ->)]; auto].
  - rewrite lookup_insert_ne by done. split; [auto|]. intros [?|(-> & _)]; done.
Qed.

Lemma link_spec id1 s1 (transfers : gmap string (list (string * Z))) id2 s2 a b w :
  has_transfer (link id1 s1 transfers (id2, s2)) a b w ↔
  has_transfer transfers a b w ∨
  (linked s1 s2 w ∧ ((a = id1 ∧ b = id2) ∨ (a = id2 ∧ b = id1))).
Proof.
  unfold link, linked, boxed. fold (distance s1 s2).
  destruct (decide (Rabs (lat s1 - lat s2) > 0.01)%R) as [Hlat|Hlat].
  { split; [auto|]. intros [?|[([? _] & _) _]]; [done|lra]. }
  destruct (decide (Rabs (lon s1 - lon s2) > 0.01)%R) as [Hlon|Hlon].
  { split; [auto|]. intros [?|[([_ ?] & _) _]]; [done|lra]. }
  destruct (decide (distance s1 s2 <= MAX_WALKING_DISTANCE_M)%R) as [Hdist|Hdist].
  - rewrite !has_transfer_add. split.
    + intros [[?|(-> & -> & ->)]|(-> & -> & ->)]; [by left|right..];
        (split; [split_and!; [lra|lra|done|done]|tauto]).
    + intros [?|[(_ & _ & ->) [[-> ->]|[-> ->]]]]; tauto.
  - split; [auto|]. intros [?|[(_ & ? & _) _]]; done.
Qed.

Lemma links_spec id1 s1 (rest : list (string * stop))
    (transfers : gmap string (list (string * Z))) a b w :
  has_transfer (fold_left (link id1 s1) rest transfers) a b w ↔
  has_transfer transfers a b w ∨
  ∃ id2 s2, (id2, s2) ∈ rest ∧ linked s1 s2 w ∧
            ((a = id1 ∧ b = id2) ∨ (a = id2 ∧ b = id1)).
Proof.
  revert transfers. induction rest as [|[id2 s2] rest IH]; intros transfers; cbn [fold_left].
  { split; [auto|]. intros [?|(? & ? & []%elem_of_nil & _)]. done. }
  rewrite IH, link_spec. split.
  - intros [[?|[? ?]]|(id & s & Hin & ?)]; [by left|right..].
    + exists id2, s2. split; [left|done].
    + exists id, s. split; [by right|done].
  - intros [?|(id & s & [[= -> ->]|Hin]%elem_of_cons & ?)]; [auto|auto|].
    right. by exists id, s.
Qed.

Lemma link_all_spec (stops : list (string * stop))
    (transfers : gmap string (list (string * Z))) a b w :
  has_transfer (link_all stops transfers) a b w ↔
  has_transfer transfers a b w ∨
  ∃ pre id1 s1 post id2 s2,
    stops = pre ++ (id1, s1) :: post ∧ (id2, s2) ∈ post ∧ linked s1 s2 w ∧
    ((a = id1 ∧ b = id2) ∨ (a = id2 ∧ b = id1)).
Proof.
  revert transfers. induction stops as [|[id1 s1] stops IH]; intros transfers; cbn [link_all].
  { split; [auto|]. intros [?|(pre & ? & ? & ? & ? & ? & Heq & _)]; [done|].
    by destruct pre. }
  rewrite IH, links_spec. split.
  - intros [[?|(id2 & s2 & Hin & ?)]|(pre & x & sx & post & y & sy & -> & ?)];
      [by left|right..].
    + by exists [], id1, s1, stops, id2, s2.
    + by exists ((id1, s1) :: pre), x, sx, post, y, sy.
  - intros [?|(pre & x & sx & post & y & sy & Heq & Hin & ?)]; [auto|].
    destruct pre as [|p pre]; simplify_eq/=.
    + left. right. by exists y, sy.
    + right. by exists pre, x, sx, post, y, sy.
Qed.

Lemma dict_value_unique {A : Type} (d : list (string * A)) k (v1 v2 : A) :
  NoDup d.*1 → (k, v1) ∈ d → (k, v2) ∈ d → v1 = v2.
Proof.
  intros Hnd H1%elem_of_getitem H2%elem_of_getitem; [|done..]. congruence.
Qed.

(** The edges of the graph built from a table of stops. *)
Lemma transfer_graph_spec (tt : timetable) id1 s1 id2 s2 w :
  NoDup (stops tt).*1 →
  (id1, s1) ∈ stops tt → (id2, s2) ∈ stops tt → id1 ≠ id2 →
  has_transfer (build_transfer_graph tt) id1 id2 w ↔ linked s1 s2 w.
Proof.
  intros Hnd H1 H2 Hne. unfold build_transfer_graph. rewrite link_all_spec.
  unfold has_transfer at 1. rewrite lookup_empty. simpl. split.
  - intros [[]%elem_of_nil|(pre & x & sx & post & y & sy & Heq & Hy & Hl & Hab)].
    assert ((x, sx) ∈ stops tt) as Hx by (rewrite Heq; apply elem_of_app; right; left).
    assert ((y, sy) ∈ stops tt) as Hy' by (rewrite Heq; apply elem_of_app; right; by right).
    destruct Hab as [[-> ->]|[-> ->]].
    + by rewrite (dict_value_unique _ _ _ _ Hnd H1 Hx), (dict_value_unique _ _ _ _ Hnd H2 Hy').
    + rewrite (dict_value_unique _ _ _ _ Hnd H1 Hy'), (dict_value_unique _ _ _ _ Hnd H2 Hx).
      by apply linked_sym.
  - intros Hl. right. apply list_elem_of_split in H1 as (l1 & l2 & Heq).
    rewrite Heq in H2. apply elem_of_app in H2 as [H2|H2].
    + apply list_elem_of_split in H2 as (l1a & l1b & ->).
      exists l1a, id2, s2, (l1b ++ (id1, s1) :: l2), id1, s1. split_and!.
      * by rewrite Heq, <-app_assoc.
      * apply elem_of_app. right. left.
      * by apply linked_sym.
      * by right.
    + apply elem_of_cons in H2 as [[=]|H2]; [done|].
      exists l1, id1, s1, l2, id2, s2. split_and!; [done..|by left].
Qed.

(** Two stops at latitude 90 whose longitudes differ by a degree. *)
Definition polar_stop (lon0 : R) : stop := {| stop_name := "Pole"; lat := 90; lon := lon0 |}.

Definition polar_timetable : timetable :=
  {| stops := [("N1", polar_stop 0); ("N2", polar_stop 1)];
     trips := ∅; stop_times_by_trip := [] |}.

(** C7 fails as stated: the two stops are at distance 0 <= 500 m, but their
    longitudes differ by more than 0.01 degrees, so the loop skips the pair
    before it computes the distance, and the graph has no edge. *)
Lemma near_stops_without_transfer :
  NoDup (stops polar_timetable).*1 ∧
  distance (polar_stop 0) (polar_stop 1) = 0%R ∧
  (distance (polar_stop 0) (polar_stop 1) <= 500)%R ∧
  build_transfer_graph polar_timetable = ∅.
Proof.
  assert (distance (polar_stop 0) (polar_stop 1) = 0%R) as Hdist.
  { unfold distance. simpl. apply haversine_zero_angle.
    - unfold radians. replace ((90 - 90) * PI / 180 / 2)%R with 0%R by lra. apply sin_0.
    - unfold radians. replace (90 * PI / 180)%R with (PI / 2)%R by lra.
      rewrite cos_PI2. lra. }
  split_and!; [|done|rewrite Hdist; lra|].
  - csimpl. apply NoDup_cons. split; [|apply NoDup_singleton].
    by intros [=]%list_elem_of_singleton.
  - unfold build_transfer_graph. simpl. unfold link. simpl.
    rewrite decide_False.
    2:{ replace (90 - 90)%R with 0%R by lra. rewrite Rabs_R0. lra. }
    rewrite decide_True; [done|].
    rewrite Rabs_minus_sym. replace (1 - 0)%R with 1%R by lra. rewrite Rabs_R1. lra.
Qed.

(** C7, amended.  For two distinct stops of the timetable, the transfer
    graph has a walking edge between them iff their latitudes and their
    longitudes each differ by at most 0.01 degrees and their haversine
    distance is at most 500 m; an edge is present in both directions with
    the same duration, the floor of distance / 1.4 seconds. *)
Theorem transfer_graph_edges (tt : timetable) id1 s1 id2 s2 :
  NoDup (stops tt).*1 →
  (id1, s1) ∈ stops tt → (id2, s2) ∈ stops tt → id1 ≠ id2 →
  let graph := build_transfer_graph tt in
  ((∃ w, has_transfer graph id1 id2 w) ↔
     boxed s1 s2 ∧ (distance s1 s2 <= 500)%R) ∧
  (∀ w, has_transfer graph id1 id2 w ↔ has_transfer graph id2 id1 w) ∧
  (∀ w, has_transfer graph id1 id2 w → w = Int_part (distance s1 s2 / 1.4)).
Proof.
  intros Hnd H1 H2 Hne graph. subst graph.
  pose proof (λ w, transfer_graph_spec tt id1 s1 id2 s2 w Hnd H1 H2 Hne) as H12.
  pose proof (λ w, transfer_graph_spec tt id2 s2 id1 s1 w Hnd H2 H1 (not_eq_sym Hne)) as H21.
  split_and!.
  - split.
    + intros [w (? & ? & _)%H12]. done.
    + intros [? ?]. eexists. apply H12. by split_and!.
  - intros w. rewrite H12, H21. split; apply linked_sym.
  - intros w (_ & _ & ->)%H12. apply int_of_float_floor.
    unfold distance, WALKING_SPEED_MS, Rdiv. apply Rmult_le_pos; [apply haversine_nonneg|].
    lra.
Qed.

(** Stops A and B of scenario 1 of the specification. *)
Definition scenario1_timetable : timetable :=
  {| stops := [("A", {| stop_name := "A"; lat := 0; lon := 0 |});
               ("B", {| stop_name := "B"; lat := 0; lon := 0.004 |})];
     trips := ∅; stop_times_by_trip := [] |}.

Lemma transfer_graph_edges_witness :
  NoDup (stops scenario1_timetable).*1 ∧
  ∀ w, has_transfer (build_transfer_graph scenario1_timetable) "A" "B" w ↔
       has_transfer (build_transfer_graph scenario1_timetable) "B" "A" w.
Proof.
  assert (NoDup (stops scenario1_timetable).*1) as Hnd.
  { csimpl. apply NoDup_cons. split; [|apply NoDup_singleton].
    by intros [=]%list_elem_of_singleton. }
  split; [exact Hnd|].
  apply (transfer_graph_edges scenario1_timetable
           "A" {| stop_name := "A"; lat := 0; lon := 0 |}
           "B" {| stop_name := "B"; lat := 0; lon := 0.004 |} Hnd);
    [left|right; left|done].
Defined.

(** *** Queries with no stop nearby *)

Lemma omap_nil_iff {A B : Type} (f : A → option B) (l : list A) :
  omap f l = [] ↔ ∀ x, x ∈ l → f x = None.
Proof.
  induction l as [|x l IH]; csimpl.
  - split; [by intros _ ? ?%elem_of_nil|done].
  - destruct (f x) eqn:Hx; csimpl.
    + split; [done|]. intros Hall. specialize (Hall x ltac:(left)). congruence.
    + rewrite IH. split.
      * intros Hall y [->|?]%elem_of_cons; auto.
      * intros Hall y Hy. apply Hall. by right.
Qed.

(** No stop is returned exactly when every stop is beyond 500 m. *)
Lemma find_nearby_stops_nil (tt : timetable) (lat0 lon0 : R) :
  find_nearby_stops tt lat0 lon0 = [] ↔
  ∀ id s, (id, s) ∈ stops tt → (haversine lat0 lon0 (lat s) (lon s) > 500)%R.
Proof.
  unfold find_nearby_stops.
  set (nearby := omap _ (stops tt)).
  assert (take 15 (sorted Rle nb_distance nearby) = [] ↔ nearby = []) as ->.
  { split.
    - intros Htake. apply (f_equal length) in Htake.
      rewrite length_take, length_sorted in Htake. destruct nearby; [done|]. simpl in *. lia.
    - by intros ->. }
  unfold nearby. rewrite omap_nil_iff. unfold nearby_of, MAX_WALKING_DISTANCE_M. split.
  - intros Hall id s Hin. specialize (Hall _ Hin). simpl in Hall.
    case_decide; [done|]. lra.
  - intros Hall [id s] Hin. specialize (Hall _ _ Hin). rewrite decide_False; [done|]. lra.
Qed.

(** The early return of [run], in exact arithmetic: if no stop lies within
    500 m of the origin, or none within 500 m of the destination, [run]
    returns an empty list of routes (in debug mode with the debug log), and
    the service, its timetable and transfer graph, is as before.  The two
    calls of [find_nearby_stops] come before the test, and in floating point
    [haversine] can raise there for a stop nearly antipodal to the query
    (see [Geo.haversine]); the statement does not cover that. *)
Theorem run_without_nearby_stops (hash_pattern : list string → Z)
    (set_iter : list string → list string) (fuel : nat) (self : service)
    (origin_lat origin_lon dest_lat dest_lon : R) (departure_time_seconds : Z) (debug : bool) :
  (∀ id s, (id, s) ∈ stops (service_timetable self) →
           (haversine origin_lat origin_lon (lat s) (lon s) > 500)%R) ∨
  (∀ id s, (id, s) ∈ stops (service_timetable self) →
           (haversine dest_lat dest_lon (lat s) (lon s) > 500)%R) →
  ∃ logs,
    run hash_pattern set_iter fuel self origin_lat origin_lon dest_lat dest_lon
      departure_time_seconds debug =
    (Done {| routes := []; debug_logs := if debug then Some logs else None |}, self).
Proof.
  intros Hfar. unfold run.
  exists [length (find_nearby_stops (service_timetable self) origin_lat origin_lon)].
  destruct Hfar as [Hfar|Hfar]; apply find_nearby_stops_nil in Hfar; rewrite Hfar.
  - by destruct debug.
  - destruct (find_nearby_stops _ origin_lat origin_lon); by destruct debug.
Qed.

(** A timetable whose only stop is on the other side of the Earth. *)
Definition antipode_timetable : timetable :=
  {| stops := [("Z", {| stop_name := "Z"; lat := 0; lon := 180 |})];
     trips := ∅; stop_times_by_trip := [] |}.

Lemma run_without_nearby_stops_witness :
  (∀ id s, (id, s) ∈ stops antipode_timetable → (haversine 0 0 (lat s) (lon s) > 500)%R) ∧
  ∃ logs,
    run (λ _, 0) (λ l, l) 0 (init antipode_timetable) 0 0 0 0 36000 true =
    (Done {| routes := []; debug_logs := Some logs |}, init antipode_timetable).
Proof.
  assert (∀ id s, (id, s) ∈ stops antipode_timetable →
                  (haversine 0 0 (lat s) (lon s) > 500)%R) as Hfar.
  { intros id s Hin. apply list_elem_of_singleton in Hin. injection Hin as -> ->. simpl.
    rewrite haversine_antipode. pose proof PI_RGT_0. pose proof PI2_3_2. lra. }
  split; [exact Hfar|].
  apply (run_without_nearby_stops (λ _, 0) (λ l, l) 0 (init antipode_timetable)
           0 0 0 0 36000 true). by left.
Defined.

(** *** Merging consecutive walks *)

Lemma no_walk_pair_spec (legs : list leg) :
  no_walk_pair legs = true →
  ∀ pre a b post, legs = pre ++ a :: b :: post → ¬ (is_walk a = true ∧ is_walk b = true).
Proof.
  intros Hno pre. revert legs Hno. induction pre as [|x pre IH]; intros legs Hno a b post ->.
  - simpl in Hno. intros [Ha Hb]. rewrite Ha, Hb in Hno. done.
  - simpl in Hno. apply andb_prop in Hno as [_ Hno]. by eapply IH.
Qed.

(** A run of walks is flushed to one walk leg, from the origin of the first
    walk to the terminus of the last. *)
Lemma flush_walks_spec (w0 : leg) (ws : list leg) :
  Forall (λ l, is_walk l = true) (w0 :: ws) →
  ∃ w, flush_walks (w0 :: ws) = [w] ∧ is_walk w = true ∧
       walk_origin w = walk_origin w0 ∧
       walk_terminus w = walk_terminus (List.last (w0 :: ws) w0).
Proof.
  intros Hws. destruct ws as [|w1 ws].
  { exists w0. split_and!; try done. by inversion Hws. }
  cbn [flush_walks]. set (lst := List.last (w0 :: w1 :: ws) w0).
  assert (is_walk lst = true) as Hlast.
  { rewrite Forall_forall in Hws. apply Hws. apply list_elem_of_In. unfold lst.
    destruct (exists_last (l := w0 :: w1 :: ws) ltac:(done)) as (l' & x & Heq).
    rewrite Heq, last_last. apply in_or_app. right. by left. }
  assert (is_walk w0 = true) as Hw0 by (by inversion Hws).
  unfold merged_leg. destruct w0; [|done]. destruct lst; [|done].
  eexists. by split_and!.
Qed.

(** The merged legs never hold two walks in a row, begin where the legs
    began and end where they ended. *)
Lemma merge_collect_spec (rest : list leg) :
  (no_walk_pair (merge_consecutive_walk_legs rest) = true ∧
   (merge_consecutive_walk_legs rest = [] → rest = []) ∧
   head rest ≫= walk_origin = head (merge_consecutive_walk_legs rest) ≫= walk_origin ∧
   last rest ≫= walk_terminus = last (merge_consecutive_walk_legs rest) ≫= walk_terminus) ∧
  ∀ w0 ws, Forall (λ l, is_walk l = true) (w0 :: ws) →
    no_walk_pair (collect_walks (w0 :: ws) rest) = true ∧
    head_is_walk (collect_walks (w0 :: ws) rest) = true ∧
    head (collect_walks (w0 :: ws) rest) ≫= walk_origin = walk_origin w0 ∧
    last (collect_walks (w0 :: ws) rest) ≫= walk_terminus =
      last ((w0 :: ws) ++ rest) ≫= walk_terminus.
Proof.
  induction rest as [|l rest [(IHno & IHnil & IHhead & IHlast) IHc]].
  - split; [done|]. intros w0 ws Hws.
    destruct (flush_walks_spec w0 ws Hws) as (w & Hflush & Hw & Ho & Ht).
    cbn [collect_walks]. rewrite Hflush, app_nil_r. simpl. rewrite Hw. split_and!; try done.
    by rewrite Ht, (last_List_last (w0 :: ws) w0).
  - assert (∀ merged, (merged = [] → rest = []) →
              last rest ≫= walk_terminus = last merged ≫= walk_terminus →
              is_walk l = false →
              last (l :: rest) ≫= walk_terminus = last (l :: merged) ≫= walk_terminus)
      as Hlast_cons.
    { intros merged Hnil Hlast Hl. destruct rest as [|l' rest].
      - destruct merged as [|m merged]; [by destruct l|].
        change (last (l :: m :: merged)) with (last (m :: merged)). rewrite <-Hlast.
        by destruct l.
      - destruct merged as [|m merged]; [by specialize (Hnil eq_refl)|].
        change (last (l :: l' :: rest)) with (last (l' :: rest)).
        by change (last (l :: m :: merged)) with (last (m :: merged)). }
    split.
    + cbn [merge_consecutive_walk_legs]. destruct (is_walk l) eqn:Hl.
      * destruct (IHc l [] ltac:(by repeat constructor)) as (Hno & Hh & Ho & Ht).
        split_and!; [done| |by rewrite Ho|by rewrite Ht].
        intros Hnil. by rewrite Hnil in Hh.
      * simpl. rewrite Hl. simpl. split_and!; [done..|]. by apply Hlast_cons.
    + intros w0 ws Hws. cbn [collect_walks]. destruct (is_walk l) eqn:Hl.
      * assert (Forall (λ l, is_walk l = true) (w0 :: (ws ++ [l]))) as Hws'.
        { rewrite app_comm_cons. apply Forall_app. split; [done|]. by constructor. }
        destruct (IHc w0 (ws ++ [l]) Hws') as (Hno & Hh & Ho & Ht).
        rewrite <-app_comm_cons. split_and!; [done..|].
        rewrite Ht. do 2 f_equal. simpl. by rewrite <-app_assoc.
      * destruct (flush_walks_spec w0 ws Hws) as (w & -> & Hw & Ho & _).
        simpl. rewrite Hw, Hl. simpl. split_and!; [done..|].
        rewrite <-(Hlast_cons _ IHnil IHlast eq_refl).
        change (w0 :: ws ++ l :: rest) with ((w0 :: ws) ++ l :: rest).
        rewrite last_app. destruct (last (l :: rest)) eqn:E; [done|].
        by apply last_None in E.
Qed.

(** A transit leg separates what is merged before it from what is merged
    after it. *)
Lemma merge_collect_app (pre : list leg) :
  (∀ l post, is_walk l = false →
     merge_consecutive_walk_legs (pre ++ l :: post) =
     merge_consecutive_walk_legs pre ++ l :: merge_consecutive_walk_legs post) ∧
  (∀ ws l post, is_walk l = false →
     collect_walks ws (pre ++ l :: post) =
     collect_walks ws pre ++ l :: merge_consecutive_walk_legs post).
Proof.
  induction pre as [|x pre [IHm IHc]].
  - split.
    + intros l post Hl. simpl. by rewrite Hl.
    + intros ws l post Hl. simpl. by rewrite Hl.
  - split.
    + intros l post Hl. rewrite <-app_comm_cons. cbn [merge_consecutive_walk_legs].
      destruct (is_walk x).
      * by apply IHc.
      * by rewrite IHm.
    + intros ws l post Hl. rewrite <-app_comm_cons. cbn [collect_walks].
      destruct (is_walk x).
      * by apply IHc.
      * rewrite IHm by done. by rewrite <-app_assoc.
Qed.

(** The inner loop collects the whole run of walks that follows. *)
Lemma collect_walks_run (run post ws : list leg) :
  Forall (λ l, is_walk l = true) run → head_is_walk post = false →
  collect_walks ws (run ++ post) = flush_walks (ws ++ run) ++ merge_consecutive_walk_legs post.
Proof.
  intros Hrun Hpost. revert ws. induction Hrun as [|x run Hx _ IH]; intros ws.
  - rewrite app_nil_r. destruct post as [|l post]; simpl.
    + by rewrite app_nil_r.
    + simpl in Hpost. by rewrite Hpost.
  - simpl. rewrite Hx, IH. by rewrite <-app_assoc.
Qed.

(** A maximal run of walks is replaced by what [flush_walks] makes of it. *)
Lemma merge_run (pre run post : list leg) :
  run ≠ [] → Forall (λ l, is_walk l = true) run →
  (∀ l, last pre = Some l → is_walk l = false) → head_is_walk post = false →
  merge_consecutive_walk_legs (pre ++ run ++ post) =
  merge_consecutive_walk_legs pre ++ flush_walks run ++ merge_consecutive_walk_legs post.
Proof.
  intros Hne Hrun Hpre Hpost.
  assert (merge_consecutive_walk_legs (run ++ post) =
          flush_walks run ++ merge_consecutive_walk_legs post) as Hmerge.
  { destruct run as [|w0 ws]; [done|]. inversion Hrun as [|?? Hw0 Hws]; subst.
    rewrite <-app_comm_cons. cbn [merge_consecutive_walk_legs]. rewrite Hw0.
    by rewrite collect_walks_run. }
  destruct (decide (pre = [])) as [->|Hpre_ne]; [done|].
  destruct (exists_last Hpre_ne) as (pre' & t & ->).
  specialize (Hpre t (last_snoc _ _)).
  rewrite <-app_assoc. simpl.
  destruct (merge_collect_app pre') as [Happ _].
  rewrite !Happ by done. rewrite Hmerge. simpl. by rewrite <-app_assoc.
Qed.

(** Two or more walks are flushed to one walk with their summed distance
    and duration. *)
Lemma flush_walks_sum (w0 w1 : leg) (ws : list leg) :
  Forall (λ l, is_walk l = true) (w0 :: w1 :: ws) →
  ∃ from to,
    walk_origin w0 = Some from ∧
    last (w0 :: w1 :: ws) ≫= walk_terminus = Some to ∧
    flush_walks (w0 :: w1 :: ws) =
      [Walk from to
         (fold_left Rplus (walk_distance <$> w0 :: w1 :: ws) 0%R)
         (fold_left Z.add (walk_duration <$> w0 :: w1 :: ws) 0)].
Proof.
  intros Hws. cbn [flush_walks].
  rewrite (last_List_last (w0 :: w1 :: ws) w0) by done.
  set (lst := List.last (w0 :: w1 :: ws) w0).
  assert (is_walk lst = true) as Hlast.
  { rewrite Forall_forall in Hws. apply Hws. apply list_elem_of_In. unfold lst.
    destruct (exists_last (l := w0 :: w1 :: ws) ltac:(done)) as (l' & x & Heq).
    rewrite Heq, last_last. apply in_or_app. right. by left. }
  assert (is_walk w0 = true) as Hw0 by (by inversion Hws).
  unfold merged_leg. destruct w0 as [from0 ? ? ?|]; [|done].
  destruct lst as [? to0 ? ?|]; [|done].
  by exists from0, to0.
Qed.

(** *** The labels of the rounds *)

Section labels.

Variables origin_lat origin_lon : R.

#[local] Abbreviation chain := (Raptor.chain origin_lat origin_lon).
#[local] Abbreviation labels_ok := (Raptor.labels_ok origin_lat origin_lon).

(** The entries that an update of [(n, k)] under [improves] cannot reach:
    those of an earlier round, and those of round [k] that are earlier than
    the entry at [(n, k)]. *)
Definition before (lab : labels) (n : string) (k : nat) (s : string) (j : nat) : Prop :=
  (j < k)%nat ∨
  (j = k ∧ ∃ ts, tau lab !! (s, k) = Some ts ∧ ∀ tn, tau lab !! (n, k) = Some tn → ts < tn).

Lemma before_ne (lab : labels) (n : string) (k : nat) (s : string) (j : nat) :
  before lab n k s j → (s, j) ≠ (n, k).
Proof.
  intros Hbefore Heq. injection Heq as -> ->.
  destruct Hbefore as [Hlt|(_ & ts & Hts & Hlt)]; [lia|].
  specialize (Hlt _ Hts). lia.
Qed.

Lemma chain_frame (lab : labels) (n : string) (k : nat) (t : Z) (p : parent_record)
    (s : string) (j : nat) :
  chain lab s j → before lab n k s j → chain (set_label lab n k t p) s j.
Proof.
  induction 1 as [s o a Hp|s j tr b bt bst ast at' ast' Hp Hc IH|s j f to a w Hp Hle Hc IH];
    intros Hbefore; pose proof (before_ne _ _ _ _ _ Hbefore) as Hne.
  - eapply chain_walk. simpl. by rewrite lookup_insert_ne.
  - eapply chain_transit; [simpl; by rewrite lookup_insert_ne|].
    apply IH. left. destruct Hbefore as [?|[? _]]; lia.
  - assert (before lab n k f (S j)) as Hf.
    { destruct Hbefore as [?|(Hj & ts & Hts & Hlt)]; [by left|right].
      split; [done|]. destruct Hle as (tx & ty & Hx & Hy & Hxy). subst k.
      exists tx. split; [done|]. intros tn Htn. specialize (Hlt _ Htn).
      rewrite Hts in Hy. injection Hy as ->. lia. }
    eapply chain_transfer; [simpl; by rewrite lookup_insert_ne| |by apply IH].
    destruct Hle as (tx & ty & Hx & Hy & Hxy). exists tx, ty. simpl.
    rewrite !lookup_insert_ne; [done|done|]. by apply before_ne in Hf.
Qed.

Lemma chain_update (lab : labels) (n : string) (k : nat) (t : Z) (p : parent_record)
    (s : string) (j : nat) :
  improves lab n k t = true → chain (set_label lab n k t p) n k →
  chain lab s j → chain (set_label lab n k t p) s j.
Proof.
  intros Himp Hn.
  induction 1 as [s o a Hp|s j tr b bt bst ast at' ast' Hp Hc IH|s j f to a w Hp Hle Hc IH].
  - destruct (decide ((s, 0%nat) = (n, k))) as [[= -> <-]|Hne]; [done|].
    eapply chain_walk. simpl. by rewrite lookup_insert_ne.
  - destruct (decide ((s, S j) = (n, k))) as [[= -> <-]|Hne]; [done|].
    eapply chain_transit; [simpl; by rewrite lookup_insert_ne|done].
  - destruct (decide ((s, S j) = (n, k))) as [[= -> <-]|Hne]; [done|].
    eapply chain_transfer; [simpl; by rewrite lookup_insert_ne| |done].
    destruct Hle as (tx & ty & Hx & Hy & Hxy). unfold tau_le. simpl.
    destruct (decide ((f, S j) = (n, k))) as [[= -> <-]|Hnf].
    + exists t, ty. rewrite lookup_insert_eq, lookup_insert_ne by done.
      split_and!; [done..|]. unfold improves in Himp. rewrite Hx in Himp.
      apply bool_decide_eq_true in Himp. lia.
    + exists tx, ty. by rewrite !lookup_insert_ne.
Qed.

Lemma labels_ok_update (lab : labels) (n : string) (k : nat) (t : Z) (p : parent_record) :
  labels_ok lab → improves lab n k t = true → chain (set_label lab n k t p) n k →
  labels_ok (set_label lab n k t p).
Proof.
  intros Hok Himp Hn s j Hsome.
  destruct (decide ((s, j) = (n, k))) as [[= -> ->]|Hne]; [done|].
  simpl in Hsome. rewrite lookup_insert_ne in Hsome by done.
  apply chain_update; auto.
Qed.

(** An arrival by transit, boarded at a stop reached one round earlier. *)
Lemma labels_ok_transit (lab : labels) (n : string) (k : nat) (t : Z)
    (trip_id boarding_stop : string) (boarding_time : Z) (boarding_st : stop_time)
    (arrival_stop : string) (arrival_time : Z) (arrival_st : stop_time) :
  labels_ok lab → improves lab n (S k) t = true →
  is_Some (tau lab !! (boarding_stop, k)) →
  labels_ok (set_label lab n (S k) t
               (ParentTransit trip_id boarding_stop boarding_time boarding_st arrival_stop
                  arrival_time arrival_st)).
Proof.
  intros Hok Himp Hb. apply labels_ok_update; [done..|].
  eapply chain_transit; [simpl; by rewrite lookup_insert_eq|].
  apply chain_frame; [by apply Hok|]. left. lia.
Qed.

(** An arrival on foot from a stop reached in the same round. *)
Lemma labels_ok_transfer (lab : labels) (n : string) (k : nat) (f to : string) (a w : Z) :
  labels_ok lab → tau lab !! (f, S k) = Some a → 0 ≤ w →
  improves lab n (S k) (a + w) = true →
  labels_ok (set_label lab n (S k) (a + w) (ParentTransfer f to (a + w) w)).
Proof.
  intros Hok Hf Hw Himp.
  assert (before lab n (S k) f (S k)) as Hbefore.
  { right. split; [done|]. exists a. split; [done|]. intros tn Htn.
    unfold improves in Himp. rewrite Htn in Himp. apply bool_decide_eq_true in Himp. lia. }
  apply labels_ok_update; [done..|].
  eapply chain_transfer; [simpl; by rewrite lookup_insert_eq| |].
  - exists a, (a + w). simpl. rewrite lookup_insert_eq.
    rewrite lookup_insert_ne by (intros Heq; by apply before_ne in Hbefore).
    split_and!; [done..|lia].
  - apply chain_frame; [|done]. apply Hok. by rewrite Hf.
Qed.

(** The walks from the origin fill round 0. *)
Lemma init_origin_ok (departure_time_seconds : Z) (origin_stops : list nearby_stop) :
  labels_ok (fold_left (init_origin origin_lat origin_lon departure_time_seconds) origin_stops
               {| tau := ∅; parent := ∅ |}).
Proof.
  set (round0 := λ lab : labels, ∀ s k, is_Some (tau lab !! (s, k)) →
         k = 0%nat ∧ ∃ o a, parent lab !! (s, 0%nat) =
                              Some (ParentWalk origin_lat origin_lon o a)).
  assert (∀ lab, round0 lab →
            round0 (fold_left (init_origin origin_lat origin_lon departure_time_seconds)
                      origin_stops lab)) as Hfold.
  { induction origin_stops as [|o l IH]; intros lab Hlab; [done|].
    simpl. apply IH. intros s k. unfold init_origin. simpl.
    destruct (decide ((s, k) = (nb_stop_id o, 0%nat))) as [[= -> ->]|Hne].
    - intros _. split; [done|]. rewrite lookup_insert_eq. eauto.
    - rewrite lookup_insert_ne by done. intros Hsome.
      destruct (Hlab _ _ Hsome) as (-> & o' & a & Hp). split; [done|].
      rewrite lookup_insert_ne by done. eauto. }
  intros s k Hsome. destruct (Hfold {| tau := ∅; parent := ∅ |}) with s k
    as (-> & o & a & Hp); [|done|].
  - intros s' k'. simpl. rewrite lookup_empty. by intros [? ?].
  - by eapply chain_walk.
Qed.

Lemma first_boardable_Some (test : stop_time → option Z) (idx : nat)
    (stop_times : list stop_time) (i : nat) (st : stop_time) (dep_time : Z) :
  first_boardable test idx stop_times = Some (i, st, dep_time) → test st = Some dep_time.
Proof.
  revert idx. induction stop_times as [|x l IH]; intros idx; [done|]. simpl.
  destruct (test x) eqn:Hx; [|by apply IH]. by intros [= <- <- <-].
Qed.

Lemma boardable_Some (lab : labels) (k : nat) (marked : gset string)
    (departure_time_seconds first_stop_time : Z) (best : option boarding) (st : stop_time)
    (dep_time : Z) :
  boardable lab k marked departure_time_seconds first_stop_time best st = Some dep_time →
  is_Some (tau lab !! (stop_id st, (k - 1)%nat)).
Proof.
  unfold boardable. case_decide; [|done]. by destruct (tau lab !! _).
Qed.

(** The stop of the best boarding was reached in the round before. *)
Definition boarding_ok (lab : labels) (k : nat) (best : option boarding) : Prop :=
  ∀ b, best = Some b → is_Some (tau lab !! (best_boarding_stop b, (k - 1)%nat)).

Lemma scan_trip_ok (lab : labels) (k : nat) (marked : gset string)
    (departure_time_seconds : Z) (best best' : option boarding)
    (trip : string * list stop_time) :
  boarding_ok lab k best →
  scan_trip lab k marked departure_time_seconds best trip = Some best' →
  boarding_ok lab k best'.
Proof.
  intros Hbest. destruct trip as [trip_id stop_times]. unfold scan_trip.
  destruct (head stop_times) as [first|]; [|done]. csimpl.
  destruct (first_boardable _ _ _) as [[[idx st] dep_time]|] eqn:Hscan.
  - intros [= <-] b [= <-]. simpl.
    apply first_boardable_Some in Hscan. by eapply boardable_Some.
  - by intros [= <-].
Qed.

Lemma scan_trips_ok (lab : labels) (k : nat) (marked : gset string)
    (departure_time_seconds : Z) (trips : list (string * list stop_time))
    (best best' : option boarding) :
  boarding_ok lab k best →
  fold_left_opt (scan_trip lab k marked departure_time_seconds) trips best = Some best' →
  boarding_ok lab k best'.
Proof.
  revert best. induction trips as [|trip trips IH]; intros best Hbest; simpl.
  - by intros [= <-].
  - destruct (scan_trip _ _ _ _ _ _) as [best1|] eqn:Hscan; [|done]. csimpl.
    apply IH. by eapply scan_trip_ok.
Qed.

Lemma set_label_is_Some (lab : labels) (n : string) (k : nat) (t : Z) (p : parent_record)
    (x : string * nat) :
  is_Some (tau lab !! x) → is_Some (tau (set_label lab n k t p) !! x).
Proof.
  simpl. destruct (decide (x = (n, k))) as [->|Hne].
  - by rewrite lookup_insert_eq.
  - by rewrite lookup_insert_ne.
Qed.

Lemma alight_ok (k : nat) (departure_time_seconds : Z) (b : boarding)
    (stop_times : list stop_time) (acc : labels * list string) :
  labels_ok acc.1 → is_Some (tau acc.1 !! (best_boarding_stop b, k)) →
  labels_ok (fold_left (alight (S k) departure_time_seconds b) stop_times acc).1.
Proof.
  revert acc. induction stop_times as [|st l IH]; intros [lab updated] Hok Hb; [done|].
  cbn [fold_left]. apply IH; unfold alight; case_decide; try done;
    destruct (improves lab (stop_id st) (S k) _) eqn:Himp; try done; cbn [fst].
  - by apply labels_ok_transit.
  - by apply set_label_is_Some.
Qed.

Lemma ride_route_ok (k : nat) (marked : gset string) (departure_time_seconds : Z)
    (acc acc' : labels * list string)
    (bucket : string * Z * list (string * list stop_time)) :
  labels_ok acc.1 → ride_route (S k) marked departure_time_seconds acc bucket = Some acc' →
  labels_ok acc'.1.
Proof.
  intros Hok. unfold ride_route. destruct (head bucket.2) as [sample|]; [|done]. csimpl.
  case_decide; [|by intros [= <-]].
  destruct (fold_left_opt _ _ _) as [best|] eqn:Hbest; [|done]. csimpl.
  apply scan_trips_ok in Hbest; [|done].
  destruct best as [b|]; intros [= <-]; [|done].
  apply alight_ok; [done|]. specialize (Hbest b eq_refl).
  by replace (S k - 1)%nat with k in Hbest by lia.
Qed.

Lemma ride_routes_ok (k : nat) (marked : gset string) (departure_time_seconds : Z)
    (buckets : list (string * Z * list (string * list stop_time)))
    (acc acc' : labels * list string) :
  labels_ok acc.1 →
  fold_left_opt (ride_route (S k) marked departure_time_seconds) buckets acc = Some acc' →
  labels_ok acc'.1.
Proof.
  revert acc. induction buckets as [|bucket buckets IH]; intros acc Hok; simpl.
  - by intros [= <-].
  - destruct (ride_route _ _ _ _ _) as [acc1|] eqn:Hride; [|done]. csimpl.
    apply IH. by eapply ride_route_ok.
Qed.

Lemma relax_ok (k : nat) (stop : string) (arrival_time : Z) (edges : list (string * Z))
    (lab : labels) :
  labels_ok lab → tau lab !! (stop, S k) = Some arrival_time →
  Forall (λ edge, 0 ≤ edge.2) edges →
  labels_ok (fold_left (relax (S k) stop arrival_time) edges lab).
Proof.
  intros Hok Hstop Hedges. revert lab Hok Hstop.
  induction Hedges as [|[neighbor_id walk_seconds] edges Hw _ IH]; intros lab Hok Hstop; [done|].
  cbn [fold_left]. simpl in Hw. unfold relax at 2.
  destruct (improves lab neighbor_id (S k) _) eqn:Himp; [|by apply IH].
  apply IH.
  - by apply labels_ok_transfer.
  - simpl. rewrite lookup_insert_ne; [done|]. intros [= ->].
    unfold improves in Himp. rewrite Hstop in Himp. apply bool_decide_eq_true in Himp. lia.
Qed.

Lemma walk_from_ok (k : nat) (lab : labels) (transfers : gmap string (list (string * Z)))
    (stop : string) :
  nonnegative_transfers transfers → labels_ok lab →
  labels_ok (walk_from (S k) (lab, transfers) stop).1 ∧
  (walk_from (S k) (lab, transfers) stop).2 = transfers.
Proof.
  intros Hnn Hok. unfold walk_from. case_decide as Hin; [|done].
  apply elem_of_dom in Hin as [edges Hedges]. unfold defaultdict_getitem. rewrite Hedges.
  destruct (tau lab !! (stop, S k)) as [arrival_time|] eqn:Hstop; [|done].
  split; [|done]. simpl. apply relax_ok; [done..|].
  apply Forall_forall. intros [b w] Hin. simpl. apply (Hnn stop b w).
  unfold has_transfer. by rewrite Hedges.
Qed.

Lemma walks_from_ok (k : nat) (stops : list string) (lab : labels)
    (transfers : gmap string (list (string * Z))) :
  nonnegative_transfers transfers → labels_ok lab →
  labels_ok (fold_left (walk_from (S k)) stops (lab, transfers)).1 ∧
  (fold_left (walk_from (S k)) stops (lab, transfers)).2 = transfers.
Proof.
  intros Hnn. revert lab. induction stops as [|stop stops IH]; intros lab Hok; [done|].
  cbn [fold_left]. destruct (walk_from_ok k lab transfers stop Hnn Hok) as [Hok' Htr].
  destruct (walk_from (S k) (lab, transfers) stop) as [lab' transfers']. simpl in *. subst.
  by apply IH.
Qed.

End labels.

Section rounds.

Variable set_iter : list string → list string.
Variables origin_lat origin_lon : R.

#[local] Abbreviation chain := (Raptor.chain origin_lat origin_lon).
#[local] Abbreviation labels_ok := (Raptor.labels_ok origin_lat origin_lon).

Lemma raptor_round_ok (trips_by_route : list (string * Z * list (string * list stop_time)))
    (departure_time_seconds : Z) (k : nat) (lab lab' : labels)
    (transfers transfers' : gmap string (list (string * Z))) :
  nonnegative_transfers transfers → labels_ok lab →
  raptor_round set_iter trips_by_route departure_time_seconds (S k) (lab, transfers) =
    Some (lab', transfers') →
  labels_ok lab' ∧ transfers' = transfers.
Proof.
  intros Hnn Hok. unfold raptor_round.
  destruct (fold_left_opt _ _ _) as [[lab1 updated]|] eqn:Hride; [|done]. csimpl.
  apply (ride_routes_ok origin_lat origin_lon) in Hride; [|done]. simpl in Hride.
  destruct (walks_from_ok origin_lat origin_lon k (set_iter (remove_dups updated)) lab1
              transfers Hnn Hride) as [Hok' Htr].
  intros Heq. injection Heq as Heq. rewrite Heq in Hok', Htr. by simpl in *.
Qed.

Lemma raptor_rounds_ok (trips_by_route : list (string * Z * list (string * list stop_time)))
    (departure_time_seconds : Z) (ks : list nat) (lab lab' : labels)
    (transfers transfers' : gmap string (list (string * Z))) :
  Forall (λ k, k ≠ 0%nat) ks → nonnegative_transfers transfers → labels_ok lab →
  raptor_rounds set_iter trips_by_route departure_time_seconds ks (lab, transfers) =
    Some (lab', transfers') →
  labels_ok lab' ∧ transfers' = transfers.
Proof.
  intros Hks Hnn. revert lab.
  induction Hks as [|k ks Hk _ IH]; intros lab Hok; cbn [raptor_rounds].
  - by intros [= <- <-].
  - case_decide; [by intros [= <- <-]|].
    destruct (raptor_round _ _ _ _ _) as [[lab1 transfers1]|] eqn:Hround; [|done]. csimpl.
    destruct k as [|k]; [done|].
    apply raptor_round_ok in Hround as [Hok1 ->]; [|done..]. by apply IH.
Qed.

End rounds.

(** *** Reconstruction *)

Section reconstruction.

Variable set_iter : list string → list string.
Variables origin_lat origin_lon : R.

#[local] Abbreviation chain := (Raptor.chain origin_lat origin_lon).
#[local] Abbreviation labels_ok := (Raptor.labels_ok origin_lat origin_lon).

(** Following the parent records from an entry with a chain ends, and what
    is put in front of the legs starts with the walk from the origin. *)
Lemma walk_parents_chain (tt : timetable) (lab : labels) (s : string) (k : nat) :
  chain lab s k →
  (∃ n, ∀ fuel legs, (n ≤ fuel)%nat → walk_parents fuel tt lab s k legs ≠ Timeout) ∧
  (∀ fuel legs out, walk_parents fuel tt lab s k legs = Done out →
     ∃ to d t rest, out = Walk (coordinate origin_lat origin_lon) to d t :: rest ++ legs).
Proof.
  induction 1 as [s o a Hp|s j tr b bt bst ast at' ast' Hp Hc [[n IHn] IH]
                 |s j f to a w Hp Hle Hc [[n IHn] IH]].
  - split.
    + exists 1%nat. intros [|fuel] legs Hfuel; [lia|]. simpl. by rewrite Hp.
    + intros [|fuel] legs out; [done|]. simpl. rewrite Hp. intros [= <-].
      by eexists _, _, _, [].
  - split.
    + exists (S n). intros [|fuel] legs Hfuel; [lia|]. simpl. rewrite Hp.
      destruct (trips tt !! tr); [|done].
      destruct (getitem (stops tt) (stop_id bst)); [|done].
      destruct (getitem (stops tt) (stop_id ast')); [|done].
      apply IHn. lia.
    + intros [|fuel] legs out; [done|]. simpl. rewrite Hp.
      destruct (trips tt !! tr) as [route_id|]; [|done].
      destruct (getitem (stops tt) (stop_id bst)) as [from_stop|]; [|done].
      destruct (getitem (stops tt) (stop_id ast')) as [to_stop|]; [|done].
      intros Hout. apply IH in Hout as (to & d & t & rest & ->).
      exists to, d, t,
        (rest ++ [Transit route_id tr (stop_id bst) (stop_id ast') (stop_name from_stop)
                    (stop_name to_stop) (departure_time bst) (arrival_time ast')]).
      by rewrite <-app_assoc.
  - split.
    + exists (S n). intros [|fuel] legs Hfuel; [lia|]. simpl. rewrite Hp.
      destruct (getitem (stops tt) f); [|done].
      destruct (getitem (stops tt) to); [|done].
      apply IHn. lia.
    + intros [|fuel] legs out; [done|]. simpl. rewrite Hp.
      destruct (getitem (stops tt) f) as [from_stop|]; [|done].
      destruct (getitem (stops tt) to) as [to_stop|]; [|done].
      intros Hout. apply IH in Hout as (to' & d & t & rest & ->).
      exists to', d, t, (rest ++ [Walk (stop_place f from_stop) (stop_place to to_stop)
                                    (IZR w * WALKING_SPEED_MS) w]).
      by rewrite <-app_assoc.
Qed.

Lemma candidate_routes_spec (lab : labels) (dest_stops : list nearby_stop)
    (search_window_end : Z) (best_time : Z) (best_dest : string) (best_round : nat) :
  (best_time, best_dest, best_round) ∈
    candidate_routes set_iter lab dest_stops search_window_end →
  tau lab !! (best_dest, best_round) = Some best_time.
Proof.
  unfold candidate_routes. rewrite elem_of_sorted.
  intros (dest_id & Hin & _)%list_elem_of_bind.
  apply list_elem_of_omap in Hin as (k & _ & Hk).
  destruct (tau lab !! (dest_id, k)) as [arrival_time|] eqn:Htau; [|done]. csimpl in Hk.
  case_decide; [|done]. by injection Hk as <- <- <-.
Qed.

(** The legs of a reconstructed itinerary before the merge: the walk from
    the origin, what the parent records give, and the final walk. *)
Definition unmerged (dest_lat dest_lon : R) (raw : list leg) : Prop :=
  ∃ to d t rest from d' t',
    raw = Walk (coordinate origin_lat origin_lon) to d t ::
          rest ++ [Walk from (coordinate dest_lat dest_lon) d' t'].

Lemma itinerary_unmerged (fuel : nat) (tt : timetable) (lab : labels)
    (dest_stops : list nearby_stop) (dest_lat dest_lon : R) (departure_time_seconds : Z)
    (best_time : Z) (best_dest : string) (best_round : nat) (r : result) :
  chain lab best_dest best_round →
  itinerary fuel tt lab dest_stops dest_lat dest_lon departure_time_seconds
    (best_time, best_dest, best_round) = Done (Some r) →
  ∃ raw, unmerged dest_lat dest_lon raw ∧ legs r = merge_consecutive_walk_legs raw.
Proof.
  intros Hchain. unfold itinerary.
  destruct (walk_parents _ _ _ _ _ _) as [out| |] eqn:Hwalk; [|done..].
  apply (walk_parents_chain tt lab _ _ Hchain) in Hwalk as (to & d & t & rest & ->).
  destruct (list_find _ _) as [[i dest_stop_info]|]; [|done].
  rewrite app_nil_r. set (raw := (_ :: rest) ++ [_]).
  destruct (has_duplicate_route_transfer _); [done|]. case_decide; [done|].
  intros [= <-]. exists raw. split; [|done].
  unfold raw. rewrite <-app_comm_cons. by eexists _, _, _, _, _, _, _.
Qed.

Lemma itinerary_terminates (tt : timetable) (lab : labels)
    (dest_stops : list nearby_stop) (dest_lat dest_lon : R) (departure_time_seconds : Z)
    (best_time : Z) (best_dest : string) (best_round : nat) :
  chain lab best_dest best_round →
  ∃ n, ∀ fuel, (n ≤ fuel)%nat →
    itinerary fuel tt lab dest_stops dest_lat dest_lon departure_time_seconds
      (best_time, best_dest, best_round) ≠ Timeout.
Proof.
  intros Hchain. destruct (walk_parents_chain tt lab _ _ Hchain) as [[n Hn] _].
  exists n. intros fuel Hfuel. specialize (Hn fuel [] Hfuel). unfold itinerary.
  destruct (walk_parents _ _ _ _ _ _) as [out| |]; [|done..].
  destruct (list_find _ _) as [[i dest_stop_info]|]; [|done].
  destruct (has_duplicate_route_transfer _); [done|]. by case_decide.
Qed.

Lemma itineraries_unmerged (fuel : nat) (tt : timetable) (lab : labels)
    (dest_stops : list nearby_stop) (dest_lat dest_lon : R) (departure_time_seconds : Z)
    (candidates : list (Z * string * nat)) (temp_results : list result) :
  (∀ c, c ∈ candidates → chain lab c.1.2 c.2) →
  itineraries fuel tt lab dest_stops dest_lat dest_lon departure_time_seconds candidates =
    Done temp_results →
  ∀ r, r ∈ temp_results →
    ∃ raw, unmerged dest_lat dest_lon raw ∧ legs r = merge_consecutive_walk_legs raw.
Proof.
  revert temp_results.
  induction candidates as [|[[best_time best_dest] best_round] candidates IH];
    intros temp_results Hchains; cbn [itineraries].
  - intros [= <-] r Hr. by apply elem_of_nil in Hr.
  - destruct (itinerary _ _ _ _ _ _ _ _) as [r0| |] eqn:Hr0; [|done..].
    destruct (itineraries _ _ _ _ _ _ _ _) as [rs| |] eqn:Hrs; [|done..].
    intros [= <-] r [Hr|Hr]%elem_of_app.
    + destruct r0 as [r0|]; simpl in Hr; [|by apply elem_of_nil in Hr].
      apply list_elem_of_singleton in Hr as ->.
      eapply itinerary_unmerged; [|done]. apply (Hchains (best_time, best_dest, best_round)).
      by left.
    + eapply IH; [|done..]. intros c Hc. apply Hchains. by right.
Qed.

Lemma itineraries_terminate (tt : timetable) (lab : labels)
    (dest_stops : list nearby_stop) (dest_lat dest_lon : R) (departure_time_seconds : Z)
    (candidates : list (Z * string * nat)) :
  (∀ c, c ∈ candidates → chain lab c.1.2 c.2) →
  ∃ n, ∀ fuel, (n ≤ fuel)%nat →
    itineraries fuel tt lab dest_stops dest_lat dest_lon departure_time_seconds candidates ≠
      Timeout.
Proof.
  induction candidates as [|[[best_time best_dest] best_round] candidates IH]; intros Hchains.
  - by exists 0%nat.
  - destruct IH as [n Hn]; [intros c Hc; apply Hchains; by right|].
    destruct (itinerary_terminates tt lab dest_stops dest_lat dest_lon
                departure_time_seconds best_time best_dest best_round) as [m Hm].
    { apply (Hchains (best_time, best_dest, best_round)). by left. }
    exists (n `max` m)%nat. intros fuel Hfuel. cbn [itineraries].
    specialize (Hn fuel ltac:(lia)). specialize (Hm fuel ltac:(lia)).
    destruct (itinerary _ _ _ _ _ _ _ _) as [r0| |]; [|done..].
    by destruct (itineraries _ _ _ _ _ _ _ _) as [rs| |].
Qed.

(** What the merge makes of the legs of a reconstructed itinerary. *)
Lemma merge_unmerged (dest_lat dest_lon : R) (raw : list leg) :
  unmerged dest_lat dest_lon raw →
  (∃ to d t rest,
     merge_consecutive_walk_legs raw = Walk (coordinate origin_lat origin_lon) to d t :: rest) ∧
  (∃ from d t front,
     merge_consecutive_walk_legs raw = front ++ [Walk from (coordinate dest_lat dest_lon) d t]).
Proof.
  intros (to & d & t & rest & from & d' & t' & ->).
  set (raw := _ :: rest ++ _).
  destruct (merge_collect_spec raw) as [(_ & _ & Hhead & Hlast) _]. split.
  - destruct (merge_consecutive_walk_legs raw) as [|[from0 to0 d0 t0|] legs]; [done| |done].
    simpl in Hhead. injection Hhead as <-. by eexists _, _, _, _.
  - assert (last raw ≫= walk_terminus = Some (coordinate dest_lat dest_lon)) as Hraw.
    { unfold raw. by rewrite app_comm_cons, last_snoc. }
    rewrite Hraw in Hlast.
    destruct (last (merge_consecutive_walk_legs raw)) as [[from0 to0 d0 t0|]|] eqn:Hl;
      [|done..].
    simpl in Hlast. injection Hlast as <-.
    apply last_Some in Hl as [front ->]. by eexists _, _, _, _.
Qed.

Lemma finish_subset (temp_results : list result) (rt : route) :
  rt ∈ finish temp_results → ∃ r, r ∈ temp_results ∧ route_legs rt = legs r.
Proof.
  unfold finish. intros (r & -> & Hr)%list_elem_of_fmap. exists r. split; [|done].
  apply elem_of_take in Hr as (i & Hr & _). apply list_elem_of_lookup_2 in Hr.
  apply filter_duplicate_subset in Hr. unfold prune in Hr.
  destruct temp_results as [|r0 rest]; [done|].
  by apply list_elem_of_filter in Hr as [_ Hr].
Qed.

End reconstruction.

(** *** The shape of the itineraries *)

Lemma int_of_float_nonneg (x : R) : (0 <= x)%R → 0 ≤ int_of_float x.
Proof.
  intros Hx. rewrite int_of_float_floor by done. unfold Int_part.
  destruct (archimed x) as [Hup _].
  assert (0 < up x) by (apply lt_IZR; lra). lia.
Qed.

(** The walks of the graph that [__init__] builds take no negative time. *)
Lemma init_nonnegative (tt : timetable) : nonnegative_transfers (transfers (init tt)).
Proof.
  intros a b w. simpl. unfold build_transfer_graph. rewrite link_all_spec.
  intros [Hin|(pre & id1 & s1 & post & id2 & s2 & _ & _ & (_ & _ & ->) & _)].
  - unfold has_transfer in Hin. rewrite lookup_empty in Hin. by apply elem_of_nil in Hin.
  - apply int_of_float_nonneg. unfold Rdiv, WALKING_SPEED_MS. apply Rmult_le_pos.
    + apply haversine_nonneg.
    + left. apply Rinv_0_lt_compat. lra.
Qed.

(** What [run] does once both lists of nearby stops are non-empty. *)
Lemma run_search (hash_pattern : list string → Z) (set_iter : list string → list string)
    (self : service) (origin_lat origin_lon dest_lat dest_lon : R)
    (departure_time_seconds : Z) (debug : bool) :
  nonnegative_transfers (transfers self) →
  (∃ fuel0, ∀ fuel, (fuel0 ≤ fuel)%nat →
     (run hash_pattern set_iter fuel self origin_lat origin_lon dest_lat dest_lon
        departure_time_seconds debug).1 ≠ Timeout) ∧
  (∀ fuel out self',
     run hash_pattern set_iter fuel self origin_lat origin_lon dest_lat dest_lon
       departure_time_seconds debug = (Done out, self') →
     self' = self ∧
     ∀ rt, rt ∈ routes out →
       ∃ raw, unmerged origin_lat origin_lon dest_lat dest_lon raw ∧
              route_legs rt = merge_consecutive_walk_legs raw).
Proof.
  intros Hnn. unfold run. set (tt := service_timetable self).
  destruct (find_nearby_stops tt origin_lat origin_lon) as [|o os] eqn:Ho.
  { split; [by exists 0%nat|]. intros fuel out self' [= <- <-]. split; [done|].
    intros rt Hrt. by apply elem_of_nil in Hrt. }
  destruct (find_nearby_stops tt dest_lat dest_lon) as [|d ds] eqn:Hd.
  { split; [by exists 0%nat|]. intros fuel out self' [= <- <-]. split; [done|].
    intros rt Hrt. by apply elem_of_nil in Hrt. }
  pose proof (init_origin_ok origin_lat origin_lon departure_time_seconds (o :: os)) as Hlab0.
  set (lab0 := fold_left _ (o :: os) _) in *.
  destruct (fold_left_opt _ _ _) as [trips_by_route|]; [|split; [by exists 0%nat|done]].
  destruct (raptor_rounds _ _ _ _ _) as [[lab transfers']|] eqn:Hrounds;
    [|split; [by exists 0%nat|done]].
  apply (raptor_rounds_ok set_iter origin_lat origin_lon) in Hrounds as [Hok ->];
    [|by repeat constructor|done..].
  set (candidates := candidate_routes _ _ _ _).
  assert (∀ c, c ∈ candidates → chain origin_lat origin_lon lab c.1.2 c.2) as Hchains.
  { intros [[best_time best_dest] best_round] Hc. apply candidate_routes_spec in Hc.
    apply Hok. simpl. by rewrite Hc. }
  split.
  - destruct (itineraries_terminate origin_lat origin_lon tt lab (d :: ds) dest_lat dest_lon
                departure_time_seconds candidates Hchains) as [n Hn].
    exists n. intros fuel Hfuel. specialize (Hn fuel Hfuel).
    by destruct (itineraries _ _ _ _ _ _ _ _) as [rs| |].
  - intros fuel out self'.
    destruct (itineraries _ _ _ _ _ _ _ _) as [rs| |] eqn:Hrs; [|done..].
    intros [= <- <-]. split; [by destruct self|].
    intros rt (r & Hr & ->)%finish_subset.
    by eapply itineraries_unmerged.
Qed.

(** A query answered with a merged walk: stop A at the origin, stops C and
    B at the destination on the other side of the Earth, one trip from A
    to B.  The itinerary that ends at C rides to B, walks to C and walks to
    the destination. *)
Definition stop_a : stop := {| stop_name := "A"; lat := 0; lon := 0 |}.
Definition stop_b : stop := {| stop_name := "B"; lat := 0; lon := 180 |}.
Definition stop_c : stop := {| stop_name := "C"; lat := 0; lon := 180 |}.

Definition merge_timetable : timetable :=
  {| stops := [("A", stop_a); ("C", stop_c); ("B", stop_b)];
     trips := {[ "T" := "R1" ]};
     stop_times_by_trip :=
       [("T", [ {| stop_id := "A"; arrival_time := (10, 0, 0);
                   departure_time := (10, 0, 0) |};
                {| stop_id := "B"; arrival_time := (10, 10, 0);
                   departure_time := (10, 10, 0) |} ])] |}.

Definition merge_transfers : gmap string (list (string * Z)) :=
  add_transfer (add_transfer ∅ "C" "B" 0) "B" "C" 0.

Definition at_distance_0 (id : string) (s : stop) : nearby_stop :=
  {| nb_stop_id := id; nb_stop := s; nb_distance := 0; nb_walking_time := 0 |}.

Definition merge_route : route :=
  {| route_dest_stop := "C"; route_total_time := 900;
     route_legs :=
       [Walk (coordinate 0 0) (stop_place "A" stop_a) 0 0;
        Transit "R1" "T" "A" "B" "A" "B" (10, 0, 0) (10, 10, 0);
        Walk (stop_place "B" stop_b) (coordinate 0 180) (0 + 0 * WALKING_SPEED_MS + 0) 0] |}.

Lemma int_of_float_0 : int_of_float (0 / WALKING_SPEED_MS) = 0.
Proof.
  replace (0 / WALKING_SPEED_MS)%R with 0%R by (unfold Rdiv; lra).
  rewrite int_of_float_floor by lra. unfold Int_part.
  rewrite <-(tech_up 0 1); [done|simpl; lra..].
Qed.

(** Two stops outside each other's bounding box are not linked. *)
Lemma link_unboxed id1 s1 (transfers : gmap string (list (string * Z))) id2 s2 :
  (Rabs (lat s1 - lat s2) > 0.01 ∨ Rabs (lon s1 - lon s2) > 0.01)%R →
  link id1 s1 transfers (id2, s2) = transfers.
Proof.
  intros Hfar. unfold link. case_decide; [done|]. case_decide; [done|]. destruct Hfar; lra.
Qed.

(** Two stops at the same coordinates are linked by walks of 0 s. *)
Lemma link_same id1 s1 (transfers : gmap string (list (string * Z))) id2 s2 :
  lat s1 = lat s2 → lon s1 = lon s2 →
  link id1 s1 transfers (id2, s2) =
  add_transfer (add_transfer transfers id1 id2 0) id2 id1 0.
Proof.
  intros Hlat Hlon. unfold link. rewrite Hlat, Hlon.
  replace (lat s2 - lat s2)%R with 0%R by lra. replace (lon s2 - lon s2)%R with 0%R by lra.
  rewrite Rabs_R0. rewrite !decide_False by lra. rewrite haversine_same.
  rewrite decide_True by (unfold MAX_WALKING_DISTANCE_M; lra).
  by rewrite int_of_float_0.
Qed.

Lemma init_merge_timetable :
  init merge_timetable =
  {| service_timetable := merge_timetable; transfers := merge_transfers |}.
Proof.
  unfold init, build_transfer_graph. cbn [merge_timetable stops link_all fold_left].
  assert (Rabs (0 - 180) > 0.01)%R as Hfar by (rewrite Rabs_minus_sym, Rabs_right; lra).
  rewrite !(link_unboxed "A") by (by right).
  by rewrite link_same.
Qed.

Lemma nearby_origin_merge_timetable :
  find_nearby_stops merge_timetable 0 0 = [at_distance_0 "A" stop_a].
Proof.
  unfold find_nearby_stops. cbn [merge_timetable stops]. csimpl. unfold nearby_of.
  cbn [lat lon stop_a stop_b stop_c].
  rewrite haversine_same, haversine_antipode.
  pose proof PI_RGT_0. pose proof PI2_3_2.
  rewrite decide_True by (unfold MAX_WALKING_DISTANCE_M; lra).
  rewrite !decide_False by (unfold MAX_WALKING_DISTANCE_M; lra).
  by rewrite int_of_float_0.
Qed.

Lemma nearby_destination_merge_timetable :
  find_nearby_stops merge_timetable 0 180 =
  [at_distance_0 "C" stop_c; at_distance_0 "B" stop_b].
Proof.
  unfold find_nearby_stops. cbn [merge_timetable stops]. csimpl. unfold nearby_of.
  cbn [lat lon stop_a stop_b stop_c].
  rewrite haversine_same, (haversine_sym 0 180), haversine_antipode.
  pose proof PI_RGT_0. pose proof PI2_3_2.
  rewrite decide_False by (unfold MAX_WALKING_DISTANCE_M; lra).
  rewrite !decide_True by (unfold MAX_WALKING_DISTANCE_M; lra).
  rewrite int_of_float_0. unfold sorted. cbn [foldr insort nb_distance].
  by rewrite decide_True by (simpl; lra).
Qed.

(** The query from A's coordinates to the antipode at 9:55 returns the one
    itinerary, whose last leg is the merged walk. *)
Lemma run_merge_timetable :
  run (λ _, 0) (λ l, l) 8 (init merge_timetable) 0 0 0 180 35700 false =
  (Done {| routes := [merge_route]; debug_logs := None |}, init merge_timetable).
Proof.
  unfold run. rewrite !init_merge_timetable. cbn [service_timetable transfers].
  rewrite nearby_origin_merge_timetable, nearby_destination_merge_timetable.
  by vm_compute.
Qed.

End RaptorFacts.

(** * Further properties of the three services *)

(** ** Loops *)

Module LoopFacts.

Lemma fold_left_invariant {A B : Type} (P : A → Prop) (f : A → B → A) (l : list B) (a : A) :
  P a → (∀ a b, b ∈ l → P a → P (f a b)) → P (fold_left f l a).
Proof.
  revert a. induction l as [|b l IH]; intros a Ha Hstep; simpl; [done|].
  apply IH; [apply Hstep; [left|done]|]. intros a' b' Hb'. apply Hstep. by right.
Qed.

Lemma fold_left_reaches {A B : Type} (Q : A → Prop) (f : A → B → A) (l : list B) (a : A)
    (b0 : B) :
  b0 ∈ l → (∀ a, Q (f a b0)) → (∀ a b, Q a → Q (f a b)) → Q (fold_left f l a).
Proof.
  intros Hin Hb0 Hstep. revert a. induction l as [|b l IH]; intros a; simpl.
  { by apply elem_of_nil in Hin. }
  apply elem_of_cons in Hin as [<-|Hin]; [|by apply IH].
  apply fold_left_invariant; [apply Hb0|]. intros. by apply Hstep.
Qed.

End LoopFacts.

(** ** The realistic-time synthesiser, continued *)

Module SynthesiserFacts.
Import Py PyFacts RealisticStopTimes RealisticStopTimesFacts.
#[local] Open Scope Z_scope.


Lemma collect_delay_lookup raw_delays row key :
  key.1 ≠ "" → key.2 ≠ "" →
  default [] (collect_delay raw_delays row !! key) =
  default [] (raw_delays !! key) ++ delays_of [row] key.
Proof.
  intros Ht Hs. unfold collect_delay, delays_of. csimpl.
  destruct (decide ((log_trip_id row, log_stop_id row) = key)) as [<-|Hne].
  - simpl in *. rewrite decide_False by tauto.
    destruct (log_delay_seconds row) as [d|]; csimpl.
    + by rewrite lookup_insert_eq.
    + by rewrite app_nil_r.
  - rewrite app_nil_r. case_decide; [done|].
    destruct (log_delay_seconds row) as [d|]; [|done].
    by rewrite lookup_insert_ne.
Qed.

Lemma collect_delay_nonempty raw_delays row :
  (∀ key l, raw_delays !! key = Some l → l ≠ [] ∧ key.1 ≠ "" ∧ key.2 ≠ "") →
  ∀ key l, collect_delay raw_delays row !! key = Some l → l ≠ [] ∧ key.1 ≠ "" ∧ key.2 ≠ "".
Proof.
  intros Hinv key l. unfold collect_delay. case_decide as Hids; [apply Hinv|].
  destruct (log_delay_seconds row) as [d|]; [|apply Hinv].
  destruct (decide ((log_trip_id row, log_stop_id row) = key)) as [<-|Hne].
  - rewrite lookup_insert_eq. intros [= <-]. simpl. split; [by intros ?%app_nil_r_inv|tauto].
  - rewrite lookup_insert_ne by done. apply Hinv.
Qed.

Lemma delays_of_app log1 log2 key : delays_of (log1 ++ log2) key = delays_of log1 key ++ delays_of log2 key.
Proof. unfold delays_of. by rewrite omap_app. Qed.

Lemma collect_delays_lookup log raw_delays key :
  key.1 ≠ "" → key.2 ≠ "" →
  default [] (fold_left collect_delay log raw_delays !! key) =
  default [] (raw_delays !! key) ++ delays_of log key.
Proof.
  intros Ht Hs. revert raw_delays. induction log as [|row log IH]; intros raw_delays; simpl.
  - by rewrite app_nil_r.
  - rewrite IH, collect_delay_lookup by done.
    rewrite <-app_assoc. f_equal. by rewrite <-delays_of_app.
Qed.

Lemma collect_delays_nonempty log raw_delays :
  (∀ key l, raw_delays !! key = Some l → l ≠ [] ∧ key.1 ≠ "" ∧ key.2 ≠ "") →
  ∀ key l, fold_left collect_delay log raw_delays !! key = Some l →
           l ≠ [] ∧ key.1 ≠ "" ∧ key.2 ≠ "".
Proof.
  revert raw_delays. induction log as [|row log IH]; intros raw_delays Hinv; simpl; [done|].
  apply IH. by apply collect_delay_nonempty.
Qed.

(** What the rows that the loop reads to the end leave in [raw_delays]. *)
Lemma collect_raw_delays_lookup (log : list arrival_log_row) (key : string * string) :
  collect_raw_delays log !! key =
    if decide (key.1 = "" ∨ key.2 = "") then None
    else match delays_of log key with
         | [] => None
         | delays => Some delays
         end.
Proof.
  unfold collect_raw_delays.
  pose proof (collect_delays_nonempty log ∅) as Hne.
  destruct (fold_left collect_delay log ∅ !! key) as [l|] eqn:Hl.
  - destruct (Hne ltac:(by intros ?? ?%lookup_empty_Some) key l Hl) as (Hl0 & Ht & Hs).
    rewrite decide_False by tauto.
    pose proof (collect_delays_lookup log ∅ key Ht Hs) as Hd.
    rewrite Hl, lookup_empty in Hd. simpl in Hd. rewrite <-Hd. by destruct l.
  - case_decide as Hids; [done|].
    pose proof (collect_delays_lookup log ∅ key ltac:(tauto) ltac:(tauto)) as Hd.
    rewrite Hl, lookup_empty in Hd. simpl in Hd. by rewrite <-Hd.
Qed.

Lemma read_row_None (row : csv_row) : read_row row = None ↔ aborts row.
Proof.
  unfold read_row, aborts.
  destruct (csv_trip_id row) as [trip_id|]; [|by split; [left|]].
  destruct (csv_stop_id row) as [stop_id|]; [|by split; [right; left|]].
  destruct (csv_delay_seconds row) as [delay_str|]; [|by split; [right; right; left|]].
  csimpl. case_decide as Hids.
  - split; [done|]. intros [?|[?|[?|(t & s & [= <-] & [= <-] & ? & ? & _)]]]; try done. tauto.
  - destruct delay_str; split; try done;
      try (by intros [?|[?|[?|(t & s & _ & _ & _ & _ & ?)]]]).
    intros _. right. right. right. exists trip_id, stop_id.
    split; [done|]. split; [done|]. split; [tauto|]. split; [tauto|done].
Qed.

Lemma read_row_delay (row : csv_row) (r : arrival_log_row) (key : string * string) :
  read_row row = Some r → key.1 ≠ "" → key.2 ≠ "" →
  delays_of [r] key = csv_delays_of [row] key.
Proof.
  unfold read_row, delays_of, csv_delays_of. intros Hrow Ht Hs. csimpl.
  destruct (csv_trip_id row) as [trip_id|]; [|done].
  destruct (csv_stop_id row) as [stop_id|]; [|done].
  destruct (csv_delay_seconds row) as [delay_str|]; [|done]. csimpl in Hrow.
  destruct (decide (trip_id = "" ∨ stop_id = "")) as [Hids|Hids].
  - injection Hrow as <-. simpl.
    assert ((trip_id, stop_id) ≠ key) as Hkey by (intros <-; simpl in *; tauto).
    destruct delay_str; by destruct (decide ((trip_id, stop_id) = key)).
  - destruct delay_str; [..|done]; injection Hrow as <-; simpl;
      by destruct (decide ((trip_id, stop_id) = key)).
Qed.

Lemma read_rows_delays (rows : list csv_row) (log : list arrival_log_row)
    (key : string * string) :
  mapM read_row rows = Some log → key.1 ≠ "" → key.2 ≠ "" →
  delays_of log key = csv_delays_of rows key.
Proof.
  intros Hrows Ht Hs. apply mapM_Some in Hrows.
  induction Hrows as [|row r rows log Hrow _ IH]; [done|].
  change (delays_of ([r] ++ log) key = csv_delays_of ([row] ++ rows) key).
  unfold csv_delays_of. rewrite delays_of_app, omap_app. fold (csv_delays_of rows key).
  rewrite IH. f_equal. by apply read_row_delay.
Qed.

(** The first pass of [_parse_arrival_log] on the rows of the file.  A
    short row, or a row with both identifiers whose delay overflows, ends
    the parse and [delay_stats] stays as it was.  Without such a row a key
    with two non-empty ids holds the delays of its rows in file order,
    rows with an empty delay or one that [float] rejects left out; a key
    gets no entry when no row gives it a delay, and a key with an empty
    id never gets one. *)
Theorem raw_delays_by_key (rows : list csv_row)
    (delay_stats : gmap (string * string) (list Z)) :
  match first_pass rows with
  | None =>
      Exists aborts rows ∧ parse_arrival_log_rows rows delay_stats = delay_stats
  | Some raw_delays =>
      Forall (λ row, ¬ aborts row) rows ∧
      ∀ key, raw_delays !! key =
               if decide (key.1 = "" ∨ key.2 = "") then None
               else match csv_delays_of rows key with
                    | [] => None
                    | delays => Some delays
                    end
  end.
Proof.
  unfold first_pass, parse_arrival_log_rows.
  destruct (mapM read_row rows) as [log|] eqn:Hrows; csimpl.
  - split.
    + apply mapM_Some in Hrows.
      induction Hrows as [|row r rows log Hrow _ IH]; constructor; [|done].
      rewrite <-read_row_None. congruence.
    + intros key. rewrite collect_raw_delays_lookup. case_decide as Hids; [done|].
      by rewrite (read_rows_delays rows log key Hrows) by tauto.
  - split; [|done]. induction rows as [|row rows IH]; [done|]. csimpl in Hrows.
    destruct (read_row row) as [r|] eqn:Hrow; csimpl in Hrows.
    + right. apply IH. by destruct (mapM read_row rows).
    + left. by apply read_row_None.
Qed.


(** [_adjust_gtfs_time] moves a time by the delay, stops at 00:00:00
    instead of going below it, and writes the result with minutes and
    seconds below 60 (the hours may pass 23). *)
Theorem adjust_gtfs_time_seconds (time_str : gtfs_time) (delay_seconds : Z) :
  let adjusted := adjust_gtfs_time time_str delay_seconds in
  time_seconds adjusted = Z.max 0 (time_seconds time_str + delay_seconds) ∧
  0 ≤ hours adjusted ∧ 0 ≤ minutes adjusted < 60 ∧ 0 ≤ seconds adjusted < 60.
Proof.
  simpl. unfold adjust_gtfs_time.
  set (total := time_seconds time_str + delay_seconds).
  set (adjusted_seconds := if decide (total < 0) then 0 else total).
  assert (adjusted_seconds = Z.max 0 total ∧ 0 ≤ adjusted_seconds) as [Hmax Hpos].
  { unfold adjusted_seconds. case_decide; lia. }
  rewrite time_seconds_format, <-Hmax. unfold format_seconds. simpl.
  split_and!; [done|..]; Z.to_euclidean_division_equations; lia.
Qed.

Lemma median_between (data : list Z) (lo hi : Z) :
  data ≠ [] → Forall (λ d, lo ≤ d ≤ hi) data → lo ≤ median data ≤ hi.
Proof.
  intros Hne Hall. unfold median. rewrite length_sorted_int.
  assert (0 < length data)%nat as Hlen by (destruct data; [done|simpl; lia]).
  assert (∀ i, (i < length data)%nat → lo ≤ index (sorted_int data) i ≤ hi) as Hidx.
  { intros i Hi. rewrite Forall_forall in Hall. apply Hall.
    by apply index_sorted_int_elem_of. }
  case_decide as Hodd.
  - apply Hidx. apply Nat.Div0.div_lt_upper_bound. lia.
  - assert (2 ≤ length data)%nat as Hlen2.
    { destruct (length data) as [|[|n]] eqn:Hn; [lia|done|lia]. }
    assert (length data / 2 < length data)%nat as Hhalf
      by (apply Nat.Div0.div_lt_upper_bound; lia).
    pose proof (Hidx (length data / 2 - 1)%nat ltac:(lia)).
    pose proof (Hidx (length data / 2)%nat Hhalf).
    Z.to_euclidean_division_equations. lia.
Qed.

(** The representative delay of a (trip, stop) pair lies between the least
    and the greatest delay stored for it. *)
Theorem average_delay_between (delay_stats : gmap (string * string) (list Z))
    (trip_id stop_id : string) (delays : list Z) (lo hi : Z) :
  delay_stats !! (trip_id, stop_id) = Some delays → delays ≠ [] →
  Forall (λ d, lo ≤ d ≤ hi) delays →
  lo ≤ calculate_average_delay delay_stats trip_id stop_id ≤ hi.
Proof.
  intros Hkey Hne Hall. unfold calculate_average_delay. rewrite Hkey.
  destruct delays as [|d delays]; [done|]. by apply median_between.
Qed.

Lemma average_delay_between_witness :
  -30 ≤ calculate_average_delay {[ ("T", "S") := [-30; 0; 60; 90] ]} "T" "S" ≤ 90.
Proof.
  apply (average_delay_between _ "T" "S" [-30; 0; 60; 90]).
  - apply lookup_singleton_eq.
  - done.
  - repeat constructor; lia.
Defined.


(** *** What the synthesiser does to a row *)

(** A row after some passes of the inner loop: as it was, or with both
    time columns set to one time, which happens to rows with an arrival
    time only. *)
Definition retimed (st st' : stop_time) : Prop :=
  st' = st ∨ (is_Some (arrival_time st) ∧ ∃ t, st' = set_times st t).

Definition same_times (st : stop_time) : Prop :=
  is_Some (arrival_time st) ∧ departure_time st = arrival_time st.

Lemma retimed_refl st : retimed st st.
Proof. by left. Qed.

Lemma retimed_trans st1 st2 st3 : retimed st1 st2 → retimed st2 st3 → retimed st1 st3.
Proof.
  intros [->|(Ha & t & ->)] [->|(Ha' & t' & ->)]; [by left|right; eauto|right; eauto|].
  right. split; [done|]. by exists t'.
Qed.

Lemma retimed_same_times st st' : same_times st → retimed st st' → same_times st'.
Proof. intros Hst [->|(_ & t & ->)]; [done|]. by split. Qed.

Lemma process_stop_retimed delay_stats trip (data : list stop_time) prev i j st :
  data !! j = Some st →
  ∃ st', (process_stop delay_stats trip (data, prev) i).1 !! j = Some st' ∧ retimed st st' ∧
         (i = j → is_Some (arrival_time st) → same_times st').
Proof.
  intros Hj. destruct (candidate_at delay_stats trip data i) as [c|] eqn:Hc.
  - unfold candidate_at in Hc.
    destruct (data !! i) as [sti|] eqn:Hsti; simpl in Hc; [|done].
    destruct (arrival_time sti) as [a|] eqn:Ha; simpl in Hc; [|done].
    destruct (process_stop_timed delay_stats trip data prev i sti a Hsti Ha) as (t & _ & ->).
    simpl. destruct (decide (i = j)) as [->|Hne].
    + rewrite list_lookup_insert_eq by (by eapply lookup_lt_Some).
      assert (sti = st) as -> by congruence.
      exists (set_times st t). split_and!; [done| |by split].
      right. split; [by rewrite Ha|by exists t].
    + rewrite list_lookup_insert_ne by done. exists st. split_and!; [done|by left|done].
  - rewrite process_stop_untimed by done. exists st. split_and!; [done|by left|].
    intros -> [a Ha]. unfold candidate_at in Hc. rewrite Hj in Hc. simpl in Hc.
    by rewrite Ha in Hc.
Qed.

Lemma process_stops_retimed delay_stats trip (idxs : list nat) (data : list stop_time)
    prev j st :
  data !! j = Some st →
  ∃ st', (fold_left (process_stop delay_stats trip) idxs (data, prev)).1 !! j = Some st' ∧
         retimed st st' ∧
         ((same_times st ∨ (j ∈ idxs ∧ is_Some (arrival_time st))) → same_times st').
Proof.
  revert data prev st. induction idxs as [|i idxs IH]; intros data prev st Hj.
  { exists st. split_and!; [done|by left|]. intros [?|[[]%elem_of_nil _]]. done. }
  cbn [fold_left].
  destruct (process_stop_retimed delay_stats trip data prev i j st Hj) as (st1 & Hst1 & Hre1 & Hsame1).
  destruct (process_stop delay_stats trip (data, prev) i) as [data1 prev1]. simpl in Hst1.
  destruct (IH data1 prev1 st1 Hst1) as (st' & Hst' & Hre & Hsame).
  exists st'. split_and!; [done|by eapply retimed_trans|].
  intros Hcase. apply Hsame.
  destruct Hcase as [Hst|[[->|Hin]%elem_of_cons Ha]].
  - left. by eapply retimed_same_times.
  - left. by apply Hsame1.
  - destruct Hre1 as [->|(_ & t & ->)]; [right; by split|left; by split].
Qed.

Lemma process_trips_retimed delay_stats (trips : list (string * list nat))
    (data : list stop_time) j st :
  data !! j = Some st →
  ∃ st', fold_left (process_trip delay_stats) trips data !! j = Some st' ∧
         retimed st st' ∧
         ((same_times st ∨ ((∃ tr, tr ∈ trips ∧ j ∈ tr.2) ∧ is_Some (arrival_time st))) →
          same_times st').
Proof.
  revert data st. induction trips as [|tr trips IH]; intros data st Hj.
  { exists st. split_and!; [done|by left|].
    intros [?|[(tr & []%elem_of_nil & _) _]]. done. }
  cbn [fold_left]. unfold process_trip at 2.
  destruct (process_stops_retimed delay_stats tr.1 tr.2 data None j st Hj)
    as (st1 & Hst1 & Hre1 & Hsame1).
  destruct (IH _ st1 Hst1) as (st' & Hst' & Hre & Hsame).
  exists st'. split_and!; [done|by eapply retimed_trans|].
  intros Hcase. apply Hsame.
  destruct Hcase as [Hst|[(tr' & [->|Hin]%elem_of_cons & Hjin) Ha]].
  - left. apply Hsame1. by left.
  - left. apply Hsame1. right. by split.
  - destruct Hre1 as [->|(_ & t & ->)]; [right; split; [by exists tr'|done]|left; by split].
Qed.

(** [calculate_realistic_stop_times] keeps the rows of the file in their
    places and changes nothing but the two time columns: a row without a
    trip id or without an arrival time is written as it was read; any
    other row is written with its trip id, stop sequence and stop id, and
    with one time in both its arrival and its departure column. *)
Theorem realistic_rows (delay_stats : gmap (string * string) (list Z))
    (data : list stop_time) :
  let out := calculate_realistic_stop_times delay_stats data in
  length out = length data ∧
  ∀ j st, data !! j = Some st →
    ∃ st', out !! j = Some st' ∧
      trip_id st' = trip_id st ∧ stop_sequence st' = stop_sequence st ∧
      stop_id st' = stop_id st ∧
      (if decide (trip_id st = "" ∨ arrival_time st = None) then st' = st
       else is_Some (arrival_time st') ∧ departure_time st' = arrival_time st').
Proof.
  simpl. unfold calculate_realistic_stop_times.
  set (trips := sort_trips data (group_by_trip data)).
  destruct (process_trips_keys delay_stats trips data) as [Hlen Hkeys].
  split; [done|]. intros j st Hj.
  destruct (process_trips_retimed delay_stats trips data j st Hj) as (st' & Hst' & Hre & Hsame).
  exists st'. split; [done|].
  specialize (Hkeys j). rewrite Hst', Hj in Hkeys. injection Hkeys as Ht Hseq Hs.
  split_and!; [done..|].
  destruct (sort_trips_spec data) as (_ & Hmem & Hall). fold trips in Hmem, Hall.
  case_decide as Hrow.
  - destruct Hrow as [Htrip|Harr].
    + pose proof (process_trips_frame delay_stats trips data j) as Hframe.
      rewrite Hframe in Hst'; [congruence|].
      intros [t idxs] Hin. destruct (Hmem t idxs Hin) as [Hnd Hown]. split; [done|].
      simpl. intros Hjin. specialize (Hown j Hjin). rewrite Hj in Hown. simpl in Hown.
      injection Hown as Hown. rewrite Htrip in Hown. subst t.
      destruct (group_by_trip_spec data) as [_ Hget]. unfold trips, sort_trips in Hin.
      apply list_elem_of_fmap in Hin as ([t' l] & Heq & Hin). simpl in Heq.
      injection Heq as <- _.
      apply elem_of_getitem in Hin; [|apply group_by_trip_spec].
      rewrite Hget in Hin. case_decide as Hcase; [|done]. by destruct Hcase.
    + destruct Hre as [->|([a Ha] & _)]; [done|congruence].
  - apply Hsame. right. split.
    + exists (trip_id st, stop_sequence_order data (trip_id st)). split.
      * apply Hall; [tauto|]. intros Hnil.
        assert (j ∈ trip_positions data (trip_id st)) as Hin
          by (apply elem_of_trip_positions; by rewrite Hj).
        rewrite Hnil in Hin. by apply elem_of_nil in Hin.
      * simpl. unfold stop_sequence_order. rewrite elem_of_sorted.
        apply elem_of_trip_positions. by rewrite Hj.
    + destruct (arrival_time st); [eauto|tauto].
Qed.

(** *** Candidates and written times *)

Lemma omap_pointwise {A B C : Type} (R : B → C → Prop) (f : A → option B) (g : A → option C)
    (l : list A) :
  (∀ x, f x = None ↔ g x = None) → Forall2 R (omap f l) (omap g l) →
  ∀ x a b, x ∈ l → f x = Some a → g x = Some b → R a b.
Proof.
  intros Hfg. induction l as [|y l IH]; intros Hall x a b Hx Ha Hb.
  { by apply elem_of_nil in Hx. }
  csimpl in Hall. pose proof (Hfg y) as Hy.
  destruct (f y) as [fy|] eqn:Hfy, (g y) as [gy|] eqn:Hgy; simpl in Hall.
  - apply Forall2_cons in Hall as [Hhead Hall].
    apply elem_of_cons in Hx as [->|Hx]; [|by eapply IH]. congruence.
  - destruct Hy as [_ Hy]. by specialize (Hy eq_refl).
  - destruct Hy as [Hy _]. by specialize (Hy eq_refl).
  - apply elem_of_cons in Hx as [->|Hx]; [congruence|by eapply IH].
Qed.

Lemma enforced_ge (prev : option Z) (cands : list Z) :
  Forall2 (λ x c, c ≤ x) (enforced prev cands) cands.
Proof.
  revert prev. induction cands as [|c cands IH]; intros prev; simpl; constructor.
  - apply enforce_ge.
  - apply IH.
Qed.

Lemma enforced_increasing_id (prev : option Z) (cands : list Z) :
  (∀ p, prev = Some p → Forall (λ c, p < c) cands) → StronglySorted Z.lt cands →
  enforced prev cands = cands.
Proof.
  intros Hprev Hsorted. revert prev Hprev.
  induction Hsorted as [|c cands _ IH Hc]; intros prev Hprev; simpl; [done|].
  assert (enforce prev c = c) as ->.
  { unfold enforce. destruct prev as [p|]; [|done].
    specialize (Hprev p eq_refl). apply Forall_cons in Hprev as [Hp _].
    rewrite decide_False; [done|lia]. }
  f_equal. apply IH. by intros p [= <-].
Qed.

(** The time written for a stop is never earlier than its candidate (the
    scheduled time plus the representative delay, not below 0); on a trip
    whose candidates are strictly increasing in stop-sequence order every
    stop gets its candidate. *)
Theorem written_time_and_candidate (delay_stats : gmap (string * string) (list Z))
    (data : list stop_time) (t : string) (j : nat) (c : Z) :
  t ≠ "" → j ∈ trip_positions data t → candidate_at delay_stats t data j = Some c →
  let out := calculate_realistic_stop_times delay_stats data in
  ∃ x, arrival_seconds out j = Some x ∧ c ≤ x ∧
       (StronglySorted Z.lt
          (omap (candidate_at delay_stats t data) (stop_sequence_order data t)) → x = c).
Proof.
  intros Ht Hj Hc out.
  pose proof (calculate_enforced delay_stats data t Ht) as Henf. simpl in Henf. fold out in Henf.
  assert (∀ i, arrival_seconds out i = None ↔ candidate_at delay_stats t data i = None) as Hnone.
  { intros i. unfold out. by rewrite calculate_None, candidate_at_None. }
  assert (j ∈ stop_sequence_order data t) as Hin
    by (unfold stop_sequence_order; by rewrite elem_of_sorted).
  destruct (arrival_seconds out j) as [x|] eqn:Hx; [|apply Hnone in Hx; congruence].
  exists x. split_and!; [done|..].
  - apply (omap_pointwise (λ x c, c ≤ x) _ _ (stop_sequence_order data t) Hnone)
      with (x := j); [|done..].
    rewrite Henf. apply enforced_ge.
  - intros Hsorted. rewrite enforced_increasing_id in Henf by done.
    apply (omap_pointwise eq _ _ (stop_sequence_order data t) Hnone) with (x := j);
      [|done..].
    rewrite Henf. apply Forall_Forall2_diag, Forall_true. done.
Qed.

Lemma written_time_and_candidate_witness :
  ∃ x, arrival_seconds (calculate_realistic_stop_times scenario4_stats scenario4_data) 1 =
         Some x ∧ 36180 ≤ x.
Proof.
  destruct (written_time_and_candidate scenario4_stats scenario4_data "T" 1 36180)
    as (x & Hx & Hle & _); [done|by apply elem_of_trip_positions|by vm_compute|].
  by exists x.
Defined.

End SynthesiserFacts.

(** ** The arrival observer, continued *)

Module ObserverFacts.
Import Py PyFacts LoopFacts Geo GeoFacts ArrivalLogger ArrivalLoggerFacts.
#[local] Open Scope Z_scope.

(** *** The scheduled instant *)

(** For a scheduled time of day up to 36:00:00, [_parse_gtfs_time] gives
    an instant at that time of day, at most 12 hours away from [now], so
    the delay computed from it is between -43200 and 43200 seconds. *)
Theorem scheduled_instant_near (h m s now : Z) :
  let scheduled := h * 3600 + m * 60 + s in
  0 ≤ scheduled ≤ 129600 →
  ∃ dt, parse_gtfs_time (Some (h, m, s)) now = Some dt ∧
        (dt - scheduled * MICROSECONDS) mod DAY = 0 ∧
        Z.abs (dt - now) ≤ 43200 * MICROSECONDS ∧
        -43200 ≤ Z.quot (now - dt) MICROSECONDS ≤ 43200.
Proof.
  intros scheduled Hs. unfold parse_gtfs_time. fold scheduled.
  eexists. split; [done|]. unfold min_by, DAY, MICROSECONDS in *.
  set (T := scheduled * 1000000) in *.
  pose proof (Z.mod_pos_bound now (86400 * 1000000) ltac:(lia)) as Hr.
  pose proof (Z.div_mod now (86400 * 1000000) ltac:(lia)) as Hq.
  set (r := now mod (86400 * 1000000)) in *.
  set (q := now / (86400 * 1000000)) in *.
  assert (0 ≤ T ≤ 129600 * 1000000) as HT by (unfold T; lia).
  repeat case_decide; split_and!;
    try (Z.to_euclidean_division_equations; lia).
Qed.

Lemma scheduled_instant_near_witness :
  0 ≤ 10 * 3600 + 0 * 60 + 0 ≤ 129600 ∧
  ∃ dt, parse_gtfs_time (Some (10, 0, 0)) 36300000000 = Some dt ∧
        (dt - (10 * 3600 + 0 * 60 + 0) * MICROSECONDS) mod DAY = 0 ∧
        Z.abs (dt - 36300000000) ≤ 43200 * MICROSECONDS ∧
        -43200 ≤ Z.quot (36300000000 - dt) MICROSECONDS ≤ 43200.
Proof.
  split; [lia|]. apply (scheduled_instant_near 10 0 0 36300000000). lia.
Defined.

(** *** Reads of the cache *)

(** A read of the latest arrival of a trip leaves the log and the entries
    of every other trip as they are, and a second read at the same instant
    gives the same answer and changes nothing. *)
Theorem read_is_local (trip_id : string) (now : Z) (self : logger) :
  let answer := get_latest_arrival trip_id now self in
  arrival_log answer.2 = arrival_log self ∧
  (∀ other, other ≠ trip_id →
     vehicle_latest_arrival answer.2 !! other = vehicle_latest_arrival self !! other ∧
     vehicle_arrivals answer.2 !! other = vehicle_arrivals self !! other) ∧
  get_latest_arrival trip_id now answer.2 = answer.
Proof.
  simpl. unfold get_latest_arrival.
  destruct (vehicle_latest_arrival self !! trip_id) as [entry|] eqn:Hentry.
  - case_decide as Hage; simpl.
    + split_and!; [done| |by rewrite lookup_delete_eq].
      intros other Hne. by rewrite !lookup_delete_ne.
    + split_and!; [done..|]. rewrite Hentry. by rewrite decide_False.
  - simpl. by rewrite Hentry.
Qed.

(** *** The cache and the observed stops *)


(** The cache agrees with the observed stops: an entry is filed under the
    trip it names, and its stop is one of the stops observed for that
    trip. *)
Definition consistent (self : logger) : Prop :=
  ∀ trip entry, vehicle_latest_arrival self !! trip = Some entry →
    arr_trip_id (entry_arrival entry) = trip ∧
    arr_stop_id (entry_arrival entry) ∈ observed self trip.

Lemma record_arrival_consistent now trip_id route_id stop_id name info self :
  consistent self → consistent (record_arrival now trip_id route_id stop_id name info self).
Proof.
  intros Hself trip entry. unfold record_arrival. case_decide as Hseen; simpl.
  - intros Hentry. destruct (Hself trip entry Hentry) as [Htrip Hstop]. split; [done|].
    unfold observed in *. simpl. destruct (decide (trip = trip_id)) as [->|Hne].
    + by rewrite lookup_insert_eq.
    + by rewrite lookup_insert_ne.
  - unfold observed. simpl. destruct (decide (trip = trip_id)) as [->|Hne].
    + rewrite !lookup_insert_eq. intros [= <-]. simpl. split; [done|set_solver].
    + rewrite !lookup_insert_ne by done. apply Hself.
Qed.

Lemma check_stop_consistent static now trip_id route_id lat lon self info :
  consistent self → consistent (check_stop static now trip_id route_id lat lon self info).
Proof.
  intros Hself. unfold check_stop. case_decide; [done|].
  destruct (stops static !! info_stop_id info) as [stop|]; [|done].
  case_decide; [done|]. by apply record_arrival_consistent.
Qed.

Lemma check_entity_consistent static now acc entity :
  consistent acc.1 → consistent (check_entity static now acc entity).1.
Proof.
  destruct acc as [self ids]. intros Hself. unfold check_entity.
  destruct (has_vehicle_position entity); simpl; [|done].
  destruct (entity_trip_id entity) as [trip_id|]; [|done].
  case_decide; [done|].
  destruct (trip_stops static !! trip_id) as [infos|]; [|done]. simpl.
  apply fold_left_invariant; [done|]. intros. by apply check_stop_consistent.
Qed.

Lemma touch_lookup now (ids : list string) (latest : gmap string cache_entry) trip :
  fold_left (touch now) ids latest !! trip =
    if decide (trip ∈ ids)
    then (λ entry, {| entry_arrival := entry_arrival entry; last_seen := now |}) <$>
           latest !! trip
    else latest !! trip.
Proof.
  revert latest. induction ids as [|id ids IH]; intros latest; [done|].
  cbn [fold_left]. rewrite IH. unfold touch.
  destruct (decide (trip = id)) as [->|Hne].
  - rewrite (decide_True (P := id ∈ id :: ids)) by left.
    destruct (latest !! id) as [entry|] eqn:Hentry.
    + rewrite lookup_insert_eq. by case_decide.
    + rewrite Hentry. by case_decide.
  - assert (∀ l : gmap string cache_entry,
              match l !! id with
              | Some entry =>
                  <[id := {| entry_arrival := entry_arrival entry; last_seen := now |}]> l
              | None => l
              end !! trip = l !! trip) as Hother.
    { intros l. destruct (l !! id); [by rewrite lookup_insert_ne|done]. }
    rewrite Hother. destruct (decide (trip ∈ ids)) as [Hin|Hin].
    + by rewrite decide_True by (by right).
    + rewrite decide_False; [done|]. intros [?|?]%elem_of_cons; done.
Qed.

Lemma poll_once_consistent static feed now self :
  consistent self → consistent (poll_once static feed now self).
Proof.
  intros Hself. unfold poll_once. destruct feed as [entities|]; [|done].
  assert (consistent (fold_left (check_entity static now) entities (self, [])).1) as Hfold.
  { apply (fold_left_invariant (λ acc, consistent acc.1)); [done|].
    intros. by apply check_entity_consistent. }
  destruct (fold_left (check_entity static now) entities (self, [])) as [s ids].
  simpl in Hfold. intros trip entry. simpl. rewrite touch_lookup.
  unfold observed. simpl. case_decide.
  - destruct (vehicle_latest_arrival s !! trip) as [entry0|] eqn:Hentry; [|done].
    simpl. intros [= <-]. simpl. by apply Hfold.
  - apply Hfold.
Qed.

Lemma read_consistent trip_id now self :
  consistent self → consistent (get_latest_arrival trip_id now self).2.
Proof.
  intros Hself. unfold get_latest_arrival.
  destruct (vehicle_latest_arrival self !! trip_id) as [entry0|]; [|done].
  case_decide; [|done]. simpl. intros trip entry. simpl. unfold observed. simpl.
  destruct (decide (trip = trip_id)) as [->|Hne].
  - by rewrite lookup_delete_eq.
  - rewrite !lookup_delete_ne by done. apply Hself.
Qed.

(** Whatever the observer has polled and been asked since it was started,
    the latest arrival cached for a trip names that trip, and its stop is
    in the trip's set of observed stops. *)
Theorem cache_within_observed (static : gtfs_static) (ops : list operation)
    (trip : string) (entry : cache_entry) :
  vehicle_latest_arrival (run static ops initial) !! trip = Some entry →
  arr_trip_id (entry_arrival entry) = trip ∧
  arr_stop_id (entry_arrival entry) ∈ observed (run static ops initial) trip.
Proof.
  revert trip entry. change (consistent (run static ops initial)).
  unfold run. apply fold_left_invariant.
  - intros trip entry. simpl. by rewrite lookup_empty.
  - intros self [feed now|trip_id now] _ Hself; simpl.
    + by apply poll_once_consistent.
    + by apply read_consistent.
Qed.

Lemma cache_within_observed_witness :
  ∃ entry,
    vehicle_latest_arrival (run sample_static [Poll sample_feed 0] initial) !! "T" =
      Some entry ∧
    arr_trip_id (entry_arrival entry) = "T" ∧
    arr_stop_id (entry_arrival entry) ∈
      observed (run sample_static [Poll sample_feed 0] initial) "T".
Proof.
  assert (is_Some (vehicle_latest_arrival
                     (run sample_static [Poll sample_feed 0] initial) !! "T")) as [entry Hentry].
  { unfold run. cbn [fold_left step]. rewrite poll_sample.
    match goal with |- is_Some ?x => destruct x eqn:Hlookup end; [eauto|].
    by vm_compute in Hlookup. }
  exists entry. split; [done|].
  exact (cache_within_observed sample_static [Poll sample_feed 0] "T" entry Hentry).
Defined.

(** *** What a tick of the polling loop logs *)


(** The log is only appended to, by records that all satisfy [P]. *)
Definition appends (P : log_record → Prop) (s0 s : logger) : Prop :=
  ∃ new, arrival_log s = arrival_log s0 ++ new ∧ ∀ r, r ∈ new → P r.

Lemma appends_refl P s : appends P s s.
Proof. exists []. split; [by rewrite app_nil_r|]. by intros r ?%elem_of_nil. Qed.

Lemma appends_trans P s0 s1 s2 : appends P s0 s1 → appends P s1 s2 → appends P s0 s2.
Proof.
  intros (new1 & Hlog1 & Hnew1) (new2 & Hlog2 & Hnew2). exists (new1 ++ new2).
  split; [by rewrite Hlog2, Hlog1, app_assoc|]. intros r [?|?]%elem_of_app; auto.
Qed.

Lemma check_stop_appends static now entity trip infos self info :
  has_vehicle_position entity = true → entity_trip_id entity = Some trip →
  trip_stops static !! trip = Some infos → info ∈ infos →
  appends (logged_for static now entity) self
    (check_stop static now trip (entity_route_id entity) (latitude entity)
       (longitude entity) self info).
Proof.
  intros Hpos Htrip Hinfos Hinfo. unfold check_stop. case_decide; [apply appends_refl|].
  destruct (stops static !! info_stop_id info) as [stop|] eqn:Hstop; [|apply appends_refl].
  case_decide as Hdist; [apply appends_refl|]. unfold record_arrival.
  case_decide.
  { exists []. split; [by rewrite app_nil_r|]. by intros r ?%elem_of_nil. }
  eexists. split; [done|].
  intros r ->%list_elem_of_singleton. exists trip, infos, info, stop.
  split_and!; [done..| |done]. lra.
Qed.

Lemma check_entity_appends static now acc entity :
  appends (logged_for static now entity) acc.1 (check_entity static now acc entity).1.
Proof.
  destruct acc as [self ids]. unfold check_entity.
  destruct (has_vehicle_position entity) eqn:Hpos; simpl; [|apply appends_refl].
  destruct (entity_trip_id entity) as [trip|] eqn:Htrip; [|apply appends_refl].
  case_decide; [apply appends_refl|].
  destruct (trip_stops static !! trip) as [infos|] eqn:Hinfos; [|apply appends_refl]. simpl.
  apply (fold_left_invariant (appends (logged_for static now entity) self));
    [apply appends_refl|].
  intros s info Hinfo Hs. eapply appends_trans; [done|]. by eapply check_stop_appends.
Qed.

(** A tick appends to the log and rewrites none of it; every record it
    appends is for a vehicle of the feed and a stop of its trip less than
    30 m from the reported position, with the time of the tick as the
    actual arrival and the delay against the scheduled instant, in whole
    seconds. *)
Theorem poll_logs_near_stops (static : gtfs_static) (entities : list feed_entity) (now : Z)
    (self : logger) :
  ∃ new, arrival_log (poll_once static (Some entities) now self) = arrival_log self ++ new ∧
    ∀ r, r ∈ new → ∃ entity, entity ∈ entities ∧ logged_for static now entity r.
Proof.
  unfold poll_once.
  assert (appends (λ r, ∃ entity, entity ∈ entities ∧ logged_for static now entity r) self
            (fold_left (check_entity static now) entities (self, [])).1) as Hfold.
  { apply (fold_left_invariant (λ acc, appends _ self acc.1)); [apply appends_refl|].
    intros acc entity Hentity Hacc. eapply appends_trans; [done|].
    destruct (check_entity_appends static now acc entity) as (new & Hlog & Hnew).
    exists new. split; [done|]. intros r Hr. exists entity. split; [done|]. by apply Hnew. }
  by destruct (fold_left (check_entity static now) entities (self, [])) as [s ids].
Qed.

(** Every stop that is observed after some steps of a tick was observed
    before, or has a record among those appended. *)
Definition accounted (s0 s : logger) : Prop :=
  ∃ new, arrival_log s = arrival_log s0 ++ new ∧
    ∀ trip stop, stop ∈ observed s trip →
      stop ∈ observed s0 trip ∨ records_of trip stop new ≠ [].

Lemma accounted_refl s : accounted s s.
Proof. exists []. split; [by rewrite app_nil_r|]. auto. Qed.

Lemma accounted_trans s0 s1 s2 : accounted s0 s1 → accounted s1 s2 → accounted s0 s2.
Proof.
  intros (new1 & Hlog1 & Hnew1) (new2 & Hlog2 & Hnew2). exists (new1 ++ new2).
  split; [by rewrite Hlog2, Hlog1, app_assoc|]. intros trip stop Hin.
  rewrite records_of_app. destruct (Hnew2 trip stop Hin) as [Hin1|Hrec].
  - destruct (Hnew1 trip stop Hin1) as [?|Hrec]; [by left|right].
    by destruct (records_of trip stop new1).
  - right. destruct (records_of trip stop new1); [done|]. done.
Qed.

Lemma check_stop_accounted static now trip_id route_id lat lon self info :
  accounted self (check_stop static now trip_id route_id lat lon self info).
Proof.
  unfold check_stop. case_decide; [apply accounted_refl|].
  destruct (stops static !! info_stop_id info) as [stop|]; [|apply accounted_refl].
  case_decide; [apply accounted_refl|]. unfold record_arrival. case_decide as Hseen.
  - exists []. split; [by rewrite app_nil_r|]. intros trip st. unfold observed. simpl.
    destruct (decide (trip = trip_id)) as [->|Hne].
    + rewrite lookup_insert_eq. by left.
    + rewrite lookup_insert_ne by done. by left.
  - eexists. split; [done|]. intros trip st. unfold observed. simpl.
    destruct (decide (trip = trip_id)) as [->|Hne].
    + rewrite lookup_insert_eq. simpl. intros [->%elem_of_singleton|Hin]%elem_of_union.
      * right. unfold records_of. rewrite filter_cons. simpl. by rewrite decide_True.
      * by left.
    + rewrite lookup_insert_ne by done. by left.
Qed.

Lemma check_entity_accounted static now acc entity :
  accounted acc.1 (check_entity static now acc entity).1.
Proof.
  destruct acc as [self ids]. unfold check_entity.
  destruct (has_vehicle_position entity); simpl; [|apply accounted_refl].
  destruct (entity_trip_id entity) as [trip|]; [|apply accounted_refl].
  case_decide; [apply accounted_refl|].
  destruct (trip_stops static !! trip) as [infos|]; [|apply accounted_refl]. simpl.
  apply (fold_left_invariant (accounted self)); [apply accounted_refl|].
  intros s info _ Hs. eapply accounted_trans; [done|apply check_stop_accounted].
Qed.

Lemma check_stop_observes static now trip route_id lat lon self info stop :
  info_stop_id info ≠ "" → stops static !! info_stop_id info = Some stop →
  (haversine lat lon (stop_lat stop) (stop_lon stop) < DISTANCE_THRESHOLD_M)%R →
  info_stop_id info ∈ observed (check_stop static now trip route_id lat lon self info) trip.
Proof.
  intros Hid Hstop Hdist. unfold check_stop. rewrite decide_False by done. rewrite Hstop.
  rewrite decide_False by lra. unfold record_arrival, observed.
  case_decide; simpl; rewrite lookup_insert_eq; simpl; [done|set_solver].
Qed.

Lemma check_entity_observed static now acc entity trip :
  observed acc.1 trip ⊆ observed (check_entity static now acc entity).1 trip.
Proof.
  destruct acc as [self ids]. by destruct (check_entity_extends static now self ids entity).
Qed.

(** A vehicle of the feed that is less than 30 m from a stop of its trip
    is observed there: after the tick the stop is in the trip's observed
    set, and if it was not before, the tick appends exactly one record for
    the pair. *)
Theorem poll_observes (static : gtfs_static) (entities : list feed_entity) (now : Z)
    (self : logger) (entity : feed_entity) (trip : string) (infos : list stop_info)
    (info : stop_info) (stop : stop) :
  entity ∈ entities → has_vehicle_position entity = true →
  entity_trip_id entity = Some trip → trip ≠ "" →
  trip_stops static !! trip = Some infos → info ∈ infos →
  info_stop_id info ≠ "" → stops static !! info_stop_id info = Some stop →
  (haversine (latitude entity) (longitude entity) (stop_lat stop) (stop_lon stop) <
     DISTANCE_THRESHOLD_M)%R →
  let self' := poll_once static (Some entities) now self in
  info_stop_id info ∈ observed self' trip ∧
  ∃ new, arrival_log self' = arrival_log self ++ new ∧
    (info_stop_id info ∉ observed self trip →
     length (records_of trip (info_stop_id info) new) = 1%nat).
Proof.
  intros Hentity Hpos Htrip Hne Hinfos Hinfo Hid Hstop Hdist self'.
  assert (info_stop_id info ∈
            observed (fold_left (check_entity static now) entities (self, [])).1 trip) as Hobs.
  { apply (fold_left_reaches (λ acc, info_stop_id info ∈ observed acc.1 trip) _ _ _ entity);
      [done| |].
    - intros [s ids]. unfold check_entity. rewrite Hpos, Htrip. simpl.
      rewrite decide_False by done. rewrite Hinfos. simpl.
      apply (fold_left_reaches (λ s, info_stop_id info ∈ observed s trip) _ _ _ info);
        [done| |].
      + intros s'. by eapply check_stop_observes.
      + intros s' info' Hin.
        by destruct (check_stop_extends static now trip (entity_route_id entity)
                       (latitude entity) (longitude entity) s' info') as [Hsub _];
          apply Hsub.
    - intros acc entity' Hin. by apply check_entity_observed. }
  assert (accounted self (fold_left (check_entity static now) entities (self, [])).1) as Hacc.
  { apply (fold_left_invariant (λ acc, accounted self acc.1)); [apply accounted_refl|].
    intros acc entity' _ Hacc. eapply accounted_trans; [done|apply check_entity_accounted]. }
  pose proof (poll_once_extends static (Some entities) now self) as [_ (new & Hlog & Hnew)].
  fold self' in Hlog.
  assert (observed self' trip =
          observed (fold_left (check_entity static now) entities (self, [])).1 trip) as Hsame.
  { unfold self', poll_once.
    by destruct (fold_left (check_entity static now) entities (self, [])). }
  split; [by rewrite Hsame|]. exists new. split; [done|]. intros Hnew0.
  destruct (Hnew trip (info_stop_id info)) as [Hle _].
  destruct Hacc as (new' & Hlog' & Hnew').
  assert (new' = new) as ->.
  { assert (arrival_log self' =
            arrival_log (fold_left (check_entity static now) entities (self, [])).1) as Hl.
    { unfold self', poll_once.
      by destruct (fold_left (check_entity static now) entities (self, [])). }
    rewrite <-Hl, Hlog in Hlog'. by apply app_inv_head in Hlog'. }
  destruct (Hnew' trip (info_stop_id info) Hobs) as [?|Hrec]; [done|].
  destruct (records_of trip (info_stop_id info) new) as [|r [|r' l]]; simpl in *; [done|done|lia].
Qed.

Lemma poll_observes_witness :
  "S" ∈ observed (poll_once sample_static sample_feed 0 initial) "T" ∧
  ∃ new, arrival_log (poll_once sample_static sample_feed 0 initial) = [] ++ new ∧
         ("S" ∉ observed initial "T" → length (records_of "T" "S" new) = 1%nat).
Proof.
  apply (poll_observes sample_static _ 0 initial
           {| has_vehicle_position := true; entity_trip_id := Some "T";
              entity_route_id := Some "R"; latitude := 0; longitude := 0 |}
           "T" [sample_info] sample_info
           {| stop_name := "Stop"; stop_lat := 0; stop_lon := 0 |});
    [left|done|done|done|apply lookup_singleton_eq|left|done|apply lookup_singleton_eq|].
  simpl. rewrite haversine_same. unfold DISTANCE_THRESHOLD_M. lra.
Defined.

(** *** The trips of a feed *)






End ObserverFacts.

(** ** The RAPTOR engine, continued *)

Module EngineFacts.
Import Py PyFacts LoopFacts Geo GeoFacts Raptor RaptorFacts.
#[local] Open Scope Z_scope.



(** *** Walking times *)

(** [int(distance / WALKING_SPEED_MS)] for a distance of at most 500 m. *)
Lemma walking_time_bounds (distance : R) :
  (0 <= distance <= MAX_WALKING_DISTANCE_M)%R →
  0 ≤ int_of_float (distance / WALKING_SPEED_MS) ≤ 357.
Proof.
  unfold MAX_WALKING_DISTANCE_M, WALKING_SPEED_MS. intros [Hlo Hhi].
  assert (0 <= distance / 1.4 < 358)%R as [Hlo' Hhi'].
  { split.
    - apply Rmult_le_pos; [done|]. left. apply Rinv_0_lt_compat. lra.
    - apply (Rmult_lt_reg_r 1.4); [lra|]. unfold Rdiv. rewrite Rmult_assoc, Rinv_l; lra. }
  split; [by apply int_of_float_nonneg|].
  rewrite int_of_float_floor by done.
  destruct (base_Int_part (distance / 1.4)) as [Hle _].
  assert (Int_part (distance / 1.4) < 358); [|lia]. apply lt_IZR. lra.
Qed.

(** Every walk of the transfer graph joins two stops of the timetable that
    are at most 500 m apart, and takes between 0 and 357 seconds; when the
    stop ids are distinct no stop is joined to itself. *)
Theorem transfer_walks (tt : timetable) (a b : string) (w : Z) :
  has_transfer (build_transfer_graph tt) a b w →
  (∃ sa sb, (a, sa) ∈ stops tt ∧ (b, sb) ∈ stops tt ∧
            (distance sa sb <= MAX_WALKING_DISTANCE_M)%R ∧
            w = int_of_float (distance sa sb / WALKING_SPEED_MS)) ∧
  0 ≤ w ≤ 357 ∧
  (NoDup (stops tt).*1 → a ≠ b).
Proof.
  unfold build_transfer_graph. rewrite link_all_spec.
  intros [Hin|(pre & id1 & s1 & post & id2 & s2 & Hstops & Hin2 & Hlinked & Hab)].
  { unfold has_transfer in Hin. rewrite lookup_empty in Hin. by apply elem_of_nil in Hin. }
  assert ((id1, s1) ∈ stops tt) as H1 by (rewrite Hstops; apply elem_of_app; right; left).
  assert ((id2, s2) ∈ stops tt) as H2
    by (rewrite Hstops; apply elem_of_app; right; by right).
  pose proof Hlinked as (_ & Hdist & Hw).
  split; [|split].
  - destruct Hab as [[-> ->]|[-> ->]].
    + by exists s1, s2.
    + exists s2, s1. apply linked_sym in Hlinked as (_ & Hdist' & Hw'). by split_and!.
  - subst w. apply walking_time_bounds. split; [apply haversine_nonneg|done].
  - intros Hnd. rewrite Hstops, fmap_app, fmap_cons in Hnd.
    apply NoDup_app in Hnd as (_ & _ & Hnd). apply NoDup_cons in Hnd as [Hnotin _].
    assert (id1 ≠ id2).
    { intros ->. apply Hnotin. apply list_elem_of_fmap. by exists (id2, s2). }
    destruct Hab as [[-> ->]|[-> ->]]; congruence.
Qed.

Lemma transfer_walks_witness :
  has_transfer (build_transfer_graph merge_timetable) "C" "B" 0 ∧ 0 ≤ 0 ≤ 357 ∧ "C" ≠ "B".
Proof.
  assert (has_transfer (build_transfer_graph merge_timetable) "C" "B" 0) as Hwalk.
  { change (build_transfer_graph merge_timetable) with (transfers (init merge_timetable)).
    rewrite init_merge_timetable. unfold has_transfer. simpl.
    replace (default [] (merge_transfers !! "C")) with [("B", 0)] by (by vm_compute). left. }
  split; [done|].
  destruct (transfer_walks merge_timetable "C" "B" 0 Hwalk) as (_ & Hbounds & Hne).
  split; [done|]. apply Hne. apply (bool_decide_unpack _). by vm_compute.
Defined.

(** *** Nearby stops *)

#[local] Instance Rle_total : Total Rle.
Proof. intros x y. destruct (Rle_or_lt x y); [by left|right; lra]. Qed.

#[local] Instance Rle_transitive : Transitive Rle.
Proof. intros x y z. apply Rle_trans. Qed.

Lemma nearby_of_Some lat0 lon0 max_distance entry n :
  nearby_of lat0 lon0 max_distance entry = Some n ↔
  entry = (nb_stop_id n, nb_stop n) ∧
  nb_distance n = haversine lat0 lon0 (lat (nb_stop n)) (lon (nb_stop n)) ∧
  (nb_distance n <= max_distance)%R ∧
  nb_walking_time n = int_of_float (nb_distance n / WALKING_SPEED_MS).
Proof.
  destruct entry as [id s]. unfold nearby_of. case_decide as Hd.
  - split.
    + intros [= <-]. by simpl.
    + destruct n as [id' s' d w]. simpl. intros ([= -> ->] & -> & _ & ->). done.
  - split; [done|]. destruct n as [id' s' d w]. simpl. intros ([= -> ->] & -> & ? & _). done.
Qed.

(** [find_nearby_stops] returns at most 15 stops of the timetable, each at
    most 500 m away, with its distance and a walking time between 0 and
    357 seconds, nearest first; a stop within 500 m is left out only when
    15 stops are returned, none of them farther away than it. *)
Theorem nearby_stops (tt : timetable) (lat0 lon0 : R) :
  let result := find_nearby_stops tt lat0 lon0 in
  (length result ≤ 15)%nat ∧
  (∀ n, n ∈ result →
     (nb_stop_id n, nb_stop n) ∈ stops tt ∧
     nb_distance n = haversine lat0 lon0 (lat (nb_stop n)) (lon (nb_stop n)) ∧
     (nb_distance n <= MAX_WALKING_DISTANCE_M)%R ∧
     nb_walking_time n = int_of_float (nb_distance n / WALKING_SPEED_MS) ∧
     0 ≤ nb_walking_time n ≤ 357) ∧
  StronglySorted (λ a b, (nb_distance a <= nb_distance b)%R) result ∧
  (∀ id s, (id, s) ∈ stops tt →
     (haversine lat0 lon0 (lat s) (lon s) <= MAX_WALKING_DISTANCE_M)%R →
     (∃ n, n ∈ result ∧ nb_stop_id n = id ∧ nb_stop n = s) ∨
     (length result = 15%nat ∧
      ∀ n, n ∈ result → (nb_distance n <= haversine lat0 lon0 (lat s) (lon s))%R)).
Proof.
  simpl. unfold find_nearby_stops.
  set (nearby := omap (nearby_of lat0 lon0 MAX_WALKING_DISTANCE_M) (stops tt)).
  set (ordered := sorted Rle nb_distance nearby).
  assert (StronglySorted (λ a b, (nb_distance a <= nb_distance b)%R) ordered) as Hsorted.
  { apply Sorted_StronglySorted.
    - intros x y z. apply Rle_trans.
    - apply (sorted_Sorted Rle nb_distance). }
  rewrite <-(take_drop 15 ordered) in Hsorted.
  apply StronglySorted_app in Hsorted as (Hcross & Htake & _).
  assert (∀ n, n ∈ take 15 ordered → n ∈ nearby) as Hsub.
  { intros n Hn. apply (elem_of_sorted Rle nb_distance). fold ordered.
    rewrite <-(take_drop 15 ordered). apply elem_of_app. by left. }
  split_and!.
  - rewrite length_take. lia.
  - intros n Hn. apply Hsub in Hn. unfold nearby in Hn.
    apply list_elem_of_omap in Hn as (entry & Hentry & Hn).
    apply nearby_of_Some in Hn as (-> & Hd & Hmax & Hw).
    do 4 (split; [done|]). rewrite Hw. apply walking_time_bounds.
    split; [|done]. rewrite Hd. apply haversine_nonneg.
  - done.
  - intros id s Hin Hd.
    set (n := {| nb_stop_id := id; nb_stop := s;
                 nb_distance := haversine lat0 lon0 (lat s) (lon s);
                 nb_walking_time :=
                   int_of_float (haversine lat0 lon0 (lat s) (lon s) / WALKING_SPEED_MS) |}).
    assert (n ∈ ordered) as Hn.
    { apply (elem_of_sorted Rle nb_distance). apply list_elem_of_omap.
      exists (id, s). split; [done|]. by apply nearby_of_Some. }
    rewrite <-(take_drop 15 ordered) in Hn. apply elem_of_app in Hn as [Hn|Hn].
    + left. by exists n.
    + right. split.
      * rewrite length_take. apply list_elem_of_lookup in Hn as [i Hi].
        apply lookup_lt_Some in Hi. rewrite length_drop in Hi. lia.
      * intros n' Hn'. apply (Hcross n' n Hn' Hn).
Qed.

(** *** Merging, once more *)

Lemma merge_fixed (legs : list leg) :
  no_walk_pair legs = true → merge_consecutive_walk_legs legs = legs.
Proof.
  induction legs as [|l legs IH]; [done|]. simpl. intros [Hl Hlegs]%andb_prop.
  specialize (IH Hlegs). destruct (is_walk l) eqn:Hwalk.
  - destruct legs as [|l' legs]; [done|]. simpl in Hl.
    destruct (is_walk l') eqn:Hwalk'; [done|]. cbn [collect_walks]. rewrite Hwalk'.
    simpl. f_equal. simpl in IH. by rewrite Hwalk' in IH.
  - by rewrite IH.
Qed.

Lemma no_walk_pair_merge (legs : list leg) :
  no_walk_pair (merge_consecutive_walk_legs legs) = true.
Proof. by destruct (merge_collect_spec legs) as [(? & _) _]. Qed.

(** The merge leaves exactly the lists without two consecutive walks as
    they are, so merging a second time changes nothing. *)
Theorem merge_idempotent (legs : list leg) :
  (merge_consecutive_walk_legs legs = legs ↔ no_walk_pair legs = true) ∧
  merge_consecutive_walk_legs (merge_consecutive_walk_legs legs) =
    merge_consecutive_walk_legs legs.
Proof.
  split; [split|].
  - intros <-. apply no_walk_pair_merge.
  - apply merge_fixed.
  - apply merge_fixed, no_walk_pair_merge.
Qed.


Lemma fold_left_add (l : list Z) (a : Z) : fold_left Z.add l a = a + foldr Z.add 0 l.
Proof. revert a. induction l as [|x l IH]; intros a; simpl; [lia|]. rewrite IH. lia. Qed.

Lemma walking_seconds_app (l1 l2 : list leg) :
  walking_seconds (l1 ++ l2) = walking_seconds l1 + walking_seconds l2.
Proof.
  unfold walking_seconds. induction l1 as [|x l1 IH]; [done|].
  rewrite <-app_comm_cons, !fmap_cons. cbn [foldr]. rewrite IH. lia.
Qed.

(** [keeps a b]: the list [a] has the transit legs of [b], walks as many
    seconds, and is not longer. *)
Definition keeps (a b : list leg) : Prop :=
  List.filter is_transit a = List.filter is_transit b ∧
  get_transit_signature a = get_transit_signature b ∧
  walking_seconds a = walking_seconds b ∧
  (length a ≤ length b)%nat.

Lemma keeps_refl (a : list leg) : keeps a a.
Proof. by split_and!. Qed.

Lemma keeps_app (a a' b b' : list leg) : keeps a a' → keeps b b' → keeps (a ++ b) (a' ++ b').
Proof.
  intros (Hf & Hs & Hw & Hl) (Hf' & Hs' & Hw' & Hl'). unfold keeps, get_transit_signature in *.
  rewrite !List.filter_app, !omap_app, !walking_seconds_app, !length_app.
  split_and!; [congruence|congruence|lia|lia].
Qed.

Lemma flush_walks_keeps (ws : list leg) :
  Forall (λ l, is_walk l = true) ws → keeps (flush_walks ws) ws.
Proof.
  intros Hws.
  assert (List.filter is_transit ws = [] ∧ get_transit_signature ws = []) as [Hfilter Hsig].
  { induction Hws as [|l ws Hl _ [IH1 IH2]]; [done|]. unfold is_transit in *. simpl.
    rewrite Hl. simpl. split; [done|]. by destruct l. }
  destruct ws as [|w0 [|w1 ws]]; [apply keeps_refl..|].
  destruct (flush_walks_sum w0 w1 ws Hws) as (from & to & _ & _ & ->).
  split_and!; [done..| |simpl; lia].
  unfold walking_seconds. cbn [fmap list_fmap walk_duration foldr].
  rewrite fold_left_add. simpl. lia.
Qed.

Lemma merge_collect_keeps (rest : list leg) :
  keeps (merge_consecutive_walk_legs rest) rest ∧
  ∀ ws, Forall (λ l, is_walk l = true) ws → keeps (collect_walks ws rest) (ws ++ rest).
Proof.
  induction rest as [|l rest [IHm IHc]].
  - split; [apply keeps_refl|]. intros ws Hws. cbn [collect_walks]. rewrite app_nil_r.
    by apply flush_walks_keeps.
  - split.
    + cbn [merge_consecutive_walk_legs]. destruct (is_walk l) eqn:Hwalk.
      * apply (IHc [l]). by repeat constructor.
      * by apply (keeps_app [l] [l]); [apply keeps_refl|].
    + intros ws Hws. cbn [collect_walks]. destruct (is_walk l) eqn:Hwalk.
      * replace (ws ++ l :: rest) with ((ws ++ [l]) ++ rest) by (by rewrite <-app_assoc).
        apply IHc. apply Forall_app. split; [done|]. by constructor.
      * apply keeps_app; [by apply flush_walks_keeps|].
        by apply (keeps_app [l] [l]); [apply keeps_refl|].
Qed.

(** The merge keeps the transit legs, in their order, hence the transit
    signature and the test for a repeated route; it keeps the seconds
    walked in total; and it never makes the list longer. *)
Theorem merge_keeps (legs : list leg) :
  let merged := merge_consecutive_walk_legs legs in
  List.filter is_transit merged = List.filter is_transit legs ∧
  get_transit_signature merged = get_transit_signature legs ∧
  has_duplicate_route_transfer merged = has_duplicate_route_transfer legs ∧
  walking_seconds merged = walking_seconds legs ∧
  (length merged ≤ length legs)%nat.
Proof.
  simpl. destruct (merge_collect_keeps legs) as [(Hf & Hs & Hw & Hl) _].
  split_and!; [done..| |done|done]. unfold has_duplicate_route_transfer. by rewrite Hf.
Qed.

(** *** Riding the same route twice in a row *)

Lemma adjacent_equal_spec (route_ids : list string) :
  adjacent_equal route_ids = true ↔ ∃ pre a post, route_ids = pre ++ a :: a :: post.
Proof.
  induction route_ids as [|a [|b l] IH].
  - split; [done|]. intros (pre & a & post & Heq). by destruct pre.
  - split; [done|]. intros (pre & a' & post & Heq). by destruct pre as [|? [|? ?]].
  - cbn [adjacent_equal]. rewrite orb_true_iff, bool_decide_eq_true, IH. split.
    + intros [->|(pre & x & post & ->)].
      * by exists [], b, l.
      * by exists (a :: pre), x, post.
    + intros (pre & x & post & Heq). destruct pre as [|a' pre].
      * injection Heq as -> ->. by left.
      * injection Heq as -> ->. right. by exists pre, x, post.
Qed.

Lemma filter_transit_split (legs : list leg) (l1 : list leg) (a : leg) (l2 : list leg) :
  List.filter is_transit legs = l1 ++ a :: l2 →
  ∃ pre post, legs = pre ++ a :: post ∧ is_transit a = true ∧
              List.filter is_transit pre = l1 ∧ List.filter is_transit post = l2.
Proof.
  revert l1. induction legs as [|l legs IH]; intros l1 Heq.
  { by destruct l1. }
  simpl in Heq. destruct (is_transit l) eqn:Hl.
  - destruct l1 as [|x l1]; simpl in Heq.
    + injection Heq as -> <-. by exists [], legs.
    + injection Heq as -> Heq. destruct (IH l1 Heq) as (pre & post & -> & Ha & Hpre & Hpost).
      exists (x :: pre), post. simpl. rewrite Hl, Hpre. done.
  - destruct (IH l1 Heq) as (pre & post & -> & Ha & Hpre & Hpost).
    exists (l :: pre), post. simpl. by rewrite Hl.
Qed.

Lemma filter_transit_nil (legs : list leg) :
  List.filter is_transit legs = [] ↔ Forall (λ l, is_walk l = true) legs.
Proof.
  induction legs as [|l legs IH]; [by split|]. simpl. unfold is_transit at 1.
  destruct (is_walk l) eqn:Hl; simpl.
  - rewrite IH. split; [by constructor|by inversion 1].
  - split; [done|]. inversion 1. congruence.
Qed.

(** [has_duplicate_route_transfer] holds exactly when two transit legs with
    the same route id follow each other with nothing but walks between
    them. *)
Theorem repeated_route (legs : list leg) :
  has_duplicate_route_transfer legs = true ↔
  ∃ pre a mid b post,
    legs = pre ++ a :: mid ++ b :: post ∧
    is_transit a = true ∧ is_transit b = true ∧
    Forall (λ l, is_walk l = true) mid ∧ leg_route_id a = leg_route_id b.
Proof.
  unfold has_duplicate_route_transfer. rewrite adjacent_equal_spec. split.
  - intros (rpre & r & rpost & Heq).
    apply fmap_app_inv in Heq as (l1 & l2 & Hl1 & Hl2 & Heq).
    destruct l2 as [|a [|b l2]]; [done..|]. simpl in Hl2. injection Hl2 as Ha Hb _.
    apply filter_transit_split in Heq as (pre & post & -> & Hta & _ & Hpost).
    apply (filter_transit_split post []) in Hpost as (mid & post' & -> & Htb & Hmid & _).
    exists pre, a, mid, b, post'. split_and!; [done..| |congruence].
    by apply filter_transit_nil.
  - intros (pre & a & mid & b & post & -> & Ha & Hb & Hmid & Hroute).
    exists (leg_route_id <$> List.filter is_transit pre), (leg_route_id a),
      (leg_route_id <$> List.filter is_transit post).
    rewrite List.filter_app. simpl. rewrite Ha, List.filter_app. simpl. rewrite Hb.
    apply filter_transit_nil in Hmid. rewrite Hmid. simpl.
    rewrite fmap_app. simpl. by rewrite Hroute.
Qed.

(** *** What [run] returns *)

Section run.

Variable hash_pattern : list string → Z.
Variable set_iter : list string → list string.

Lemma walk_from_transfers (k : nat) (acc : labels * gmap string (list (string * Z)))
    (stop : string) :
  (walk_from k acc stop).2 = acc.2.
Proof.
  destruct acc as [lab transfers]. unfold walk_from. case_decide as Hin; [|done].
  apply elem_of_dom in Hin as [edges Hedges]. unfold defaultdict_getitem. rewrite Hedges.
  by destruct (tau lab !! (stop, k)).
Qed.

Lemma raptor_rounds_transfers
    (trips_by_route : list (string * Z * list (string * list stop_time)))
    (departure_time_seconds : Z) (ks : list nat)
    (acc acc' : labels * gmap string (list (string * Z))) :
  raptor_rounds set_iter trips_by_route departure_time_seconds ks acc = Some acc' →
  acc'.2 = acc.2.
Proof.
  revert acc. induction ks as [|k ks IH]; intros acc; cbn [raptor_rounds].
  - by intros [= <-].
  - case_decide; [by intros [= <-]|].
    destruct (raptor_round _ _ _ _ _) as [acc1|] eqn:Hround; [|done]. csimpl.
    intros Hrest. rewrite (IH _ Hrest). clear Hrest. destruct acc as [lab transfers].
    unfold raptor_round in Hround.
    destruct (fold_left_opt _ _ _) as [[lab1 updated]|]; [|done]. csimpl in Hround.
    injection Hround as <-.
    apply (fold_left_invariant (λ a : labels * gmap string (list (string * Z)),
             a.2 = transfers)); [done|].
    intros a stop _ <-. apply walk_from_transfers.
Qed.

Lemma itinerary_result (fuel : nat) (tt : timetable) (lab : labels)
    (dest_stops : list nearby_stop) (dest_lat dest_lon : R) (departure_time_seconds : Z)
    (best_time : Z) (best_dest : string) (best_round : nat) (r : result) :
  itinerary fuel tt lab dest_stops dest_lat dest_lon departure_time_seconds
    (best_time, best_dest, best_round) = Done (Some r) →
  ∃ out info,
    walk_parents fuel tt lab best_dest best_round [] = Done out ∧
    info ∈ dest_stops ∧ nb_stop_id info = best_dest ∧
    legs r = merge_consecutive_walk_legs
               (out ++ [Walk (stop_place best_dest (nb_stop info))
                          (coordinate dest_lat dest_lon) (nb_distance info)
                          (nb_walking_time info)]) ∧
    has_duplicate_route_transfer (legs r) = false ∧
    dest_stop r = best_dest ∧
    total_time r = best_time - departure_time_seconds + nb_walking_time info ∧
    0 ≤ total_time r ≤ SEARCH_WINDOW_HOURS * 3600 ∧
    transfer_count r = length (List.filter is_transit (legs r)).
Proof.
  unfold itinerary.
  destruct (walk_parents _ _ _ _ _ _) as [out| |]; [|done..].
  destruct (list_find _ _) as [[i info]|] eqn:Hfind; [|done].
  apply list_find_Some in Hfind as (Hi & Hid & _).
  destruct (has_duplicate_route_transfer _) eqn:Hdup; [done|].
  case_decide as Htime; [done|]. intros [= <-]. exists out, info. simpl.
  split_and!; [done|by eapply list_elem_of_lookup_2|done..|lia|lia|done].
Qed.

Lemma itineraries_results (fuel : nat) (tt : timetable) (lab : labels)
    (dest_stops : list nearby_stop) (dest_lat dest_lon : R) (departure_time_seconds : Z)
    (candidates : list (Z * string * nat)) (temp_results : list result) :
  itineraries fuel tt lab dest_stops dest_lat dest_lon departure_time_seconds candidates =
    Done temp_results →
  ∀ r, r ∈ temp_results →
    ∃ c, c ∈ candidates ∧
         itinerary fuel tt lab dest_stops dest_lat dest_lon departure_time_seconds c =
           Done (Some r).
Proof.
  revert temp_results. induction candidates as [|c candidates IH]; intros temp_results;
    cbn [itineraries].
  - intros [= <-] r Hr. by apply elem_of_nil in Hr.
  - destruct (itinerary _ _ _ _ _ _ _ _) as [r0| |] eqn:Hr0; [|done..].
    destruct (itineraries _ _ _ _ _ _ _ _) as [rs| |] eqn:Hrs; [|done..].
    intros [= <-] r [Hr|Hr]%elem_of_app.
    + destruct r0 as [r0|]; simpl in Hr; [|by apply elem_of_nil in Hr].
      apply list_elem_of_singleton in Hr as ->. exists c. split; [left|done].
    + destruct (IH rs eq_refl r Hr) as (c' & Hc' & Hit). exists c'. split; [by right|done].
Qed.

Lemma prune_subset (temp_results : list result) (r : result) :
  r ∈ prune temp_results → r ∈ temp_results.
Proof.
  unfold prune. destruct temp_results as [|r0 rest]; [done|].
  by intros [_ ?]%list_elem_of_filter.
Qed.

Lemma finish_results (temp_results : list result) :
  (length (finish temp_results) ≤ MAX_RESULTS)%nat ∧
  NoDup (get_transit_signature ∘ route_legs <$> finish temp_results) ∧
  ∀ rt, rt ∈ finish temp_results → ∃ r, r ∈ temp_results ∧ rt = clean r.
Proof.
  unfold finish. split_and!.
  - rewrite length_fmap, length_take. lia.
  - rewrite <-list_fmap_compose.
    destruct (filter_duplicate_spec (prune temp_results)) as (Hnd & _). simpl in Hnd.
    rewrite fmap_take. eapply sublist_NoDup; [exact Hnd|apply sublist_take].
  - intros rt (r & -> & Hr)%list_elem_of_fmap. exists r. split; [|done].
    apply elem_of_take in Hr as (i & Hr & _). apply list_elem_of_lookup_2 in Hr.
    by apply prune_subset, filter_duplicate_subset.
Qed.

(** What [run] did when it has reconstructed itineraries: the labels of
    the rounds and the itineraries of the candidates. *)
Lemma run_done (fuel : nat) (self : service) (origin_lat origin_lon dest_lat dest_lon : R)
    (departure_time_seconds : Z) (debug : bool) (out : output) (self' : service) :
  run hash_pattern set_iter fuel self origin_lat origin_lon dest_lat dest_lon
    departure_time_seconds debug = (Done out, self') →
  routes out = [] ∨
  ∃ lab temp_results,
    (nonnegative_transfers (transfers self) → labels_ok origin_lat origin_lon lab) ∧
    itineraries fuel (service_timetable self) lab
      (find_nearby_stops (service_timetable self) dest_lat dest_lon) dest_lat dest_lon
      departure_time_seconds
      (candidate_routes set_iter lab
         (find_nearby_stops (service_timetable self) dest_lat dest_lon)
         (departure_time_seconds + SEARCH_WINDOW_HOURS * 3600)) = Done temp_results ∧
    routes out = finish temp_results.
Proof.
  unfold run. set (tt := service_timetable self).
  destruct (find_nearby_stops tt origin_lat origin_lon) as [|o os] eqn:Ho.
  { intros [= <- <-]. by left. }
  destruct (find_nearby_stops tt dest_lat dest_lon) as [|d ds] eqn:Hd.
  { intros [= <- <-]. by left. }
  pose proof (init_origin_ok origin_lat origin_lon departure_time_seconds (o :: os)) as Hlab0.
  set (lab0 := fold_left _ (o :: os) _) in *.
  destruct (fold_left_opt _ _ _) as [trips_by_route|]; [|done].
  destruct (raptor_rounds _ _ _ _ _) as [[lab transfers']|] eqn:Hrounds; [|done].
  destruct (itineraries _ _ _ _ _ _ _ _) as [rs| |] eqn:Hrs; [|done..].
  intros [= <- <-]. right. exists lab, rs. split_and!; [|done..].
  intros Hnn.
  by apply (raptor_rounds_ok set_iter origin_lat origin_lon) in Hrounds as [Hok _];
    [|by repeat constructor|done..].
Qed.

(** A query leaves the service as it found it, however it ends.  What it
    returns is at most 5 itineraries with pairwise different transit
    signatures, each of a total time between 0 and 4 hours, with no two
    transit legs of one route in a row, and ending at one of the stops
    found near the destination. *)
Theorem run_routes (fuel : nat) (self : service)
    (origin_lat origin_lon dest_lat dest_lon : R) (departure_time_seconds : Z) (debug : bool)
    (outcome : outcome output) (self' : service) :
  run hash_pattern set_iter fuel self origin_lat origin_lon dest_lat dest_lon
    departure_time_seconds debug = (outcome, self') →
  self' = self ∧
  ∀ out, outcome = Done out →
    (length (routes out) ≤ 5)%nat ∧
    NoDup (get_transit_signature ∘ route_legs <$> routes out) ∧
    ∀ rt, rt ∈ routes out →
      0 ≤ route_total_time rt ≤ 14400 ∧
      has_duplicate_route_transfer (route_legs rt) = false ∧
      ∃ info, info ∈ find_nearby_stops (service_timetable self) dest_lat dest_lon ∧
              nb_stop_id info = route_dest_stop rt.
Proof.
  intros Hrun. split.
  - revert Hrun. unfold run. set (tt := service_timetable self).
    destruct (find_nearby_stops tt origin_lat origin_lon) as [|o os]; [by intros [= _ <-]|].
    destruct (find_nearby_stops tt dest_lat dest_lon) as [|d ds]; [by intros [= _ <-]|].
    destruct (fold_left_opt _ _ _) as [trips_by_route|]; [|by intros [= _ <-]].
    destruct (raptor_rounds _ _ _ _ _) as [[lab transfers']|] eqn:Hrounds;
      [|by intros [= _ <-]].
    apply raptor_rounds_transfers in Hrounds. simpl in Hrounds. subst transfers'.
    destruct (itineraries _ _ _ _ _ _ _ _); intros [= _ <-]; by destruct self.
  - intros out ->. destruct (run_done _ _ _ _ _ _ _ _ _ _ Hrun) as [Hnil|Hdone].
    { rewrite Hnil. split_and!; [simpl; lia|constructor|]. by intros rt ?%elem_of_nil. }
    destruct Hdone as (lab & rs & _ & Hrs & ->).
    destruct (finish_results rs) as (Hlen & Hnd & Hsub).
    split_and!; [done..|]. intros rt (r & Hr & ->)%Hsub.
    destruct (itineraries_results _ _ _ _ _ _ _ _ _ Hrs r Hr)
      as ([[best_time best_dest] best_round] & _ & Hit).
    apply itinerary_result in Hit
      as (legs0 & info & _ & Hinfo & Hid & _ & Hdup & Hdest & _ & Htime & _).
    simpl. unfold SEARCH_WINDOW_HOURS in Htime.
    split_and!; [lia|lia|done|]. exists info. by rewrite Hdest.
Qed.


(** Following the parent records from round [k] passes [k] transit
    records. *)
Lemma walk_parents_transits (origin_lat origin_lon : R) (tt : timetable) (lab : labels)
    (s : string) (k : nat) :
  chain origin_lat origin_lon lab s k →
  ∀ fuel legs out, walk_parents fuel tt lab s k legs = Done out →
    length (List.filter is_transit out) = (k + length (List.filter is_transit legs))%nat.
Proof.
  induction 1 as [s o a Hp|s j tr b bt bst ast at' ast' Hp Hc IH|s j f to a w Hp Hle Hc IH];
    intros [|fuel] legs out; try done; simpl; rewrite Hp.
  - by intros [= <-].
  - destruct (trips tt !! tr) as [route_id|]; [|done].
    destruct (getitem (stops tt) (stop_id bst)) as [from_stop|]; [|done].
    destruct (getitem (stops tt) (stop_id ast')) as [to_stop|]; [|done].
    intros Hout. apply IH in Hout. rewrite Hout. simpl. lia.
  - destruct (getitem (stops tt) f) as [from_stop|]; [|done].
    destruct (getitem (stops tt) to) as [to_stop|]; [|done].
    intros Hout. apply IH in Hout. rewrite Hout. simpl. lia.
Qed.

Lemma candidate_routes_round (lab : labels) (dest_stops : list nearby_stop)
    (search_window_end : Z) (best_time : Z) (best_dest : string) (best_round : nat) :
  (best_time, best_dest, best_round) ∈
    candidate_routes set_iter lab dest_stops search_window_end →
  (best_round ≤ MAX_TRANSFERS + 1)%nat ∧ best_time ≤ search_window_end.
Proof.
  unfold candidate_routes. rewrite elem_of_sorted.
  intros (dest_id & Hin & _)%list_elem_of_bind.
  apply list_elem_of_omap in Hin as (k & Hk & Hc). apply elem_of_seq in Hk.
  destruct (tau lab !! (dest_id, k)) as [arrival_time|]; [|done]. csimpl in Hc.
  case_decide; [|done]. injection Hc as <- <- <-. split; [|done].
  unfold MAX_TRANSFERS in *. lia.
Qed.

(** On a service whose transfers take no negative time, an itinerary has
    at most [MAX_TRANSFERS + 1 = 4] transit legs. *)
Theorem at_most_four_rides (fuel : nat) (self : service)
    (origin_lat origin_lon dest_lat dest_lon : R) (departure_time_seconds : Z) (debug : bool)
    (out : output) (self' : service) :
  nonnegative_transfers (transfers self) →
  run hash_pattern set_iter fuel self origin_lat origin_lon dest_lat dest_lon
    departure_time_seconds debug = (Done out, self') →
  ∀ rt, rt ∈ routes out →
    (length (List.filter is_transit (route_legs rt)) ≤ MAX_TRANSFERS + 1)%nat.
Proof.
  intros Hnn Hrun rt Hrt.
  destruct (run_done _ _ _ _ _ _ _ _ _ _ Hrun) as [Hnil|(lab & rs & Hok & Hrs & Hout)].
  { rewrite Hnil in Hrt. by apply elem_of_nil in Hrt. }
  specialize (Hok Hnn). rewrite Hout in Hrt.
  destruct (finish_results rs) as (_ & _ & Hsub).
  destruct (Hsub rt Hrt) as (r & Hr & ->).
  destruct (itineraries_results _ _ _ _ _ _ _ _ _ Hrs r Hr)
    as ([[best_time best_dest] best_round] & Hc & Hit).
  apply itinerary_result in Hit as (legs0 & info & Hwalk & _ & _ & Hlegs & _).
  pose proof (candidate_routes_round _ _ _ _ _ _ Hc) as [Hround _].
  apply candidate_routes_spec in Hc.
  assert (chain origin_lat origin_lon lab best_dest best_round) as Hchain
    by (apply Hok; by rewrite Hc).
  apply (walk_parents_transits _ _ _ _ _ _ Hchain) in Hwalk. simpl in Hwalk.
  simpl. rewrite Hlegs. destruct (merge_collect_keeps (legs0 ++ [Walk
    (stop_place best_dest (nb_stop info)) (coordinate dest_lat dest_lon)
    (nb_distance info) (nb_walking_time info)])) as [(Hf & _) _]. simpl in Hf.
  rewrite Hf, List.filter_app, length_app. simpl. unfold MAX_TRANSFERS in *. lia.
Qed.


End run.

Lemma run_routes_witness :
  (length [merge_route] ≤ 5)%nat ∧
  NoDup (get_transit_signature ∘ route_legs <$> [merge_route]) ∧
  ∀ rt, rt ∈ [merge_route] →
    0 ≤ route_total_time rt ≤ 14400 ∧
    has_duplicate_route_transfer (route_legs rt) = false ∧
    ∃ info, info ∈ find_nearby_stops (service_timetable (init merge_timetable)) 0 180 ∧
            nb_stop_id info = route_dest_stop rt.
Proof.
  destruct (run_routes (λ _, 0) (λ l, l) 8 (init merge_timetable) 0 0 0 180 35700 false _ _
              run_merge_timetable) as [_ Hroutes].
  exact (Hroutes _ eq_refl).
Defined.

Lemma at_most_four_rides_witness :
  (length (List.filter is_transit (route_legs merge_route)) ≤ MAX_TRANSFERS + 1)%nat.
Proof.
  apply (at_most_four_rides (λ _, 0) (λ l, l) 8 (init merge_timetable) 0 0 0 180 35700 false
           _ _ (init_nonnegative merge_timetable) run_merge_timetable merge_route).
  left.
Defined.

End EngineFacts.

(** ** The journey planner on a well-formed timetable *)

Module ItineraryFacts.
Import Py PyFacts LoopFacts Geo GeoFacts Raptor RaptorFacts EngineFacts.
#[local] Open Scope Z_scope.

Section total.

Variable hash_pattern : list string → Z.
Variable set_iter : list string → list string.
Hypothesis set_iter_elements : ∀ l, set_iter l ≡ₚ l.
Variable tt : timetable.

(** A trip of a bucket of [trips_by_route]. *)
Definition trip_ok (trip : string * list stop_time) : Prop :=
  is_Some (trips tt !! trip.1) ∧ trip.2 ≠ [] ∧ ∀ st, st ∈ trip.2 → known_stop tt (stop_id st).

Definition bucket_ok (bucket : string * Z * list (string * list stop_time)) : Prop :=
  bucket.2 ≠ [] ∧ Forall trip_ok bucket.2.

Lemma known_stop_elem_of (id : string) (s : stop) : (id, s) ∈ stops tt → known_stop tt id.
Proof.
  intros Hin. unfold known_stop. destruct (getitem (stops tt) id) eqn:Hget; [eauto|].
  apply getitem_None in Hget. destruct Hget. apply list_elem_of_fmap. by exists (id, s).
Qed.

Lemma dict_append_Forall {K A : Type} `{!EqDecision K} (P : K * list A → Prop)
    (d : list (K * list A)) (k : K) (x : A) :
  Forall P d → P (k, [x]) → (∀ l, P (k, l) → P (k, l ++ [x])) → Forall P (dict_append d k x).
Proof.
  intros Hd Hnew Happ. induction Hd as [|[k' l] d Hkl Hd IH]; simpl.
  - by repeat constructor.
  - case_decide as Hk; constructor; [|done| |done]; [subst; by apply Happ|done].
Qed.

Lemma group_trips_ok (entries : list (string * list stop_time))
    (trips_by_route : list (string * Z * list (string * list stop_time))) :
  (∀ trip_id stop_times, (trip_id, stop_times) ∈ entries →
     is_Some (trips tt !! trip_id) ∧ stop_times ≠ [] ∧
     ∀ st, st ∈ stop_times → known_stop tt (stop_id st)) →
  Forall bucket_ok trips_by_route →
  ∃ trips_by_route',
    fold_left_opt (group_trip hash_pattern tt) entries trips_by_route = Some trips_by_route' ∧
    Forall bucket_ok trips_by_route'.
Proof.
  revert trips_by_route. induction entries as [|[trip_id stop_times] entries IH];
    intros trips_by_route Hentries Hok; simpl.
  { by exists trips_by_route. }
  destruct (Hentries trip_id stop_times ltac:(left)) as ([route_id Hroute] & Hne & Hknown).
  rewrite Hroute. csimpl. apply IH; [intros; apply Hentries; by right|].
  set (sorted_stops := sorted Z.le _ stop_times).
  assert (trip_ok (trip_id, sorted_stops)) as Htrip.
  { split_and!; simpl.
    - by rewrite Hroute.
    - intros Hnil. apply (f_equal length) in Hnil. unfold sorted_stops in Hnil.
      rewrite length_sorted in Hnil. by destruct stop_times.
    - intros st Hst. apply Hknown. by apply elem_of_sorted in Hst. }
  apply dict_append_Forall; [done|..].
  - split; [done|]. simpl. constructor; [done|constructor].
  - intros l [Hl Hall]. simpl in *. split; simpl.
    + intros Hnil. by apply app_eq_nil in Hnil as [_ ?].
    + apply Forall_app. split; [done|]. constructor; [done|constructor].
Qed.

(** A parent record that the reconstruction can turn into a leg. *)
Definition record_ok (p : parent_record) : Prop :=
  match p with
  | ParentWalk _ _ _ _ => True
  | ParentTransfer from_stop_id to_stop_id _ _ =>
      known_stop tt from_stop_id ∧ known_stop tt to_stop_id
  | ParentTransit trip_id _ _ boarding_st _ _ arrival_st =>
      is_Some (trips tt !! trip_id) ∧
      known_stop tt (stop_id boarding_st) ∧ known_stop tt (stop_id arrival_st)
  end.

Definition resolvable (lab : labels) : Prop :=
  ∀ key p, parent lab !! key = Some p → record_ok p.

Lemma set_label_resolvable (lab : labels) (stop : string) (k : nat) (t : Z)
    (p : parent_record) :
  resolvable lab → record_ok p → resolvable (set_label lab stop k t p).
Proof.
  intros Hlab Hp key p'. simpl. destruct (decide (key = (stop, k))) as [->|Hne].
  - rewrite lookup_insert_eq. by intros [= <-].
  - rewrite lookup_insert_ne by done. apply Hlab.
Qed.

Definition boarding_res (best : option boarding) : Prop :=
  ∀ b, best = Some b →
    is_Some (trips tt !! best_trip_id b) ∧ best_boarding_st b ∈ best_stop_times b ∧
    ∀ st, st ∈ best_stop_times b → known_stop tt (stop_id st).

Lemma first_boardable_elem_of (test : stop_time → option Z) (idx : nat)
    (stop_times : list stop_time) (i : nat) (st : stop_time) (dep_time : Z) :
  first_boardable test idx stop_times = Some (i, st, dep_time) → st ∈ stop_times.
Proof.
  revert idx. induction stop_times as [|x l IH]; intros idx; [done|]. simpl.
  destruct (test x); [intros [= _ <- _]; left|intros ?%IH; by right].
Qed.

Lemma scan_trip_res (lab : labels) (k : nat) (marked : gset string)
    (departure_time_seconds : Z) (best : option boarding) (trip : string * list stop_time) :
  trip_ok trip → boarding_res best →
  ∃ best', scan_trip lab k marked departure_time_seconds best trip = Some best' ∧
           boarding_res best'.
Proof.
  destruct trip as [trip_id stop_times]. intros (Htrip & Hne & Hknown) Hbest.
  simpl in *. unfold scan_trip.
  destruct (head stop_times) as [first|] eqn:Hfirst; [|by destruct stop_times].
  cbn [mbind option_bind].
  destruct (first_boardable _ _ _) as [[[idx st] dep_time]|] eqn:Hscan.
  - eexists. split; [done|]. intros b [= <-]. simpl.
    apply first_boardable_elem_of in Hscan. by split_and!.
  - by exists best.
Qed.

Lemma scan_trips_res (lab : labels) (k : nat) (marked : gset string)
    (departure_time_seconds : Z) (trips : list (string * list stop_time))
    (best : option boarding) :
  Forall trip_ok trips → boarding_res best →
  ∃ best', fold_left_opt (scan_trip lab k marked departure_time_seconds) trips best =
             Some best' ∧ boarding_res best'.
Proof.
  intros Htrips. revert best. induction Htrips as [|trip trips Htrip _ IH]; intros best Hbest.
  { by exists best. }
  simpl. destruct (scan_trip_res lab k marked departure_time_seconds best trip Htrip Hbest)
    as (best1 & -> & Hbest1). csimpl. by apply IH.
Qed.

(** The labels can be resolved and the stops updated by transit are known. *)
Definition ride_ok (acc : labels * list string) : Prop :=
  resolvable acc.1 ∧ Forall (known_stop tt) acc.2.

Lemma alight_res (k : nat) (departure_time_seconds : Z) (b : boarding)
    (stop_times : list stop_time) (acc : labels * list string) :
  is_Some (trips tt !! best_trip_id b) → known_stop tt (stop_id (best_boarding_st b)) →
  Forall (λ st, known_stop tt (stop_id st)) stop_times → ride_ok acc →
  ride_ok (fold_left (alight k departure_time_seconds b) stop_times acc).
Proof.
  intros Htrip Hboard Hstops. revert acc.
  induction Hstops as [|st stop_times Hst _ IH]; intros [lab updated] [Hlab Hupdated]; [done|].
  cbn [fold_left]. apply IH. unfold alight. case_decide; [done|].
  destruct (improves lab (stop_id st) k _); [|done]. split; simpl.
  - apply set_label_resolvable; [done|]. by split_and!.
  - apply Forall_app. split; [done|]. by constructor.
Qed.

Lemma ride_route_res (k : nat) (marked : gset string) (departure_time_seconds : Z)
    (acc : labels * list string)
    (bucket : string * Z * list (string * list stop_time)) :
  bucket_ok bucket → ride_ok acc →
  ∃ acc', ride_route k marked departure_time_seconds acc bucket = Some acc' ∧ ride_ok acc'.
Proof.
  intros [Hne Htrips] Hacc. unfold ride_route.
  destruct (head bucket.2) as [sample|] eqn:Hsample; [|by destruct bucket.2].
  cbn [mbind option_bind]. case_decide; [|by exists acc].
  destruct (scan_trips_res acc.1 k marked departure_time_seconds bucket.2 None)
    as (best & -> & Hbest); [done|done|]. cbn [mbind option_bind].
  destruct best as [b|]; [|by exists acc].
  eexists. split; [done|]. destruct (Hbest b eq_refl) as (Htrip & Hin & Hknown).
  apply alight_res; [done|by apply Hknown| |done].
  apply Forall_forall. intros st Hst. apply Hknown.
  by eapply subseteq_drop.
Qed.

Lemma ride_routes_res (k : nat) (marked : gset string) (departure_time_seconds : Z)
    (buckets : list (string * Z * list (string * list stop_time)))
    (acc : labels * list string) :
  Forall bucket_ok buckets → ride_ok acc →
  ∃ acc', fold_left_opt (ride_route k marked departure_time_seconds) buckets acc = Some acc' ∧
          ride_ok acc'.
Proof.
  intros Hbuckets. revert acc.
  induction Hbuckets as [|bucket buckets Hbucket _ IH]; intros acc Hacc.
  { by exists acc. }
  simpl. destruct (ride_route_res k marked departure_time_seconds acc bucket Hbucket Hacc)
    as (acc1 & -> & Hacc1). cbn [mbind option_bind]. by apply IH.
Qed.

(** Every walk of the transfer graph leads to a stop of the timetable. *)
Definition transfers_known (transfers : gmap string (list (string * Z))) : Prop :=
  ∀ a b w, has_transfer transfers a b w → known_stop tt b.

Lemma relax_res (k : nat) (stop : string) (arrival_time : Z) (edges : list (string * Z))
    (lab : labels) :
  known_stop tt stop → Forall (λ edge, known_stop tt edge.1) edges → resolvable lab →
  resolvable (fold_left (relax k stop arrival_time) edges lab).
Proof.
  intros Hstop Hedges. revert lab.
  induction Hedges as [|[neighbor_id walk_seconds] edges Hedge _ IH]; intros lab Hlab; [done|].
  cbn [fold_left]. apply IH. unfold relax.
  destruct (improves lab neighbor_id k _); [|done].
  by apply set_label_resolvable.
Qed.

Lemma walk_from_res (k : nat) (lab : labels) (transfers : gmap string (list (string * Z)))
    (stop : string) :
  transfers_known transfers → known_stop tt stop → resolvable lab →
  resolvable (walk_from k (lab, transfers) stop).1.
Proof.
  intros Htransfers Hstop Hlab. unfold walk_from. case_decide as Hin; [|done].
  apply elem_of_dom in Hin as [edges Hedges]. unfold defaultdict_getitem. rewrite Hedges.
  destruct (tau lab !! (stop, k)) as [arrival_time|]; [|done]. simpl.
  apply relax_res; [done| |done]. apply Forall_forall. intros [b w] Hin. simpl.
  apply (Htransfers stop b w). unfold has_transfer. by rewrite Hedges.
Qed.

Lemma raptor_round_res (trips_by_route : list (string * Z * list (string * list stop_time)))
    (departure_time_seconds : Z) (k : nat) (lab : labels)
    (transfers : gmap string (list (string * Z))) :
  Forall bucket_ok trips_by_route → transfers_known transfers → resolvable lab →
  ∃ lab', raptor_round set_iter trips_by_route departure_time_seconds k (lab, transfers) =
            Some (lab', transfers) ∧ resolvable lab'.
Proof.
  intros Hbuckets Htransfers Hlab. unfold raptor_round.
  destruct (ride_routes_res k (marked_stops lab k) departure_time_seconds trips_by_route
              (lab, [])) as ([lab1 updated] & -> & Hlab1 & Hupdated); [done|by split|].
  cbn [mbind option_bind]. simpl in Hlab1, Hupdated.
  set (stops := set_iter (remove_dups updated)).
  assert (Forall (known_stop tt) stops) as Hstops.
  { apply Forall_forall. intros stop Hstop. unfold stops in Hstop.
    rewrite set_iter_elements, elem_of_remove_dups in Hstop.
    rewrite Forall_forall in Hupdated. by apply Hupdated. }
  assert (resolvable (fold_left (walk_from k) stops (lab1, transfers)).1 ∧
          (fold_left (walk_from k) stops (lab1, transfers)).2 = transfers) as [Hres Htr].
  { clear Hupdated. revert Hstops. generalize stops. clear stops. intros stops Hstops.
    revert lab1 Hlab1. induction Hstops as [|stop stops Hstop _ IH]; intros lab1 Hlab1; [done|].
    cbn [fold_left].
    pose proof (walk_from_res k lab1 transfers stop Htransfers Hstop Hlab1) as Hres1.
    pose proof (walk_from_transfers k (lab1, transfers) stop) as Htr1.
    destruct (walk_from k (lab1, transfers) stop) as [lab2 transfers2]. simpl in *. subst.
    by apply IH. }
  destruct (fold_left (walk_from k) stops (lab1, transfers)) as [lab' transfers'].
  simpl in *. subst. by exists lab'.
Qed.

Lemma raptor_rounds_res (trips_by_route : list (string * Z * list (string * list stop_time)))
    (departure_time_seconds : Z) (ks : list nat) (lab : labels)
    (transfers : gmap string (list (string * Z))) :
  Forall bucket_ok trips_by_route → transfers_known transfers → resolvable lab →
  ∃ lab', raptor_rounds set_iter trips_by_route departure_time_seconds ks (lab, transfers) =
            Some (lab', transfers) ∧ resolvable lab'.
Proof.
  intros Hbuckets Htransfers. revert lab. induction ks as [|k ks IH]; intros lab Hlab;
    cbn [raptor_rounds].
  { by exists lab. }
  case_decide; [by exists lab|].
  destruct (raptor_round_res trips_by_route departure_time_seconds k lab transfers)
    as (lab1 & -> & Hlab1); [done..|]. cbn [mbind option_bind]. by apply IH.
Qed.

Lemma init_origin_resolvable (origin_lat origin_lon : R) (departure_time_seconds : Z)
    (origin_stops : list nearby_stop) (lab : labels) :
  resolvable lab →
  resolvable (fold_left (init_origin origin_lat origin_lon departure_time_seconds)
                origin_stops lab).
Proof.
  revert lab. induction origin_stops as [|o l IH]; intros lab Hlab; [done|].
  simpl. apply IH. by apply set_label_resolvable.
Qed.

Lemma walk_parents_resolvable (lab : labels) (fuel : nat) (s : string) (k : nat)
    (legs : list leg) :
  resolvable lab → walk_parents fuel tt lab s k legs ≠ Raised.
Proof.
  intros Hlab. revert s k legs. induction fuel as [|fuel IH]; intros s k legs; [done|].
  simpl. destruct (parent lab !! (s, k)) as [p|] eqn:Hp; [|done].
  apply Hlab in Hp. destruct p as [| |trip_id b bt bst a at' ast]; simpl in Hp; [done|..].
  - destruct Hp as [[from_stop ->] [to_stop ->]]. apply IH.
  - destruct Hp as ([route_id ->] & [from_stop ->] & [to_stop ->]).
    destruct k; [done|apply IH].
Qed.

Lemma itinerary_resolvable (fuel : nat) (lab : labels) (dest_stops : list nearby_stop)
    (dest_lat dest_lon : R) (departure_time_seconds : Z) (candidate : Z * string * nat) :
  resolvable lab → candidate.1.2 ∈ nb_stop_id <$> dest_stops →
  itinerary fuel tt lab dest_stops dest_lat dest_lon departure_time_seconds candidate ≠ Raised.
Proof.
  intros Hlab Hdest. destruct candidate as [[best_time best_dest] best_round].
  simpl in Hdest. unfold itinerary.
  pose proof (walk_parents_resolvable lab fuel best_dest best_round [] Hlab) as Hwalk.
  destruct (walk_parents _ _ _ _ _ _) as [legs| |]; [|done..].
  destruct (list_find _ dest_stops) as [[i d]|] eqn:Hfind.
  - destruct (has_duplicate_route_transfer _); [done|]. by case_decide.
  - apply list_find_None in Hfind. apply list_elem_of_fmap in Hdest as (d & -> & Hd).
    rewrite Forall_forall in Hfind. by destruct (Hfind d Hd).
Qed.

Lemma itineraries_resolvable (fuel : nat) (lab : labels) (dest_stops : list nearby_stop)
    (dest_lat dest_lon : R) (departure_time_seconds : Z)
    (candidates : list (Z * string * nat)) :
  resolvable lab → Forall (λ c, c.1.2 ∈ nb_stop_id <$> dest_stops) candidates →
  itineraries fuel tt lab dest_stops dest_lat dest_lon departure_time_seconds candidates
    ≠ Raised.
Proof.
  intros Hlab. induction 1 as [|c candidates Hc _ IH]; [done|]. simpl.
  pose proof (itinerary_resolvable fuel lab dest_stops dest_lat dest_lon
                departure_time_seconds c Hlab Hc) as Hit.
  destruct (itinerary _ _ _ _ _ _ _ _) as [r| |]; [|done..].
  by destruct (itineraries _ _ _ _ _ _ _ _) as [rs| |].
Qed.

Lemma candidate_routes_dest (lab : labels) (dest_stops : list nearby_stop)
    (search_window_end : Z) :
  Forall (λ c : Z * string * nat, c.1.2 ∈ nb_stop_id <$> dest_stops)
    (candidate_routes set_iter lab dest_stops search_window_end).
Proof.
  apply Forall_forall. intros c. unfold candidate_routes. rewrite elem_of_sorted.
  intros (dest_id & Hin & Hdest)%list_elem_of_bind.
  rewrite set_iter_elements, elem_of_remove_dups in Hdest.
  apply list_elem_of_omap in Hin as (k & _ & Hk).
  destruct (tau lab !! (dest_id, k)) as [arrival_time|]; [|done]. csimpl in Hk.
  case_decide; [|done]. by injection Hk as <-.
Qed.

Lemma init_transfers_known : transfers_known (transfers (init tt)).
Proof.
  intros a b w. simpl. unfold build_transfer_graph. rewrite link_all_spec.
  intros [Hin|(pre & id1 & s1 & post & id2 & s2 & Heq & Hin & _ & Hab)].
  - unfold has_transfer in Hin. rewrite lookup_empty in Hin. by apply elem_of_nil in Hin.
  - destruct Hab as [[_ ->]|[_ ->]].
    + apply (known_stop_elem_of id2 s2). rewrite Heq. apply elem_of_app. right. by right.
    + apply (known_stop_elem_of id1 s1). rewrite Heq. apply elem_of_app. right. left.
Qed.

(** On a well-formed timetable no step of [run] raises. *)
Lemma run_resolvable (fuel : nat) (origin_lat origin_lon dest_lat dest_lon : R)
    (departure_time_seconds : Z) (debug : bool) :
  well_formed tt →
  (run hash_pattern set_iter fuel (init tt) origin_lat origin_lon dest_lat dest_lon
     departure_time_seconds debug).1 ≠ Raised.
Proof.
  intros Hwf. unfold run. cbn [service_timetable init].
  destruct (find_nearby_stops tt origin_lat origin_lon) as [|o os] eqn:Ho; [done|].
  destruct (find_nearby_stops tt dest_lat dest_lon) as [|d ds] eqn:Hd; [done|].
  destruct (group_trips_ok (stop_times_by_trip tt) []) as (trips_by_route & -> & Hbuckets);
    [done|constructor|].
  set (lab0 := fold_left _ (o :: os) _).
  destruct (raptor_rounds_res trips_by_route departure_time_seconds (seq 1 (MAX_TRANSFERS + 1))
              lab0 (transfers (init tt))) as (lab & Hrounds & Hlab);
    [done|apply init_transfers_known|by apply init_origin_resolvable|].
  cbn [transfers init] in Hrounds |- *. rewrite Hrounds.
  pose proof (itineraries_resolvable fuel lab (d :: ds) dest_lat dest_lon
                departure_time_seconds
                (candidate_routes set_iter lab (d :: ds)
                   (departure_time_seconds + SEARCH_WINDOW_HOURS * 3600)) Hlab
                (candidate_routes_dest _ _ _)) as Hit.
  by destruct (itineraries _ _ _ _ _ _ _ _) as [rs| |].
Qed.

(** On a well-formed timetable [run] raises no [KeyError], [IndexError] or
    [StopIteration]: every lookup in [timetable.trips] and
    [timetable.stops], every [stop_times[0]] and the [next(...)] of the
    final walk succeed, and the reconstruction loop ends, so that [run]
    returns and leaves the service as it was.  The [ValueError]s that the
    model does not represent, of [haversine] in floating point and of
    [time_to_seconds] on a malformed time string, are not covered. *)
Theorem run_returns (origin_lat origin_lon dest_lat dest_lon : R)
    (departure_time_seconds : Z) (debug : bool) :
  well_formed tt →
  ∃ fuel0, ∀ fuel, (fuel0 ≤ fuel)%nat →
    ∃ out, run hash_pattern set_iter fuel (init tt) origin_lat origin_lon dest_lat dest_lon
             departure_time_seconds debug = (Done out, init tt).
Proof.
  intros Hwf.
  destruct (run_search hash_pattern set_iter (init tt) origin_lat origin_lon dest_lat dest_lon
              departure_time_seconds debug (init_nonnegative tt)) as [[fuel0 Hend] Hdone].
  exists fuel0. intros fuel Hfuel. specialize (Hend fuel Hfuel).
  pose proof (run_resolvable fuel origin_lat origin_lon dest_lat dest_lon
                departure_time_seconds debug Hwf) as Hraise.
  destruct (run _ _ _ _ _ _ _ _ _ _) as [[out| |] self'] eqn:Hrun; [|done..].
  exists out. by destruct (Hdone fuel out self' Hrun) as [-> _].
Qed.

End total.

Section rides.

Variable hash_pattern : list string → Z.
Variable set_iter : list string → list string.
Variable tt : timetable.

(** The stop times of a trip as [run] sorts them. *)
Definition trip_stop_times (trip_id : string) (sorted_stops : list stop_time) : Prop :=
  ∃ stop_times, (trip_id, stop_times) ∈ stop_times_by_trip tt ∧
    sorted_stops = sorted Z.le (λ st, time_to_seconds (departure_time st)) stop_times.

(** The record of a stop leads to that stop; a transit record boards and
    alights at two stop times of its trip, in this order. *)
Definition record_ride (s : string) (p : parent_record) : Prop :=
  match p with
  | ParentWalk _ _ to_stop _ => nb_stop_id to_stop = s
  | ParentTransfer _ to_stop_id _ _ => to_stop_id = s
  | ParentTransit trip_id boarding_stop _ boarding_st _ _ arrival_st =>
      boarding_stop = stop_id boarding_st ∧ stop_id arrival_st = s ∧
      ∃ sorted_stops pre mid post,
        trip_stop_times trip_id sorted_stops ∧
        sorted_stops = pre ++ boarding_st :: mid ++ arrival_st :: post
  end.

Definition records_ride (lab : labels) : Prop :=
  ∀ s k p, parent lab !! (s, k) = Some p → record_ride s p.

Definition bucket_trips (bucket : string * Z * list (string * list stop_time)) : Prop :=
  Forall (λ trip, trip_stop_times trip.1 trip.2) bucket.2.

Lemma group_trips_stop_times (entries : list (string * list stop_time))
    (trips_by_route trips_by_route' : list (string * Z * list (string * list stop_time))) :
  entries ⊆ stop_times_by_trip tt → Forall bucket_trips trips_by_route →
  fold_left_opt (group_trip hash_pattern tt) entries trips_by_route = Some trips_by_route' →
  Forall bucket_trips trips_by_route'.
Proof.
  revert trips_by_route. induction entries as [|[trip_id stop_times] entries IH];
    intros trips_by_route Hentries Hok; simpl.
  { by intros [= <-]. }
  destruct (trips tt !! trip_id) as [route_id|]; [|done]. csimpl.
  apply IH; [set_solver|].
  assert (trip_stop_times trip_id
            (sorted Z.le (λ st, time_to_seconds (departure_time st)) stop_times)) as Htrip.
  { exists stop_times. split; [|done]. apply Hentries. left. }
  apply dict_append_Forall; [done|..].
  - unfold bucket_trips. simpl. by repeat constructor.
  - unfold bucket_trips. simpl. intros l Hl. apply Forall_app. split; [done|].
    by repeat constructor.
Qed.

Lemma set_label_rides (lab : labels) (stop : string) (k : nat) (t : Z) (p : parent_record) :
  records_ride lab → record_ride stop p → records_ride (set_label lab stop k t p).
Proof.
  intros Hlab Hp s j p'. simpl. destruct (decide ((s, j) = (stop, k))) as [[= -> ->]|Hne].
  - rewrite lookup_insert_eq. by intros [= <-].
  - rewrite lookup_insert_ne by done. apply Hlab.
Qed.

Lemma init_origin_rides (origin_lat origin_lon : R) (departure_time_seconds : Z)
    (origin_stops : list nearby_stop) (lab : labels) :
  records_ride lab →
  records_ride (fold_left (init_origin origin_lat origin_lon departure_time_seconds)
                  origin_stops lab).
Proof.
  revert lab. induction origin_stops as [|o l IH]; intros lab Hlab; [done|].
  simpl. apply IH. by apply set_label_rides.
Qed.

Lemma first_boardable_lookup (test : stop_time → option Z) (idx : nat)
    (stop_times : list stop_time) (i : nat) (st : stop_time) (dep_time : Z) :
  first_boardable test idx stop_times = Some (i, st, dep_time) →
  (idx ≤ i)%nat ∧ stop_times !! (i - idx)%nat = Some st.
Proof.
  revert idx. induction stop_times as [|x l IH]; intros idx; [done|]. simpl.
  destruct (test x).
  - intros [= <- <- _]. split; [done|]. by replace (idx - idx)%nat with 0%nat by lia.
  - intros [Hle Hl]%IH. split; [lia|].
    by replace (i - idx)%nat with (S (i - S idx)) by lia.
Qed.

(** The best boarding is at a stop time of a trip of the timetable. *)
Definition boarding_trip (best : option boarding) : Prop :=
  ∀ b, best = Some b →
    trip_stop_times (best_trip_id b) (best_stop_times b) ∧
    best_stop_times b !! best_boarding_idx b = Some (best_boarding_st b) ∧
    best_boarding_stop b = stop_id (best_boarding_st b).

Lemma scan_trips_trip (lab : labels) (k : nat) (marked : gset string)
    (departure_time_seconds : Z) (trips : list (string * list stop_time))
    (best best' : option boarding) :
  Forall (λ trip, trip_stop_times trip.1 trip.2) trips → boarding_trip best →
  fold_left_opt (scan_trip lab k marked departure_time_seconds) trips best = Some best' →
  boarding_trip best'.
Proof.
  intros Htrips. revert best.
  induction Htrips as [|[trip_id stop_times] trips Htrip _ IH]; intros best Hbest; simpl.
  { by intros [= <-]. }
  destruct (head stop_times) as [first|]; [|done]. cbn [mbind option_bind].
  destruct (first_boardable _ _ _) as [[[idx st] dep_time]|] eqn:Hscan; [|by apply IH].
  apply IH. intros b [= <-]. simpl. split; [done|]. split; [|done].
  apply first_boardable_lookup in Hscan as [_ Hst]. by rewrite Nat.sub_0_r in Hst.
Qed.

Lemma alight_rides (k : nat) (departure_time_seconds : Z) (b : boarding)
    (stop_times : list stop_time) (acc : labels * list string) :
  Forall (λ st, ∀ t, record_ride (stop_id st)
                       (ParentTransit (best_trip_id b) (best_boarding_stop b)
                          (best_boarding_time b) (best_boarding_st b) (stop_id st) t st))
    stop_times →
  records_ride acc.1 →
  records_ride (fold_left (alight k departure_time_seconds b) stop_times acc).1.
Proof.
  intros Hstops. revert acc.
  induction Hstops as [|st stop_times Hst _ IH]; intros [lab updated] Hlab; [done|].
  cbn [fold_left]. apply IH. unfold alight. case_decide; [done|].
  destruct (improves lab (stop_id st) k _); [|done]. cbn [fst].
  by apply set_label_rides.
Qed.

Lemma ride_route_rides (k : nat) (marked : gset string) (departure_time_seconds : Z)
    (acc acc' : labels * list string)
    (bucket : string * Z * list (string * list stop_time)) :
  bucket_trips bucket → records_ride acc.1 →
  ride_route k marked departure_time_seconds acc bucket = Some acc' → records_ride acc'.1.
Proof.
  intros Hbucket Hacc. unfold ride_route.
  destruct (head bucket.2) as [sample|]; [|done]. cbn [mbind option_bind].
  case_decide; [|by intros [= <-]].
  destruct (fold_left_opt _ _ _) as [best|] eqn:Hbest; [|done]. cbn [mbind option_bind].
  apply scan_trips_trip in Hbest; [|done..].
  destruct best as [b|]; intros [= <-]; [|done].
  destruct (Hbest b eq_refl) as (Htrip & Hidx & Hstop). apply alight_rides; [|done].
  apply Forall_forall. intros st Hst t. simpl. do 2 (split; [done|]).
  apply list_elem_of_split in Hst as (mid & post & Hdrop).
  exists (best_stop_times b), (take (best_boarding_idx b) (best_stop_times b)), mid, post.
  split; [done|]. rewrite <-Hdrop. by rewrite take_drop_middle.
Qed.

Lemma ride_routes_rides (k : nat) (marked : gset string) (departure_time_seconds : Z)
    (buckets : list (string * Z * list (string * list stop_time)))
    (acc acc' : labels * list string) :
  Forall bucket_trips buckets → records_ride acc.1 →
  fold_left_opt (ride_route k marked departure_time_seconds) buckets acc = Some acc' →
  records_ride acc'.1.
Proof.
  intros Hbuckets. revert acc.
  induction Hbuckets as [|bucket buckets Hbucket _ IH]; intros acc Hacc; simpl.
  { by intros [= <-]. }
  destruct (ride_route _ _ _ _ _) as [acc1|] eqn:Hride; [|done]. cbn [mbind option_bind].
  apply IH. by eapply ride_route_rides.
Qed.

Lemma walk_from_rides (k : nat) (acc : labels * gmap string (list (string * Z)))
    (stop : string) :
  records_ride acc.1 → records_ride (walk_from k acc stop).1.
Proof.
  destruct acc as [lab transfers]. intros Hlab. unfold walk_from. case_decide; [|done].
  destruct (defaultdict_getitem transfers stop) as [edges transfers'].
  destruct (tau lab !! (stop, k)) as [arrival_time|]; [|done]. cbn [fst].
  clear -Hlab. revert lab Hlab.
  induction edges as [|[neighbor_id walk_seconds] edges IH]; intros lab Hlab; [done|].
  cbn [fold_left]. apply IH. unfold relax.
  destruct (improves lab neighbor_id k _); [|done]. by apply set_label_rides.
Qed.

Lemma raptor_rounds_rides
    (trips_by_route : list (string * Z * list (string * list stop_time)))
    (departure_time_seconds : Z) (ks : list nat)
    (acc acc' : labels * gmap string (list (string * Z))) :
  Forall bucket_trips trips_by_route → records_ride acc.1 →
  raptor_rounds set_iter trips_by_route departure_time_seconds ks acc = Some acc' →
  records_ride acc'.1.
Proof.
  intros Hbuckets. revert acc. induction ks as [|k ks IH]; intros acc Hacc;
    cbn [raptor_rounds].
  { by intros [= <-]. }
  case_decide; [by intros [= <-]|].
  destruct (raptor_round _ _ _ _ _) as [acc1|] eqn:Hround; [|done]. cbn [mbind option_bind].
  apply IH. destruct acc as [lab transfers]. unfold raptor_round in Hround.
  destruct (fold_left_opt _ _ _) as [[lab1 updated]|] eqn:Hride; [|done].
  cbn [mbind option_bind] in Hround. injection Hround as <-.
  apply ride_routes_rides in Hride; [|done..]. simpl in Hride.
  apply fold_left_invariant; [done|]. intros a stop _. apply walk_from_rides.
Qed.

Lemma walk_parents_rides (lab : labels) (fuel : nat) (s : string) (k : nat)
    (legs out : list leg) :
  records_ride lab → Forall (timetable_ride tt) legs →
  walk_parents fuel tt lab s k legs = Done out → Forall (timetable_ride tt) out.
Proof.
  intros Hlab. revert s k legs. induction fuel as [|fuel IH]; intros s k legs Hlegs; [done|].
  simpl. destruct (parent lab !! (s, k)) as [p|] eqn:Hp; [|by intros [= <-]].
  apply Hlab in Hp. destruct p as [| |trip_id b bt bst a at' ast].
  - intros [= <-]. by constructor.
  - destruct (getitem (stops tt) from_stop_id) as [from_stop|]; [|done].
    destruct (getitem (stops tt) to_stop_id) as [to_stop|]; [|done].
    apply IH. by constructor.
  - destruct (trips tt !! trip_id) as [route_id|] eqn:Hroute; [|done].
    destruct (getitem (stops tt) (stop_id bst)) as [from_stop|] eqn:Hfrom; [|done].
    destruct (getitem (stops tt) (stop_id ast)) as [to_stop|] eqn:Hto; [|done].
    destruct Hp as (_ & _ & sorted_stops & pre & mid & post & (stop_times & Hin & ->) & Hsplit).
    assert (timetable_ride tt
              (Transit route_id trip_id (stop_id bst) (stop_id ast) (stop_name from_stop)
                 (stop_name to_stop) (departure_time bst) (arrival_time ast))) as Hleg.
    { simpl. by exists stop_times, pre, bst, mid, ast, post, from_stop, to_stop. }
    destruct k; [intros [= <-]|apply IH]; by constructor.
Qed.

Lemma merge_rides (raw : list leg) :
  Forall (timetable_ride tt) raw →
  Forall (timetable_ride tt) (merge_consecutive_walk_legs raw).
Proof.
  intros Hraw. apply Forall_forall. intros l Hl.
  destruct l as [|route_id trip_id from_id to_id from_name to_name dep arr]; [done|].
  destruct (merge_collect_keeps raw) as [(Hkeep & _) _].
  rewrite Forall_forall in Hraw. apply Hraw.
  assert (Transit route_id trip_id from_id to_id from_name to_name dep arr ∈
            List.filter is_transit (merge_consecutive_walk_legs raw)) as Hin.
  { apply list_elem_of_In, filter_In. split; [by apply list_elem_of_In|done]. }
  rewrite Hkeep in Hin. apply list_elem_of_In, filter_In in Hin. by apply list_elem_of_In, Hin.
Qed.

Lemma connected_app (l1 l2 : list leg) :
  connected (l1 ++ l2) ↔
  connected l1 ∧ connected l2 ∧ ∀ a b, last l1 = Some a → head l2 = Some b → joined a b.
Proof.
  induction l1 as [|x l1 IH]; simpl.
  { split; [by intros ?|by intros (_ & ? & _)]. }
  rewrite IH. destruct l1 as [|y l1]; simpl.
  - split.
    + intros (Hx & _ & Hl2 & _). split_and!; [done..|]. intros a b [= <-]. apply Hx.
    + intros ((_ & _) & Hl2 & Hx). split_and!; [|done..]. intros b. by apply Hx.
  - split.
    + tauto.
    + tauto.
Qed.

Lemma connected_split (l : list leg) :
  connected l ↔ ∀ pre a b post, l = pre ++ a :: b :: post → joined a b.
Proof.
  split.
  - intros Hl pre a b post ->. apply connected_app in Hl as (_ & [Hab _] & _). by apply Hab.
  - induction l as [|a l IH]; [done|]. intros Hl. split.
    + intros b Hb. destruct l as [|b' l]; [done|]. injection Hb as ->. by apply (Hl [] a b l).
    + apply IH. intros pre x y post ->. by apply (Hl (a :: pre) x y post).
Qed.

(** A run of walks is flushed to one walk that begins where the first
    begins and ends where the last ends. *)
Lemma flush_walks_ends (w0 : leg) (ws : list leg) :
  Forall (λ l, is_walk l = true) (w0 :: ws) →
  ∃ w, flush_walks (w0 :: ws) = [w] ∧ leg_from_stop w = leg_from_stop w0 ∧
       ∀ l, last (w0 :: ws) = Some l → leg_to_stop w = leg_to_stop l.
Proof.
  intros Hws. destruct ws as [|w1 ws].
  { exists w0. split_and!; [done..|]. by intros l [= <-]. }
  destruct (flush_walks_sum w0 w1 ws Hws) as (from & to & Hfrom & Hto & ->).
  eexists. split_and!; [done| |].
  - destruct w0; [|done]. by injection Hfrom as ->.
  - intros l Hl. rewrite Hl in Hto. destruct l; [|done]. by injection Hto as ->.
Qed.

Lemma merge_collect_connected (rest : list leg) :
  (connected rest →
   connected (merge_consecutive_walk_legs rest) ∧
   leg_from_stop <$> head (merge_consecutive_walk_legs rest) = leg_from_stop <$> head rest) ∧
  ∀ w0 ws, Forall (λ l, is_walk l = true) (w0 :: ws) → connected ((w0 :: ws) ++ rest) →
    connected (collect_walks (w0 :: ws) rest) ∧
    leg_from_stop <$> head (collect_walks (w0 :: ws) rest) = Some (leg_from_stop w0).
Proof.
  induction rest as [|l rest [IHm IHc]].
  - split; [done|]. intros w0 ws Hws _. cbn [collect_walks].
    by destruct (flush_walks_ends w0 ws Hws) as (w & -> & <- & _).
  - assert (∀ a, (∀ b, head rest = Some b → joined a b) → connected rest →
              connected (a :: merge_consecutive_walk_legs rest)) as Hcons.
    { intros a Ha Hrest. destruct (IHm Hrest) as [Hm Hhead]. split; [|done].
      intros b' Hb'. rewrite Hb' in Hhead.
      destruct (head rest) as [b|]; [|done]. injection Hhead as Hhead.
      destruct (Ha b eq_refl) as (id & Hto & Hfrom). exists id. by rewrite Hhead. }
    split.
    + intros [Hl Hrest]. cbn [merge_consecutive_walk_legs].
      destruct (is_walk l) eqn:Hwalk.
      * apply (IHc l []); [by repeat constructor|by split].
      * split; [by apply Hcons|done].
    + intros w0 ws Hws Hall. cbn [collect_walks]. destruct (is_walk l) eqn:Hwalk.
      * replace (w0 :: ws ++ [l]) with (w0 :: (ws ++ [l])) by done.
        apply (IHc w0 (ws ++ [l])).
        -- apply (Forall_app _ (w0 :: ws) [l]). split; [done|]. by repeat constructor.
        -- replace ((w0 :: ws ++ [l]) ++ rest) with ((w0 :: ws) ++ l :: rest); [done|].
           simpl. by rewrite <-app_assoc.
      * destruct (flush_walks_ends w0 ws Hws) as (w & -> & Hfrom & Hto).
        apply connected_app in Hall as (_ & [Hl Hrest] & Hjoin).
        split; [|simpl; by rewrite Hfrom]. simpl. split.
        -- intros b [= <-]. destruct (last (w0 :: ws)) as [lst|] eqn:Hlast.
           ++ destruct (Hjoin lst l eq_refl eq_refl) as (id & Hlst & Hl').
              exists id. by rewrite (Hto lst eq_refl).
           ++ by apply last_None in Hlast.
        -- by apply Hcons.
Qed.

Lemma walk_parents_connected (lab : labels) (fuel : nat) (s : string) (k : nat)
    (legs out tail : list leg) :
  records_ride lab → connected (legs ++ tail) →
  (∀ l, head (legs ++ tail) = Some l → leg_from_stop l = Some s) →
  walk_parents fuel tt lab s k legs = Done out → connected (out ++ tail).
Proof.
  intros Hlab. revert s k legs.
  induction fuel as [|fuel IH]; intros s k legs Hlegs Hhead; [done|].
  assert (∀ a, leg_to_stop a = Some s → connected ((a :: legs) ++ tail)) as Hcons.
  { intros a Ha. split; [|done]. intros b Hb. exists s. split; [done|]. by apply Hhead. }
  simpl. destruct (parent lab !! (s, k)) as [p|] eqn:Hp; [|by intros [= <-]].
  apply Hlab in Hp. destruct p as [? ? to_stop ?|from_id to_id ? ?|trip_id b bt bst a at' ast];
    simpl in Hp.
  - intros [= <-]. apply Hcons. simpl. by rewrite Hp.
  - destruct (getitem (stops tt) from_id) as [from_stop|]; [|done].
    destruct (getitem (stops tt) to_id) as [to_stop|]; [|done].
    apply IH; [apply Hcons; simpl; by rewrite Hp|]. by intros l [= <-].
  - destruct (trips tt !! trip_id) as [route_id|]; [|done].
    destruct (getitem (stops tt) (stop_id bst)) as [from_stop|]; [|done].
    destruct (getitem (stops tt) (stop_id ast)) as [to_stop|]; [|done].
    destruct Hp as (-> & Hs & _).
    destruct k; [intros [= <-]; apply Hcons; simpl; by rewrite Hs|].
    apply IH; [apply Hcons; simpl; by rewrite Hs|]. by intros l [= <-].
Qed.

(** What [run] has when it returns itineraries: labels whose records are
    rides of the timetable, and the itineraries reconstructed from them. *)
Lemma run_records (fuel : nat) (self : service)
    (origin_lat origin_lon dest_lat dest_lon : R) (departure_time_seconds : Z) (debug : bool)
    (out : output) (self' : service) :
  service_timetable self = tt →
  run hash_pattern set_iter fuel self origin_lat origin_lon dest_lat dest_lon
    departure_time_seconds debug = (Done out, self') →
  ∀ rt, rt ∈ routes out →
    ∃ lab best_dest k legs final,
      records_ride lab ∧ walk_parents fuel tt lab best_dest k [] = Done legs ∧
      leg_from_stop final = Some best_dest ∧ is_walk final = true ∧
      route_legs rt = merge_consecutive_walk_legs (legs ++ [final]).
Proof.
  intros Htt. unfold run. rewrite Htt.
  destruct (find_nearby_stops tt origin_lat origin_lon) as [|o os] eqn:Ho.
  { intros [= <- <-] rt Hrt. by apply elem_of_nil in Hrt. }
  destruct (find_nearby_stops tt dest_lat dest_lon) as [|d ds] eqn:Hd.
  { intros [= <- <-] rt Hrt. by apply elem_of_nil in Hrt. }
  set (lab0 := fold_left _ (o :: os) _).
  assert (records_ride lab0) as Hlab0.
  { apply init_origin_rides. intros s k p. simpl. by rewrite lookup_empty. }
  destruct (fold_left_opt _ _ _) as [trips_by_route|] eqn:Hgroup; [|done].
  apply group_trips_stop_times in Hgroup; [|done|constructor].
  destruct (raptor_rounds _ _ _ _ _) as [[lab transfers']|] eqn:Hrounds; [|done].
  apply raptor_rounds_rides in Hrounds; [|done..]. simpl in Hrounds.
  destruct (itineraries _ _ _ _ _ _ _ _) as [rs| |] eqn:Hrs; [|done..].
  intros [= <- <-] rt Hrt. simpl in Hrt.
  destruct (finish_results rs) as (_ & _ & Hfinish).
  destruct (Hfinish rt Hrt) as (r & Hr & ->). simpl.
  destruct (itineraries_results _ _ _ _ _ _ _ _ _ Hrs r Hr)
    as ([[best_time best_dest] k] & _ & Hit).
  apply itinerary_result in Hit as (legs & info & Hwalk & _ & _ & -> & _).
  exists lab, best_dest, k, legs,
    (Walk (stop_place best_dest (nb_stop info)) (coordinate dest_lat dest_lon)
       (nb_distance info) (nb_walking_time info)).
  by split_and!.
Qed.

End rides.

(** Every transit leg of an itinerary that [run] returns is a ride of the
    timetable: its trip is a trip of the timetable and its route the route
    of the trip; it boards at one stop time of the trip and alights at a
    later one in the order of the departure times; its stop ids and names
    are those of the two stops, its departure time the departure time of
    the first and its arrival time the arrival time of the second. *)
Theorem rides_of_the_timetable (hash_pattern : list string → Z)
    (set_iter : list string → list string) (fuel : nat) (self : service)
    (origin_lat origin_lon dest_lat dest_lon : R) (departure_time_seconds : Z) (debug : bool)
    (out : output) (self' : service) :
  run hash_pattern set_iter fuel self origin_lat origin_lon dest_lat dest_lon
    departure_time_seconds debug = (Done out, self') →
  ∀ rt, rt ∈ routes out → Forall (timetable_ride (service_timetable self)) (route_legs rt).
Proof.
  intros Hrun rt Hrt.
  destruct (run_records hash_pattern set_iter (service_timetable self) fuel self origin_lat
              origin_lon dest_lat dest_lon departure_time_seconds debug out self' eq_refl
              Hrun rt Hrt) as (lab & best_dest & k & legs & final & Hlab & Hwalk & _ & Hfinal & ->).
  apply merge_rides, Forall_app. split.
  - by eapply walk_parents_rides.
  - constructor; [by destruct final|constructor].
Qed.

(** In an itinerary that [run] returns every leg ends at the stop where
    the next leg begins. *)
Theorem legs_connected (hash_pattern : list string → Z)
    (set_iter : list string → list string) (fuel : nat) (self : service)
    (origin_lat origin_lon dest_lat dest_lon : R) (departure_time_seconds : Z) (debug : bool)
    (out : output) (self' : service) :
  run hash_pattern set_iter fuel self origin_lat origin_lon dest_lat dest_lon
    departure_time_seconds debug = (Done out, self') →
  ∀ rt, rt ∈ routes out →
    ∀ pre a b post, route_legs rt = pre ++ a :: b :: post → joined a b.
Proof.
  intros Hrun rt Hrt.
  destruct (run_records hash_pattern set_iter (service_timetable self) fuel self origin_lat
              origin_lon dest_lat dest_lon departure_time_seconds debug out self' eq_refl
              Hrun rt Hrt) as (lab & best_dest & k & legs & final & Hlab & Hwalk & Hfinal & _ & ->).
  apply connected_split.
  destruct (merge_collect_connected (legs ++ [final])) as [Hmerge _]. apply Hmerge.
  eapply walk_parents_connected; [done| | |done].
  - by split.
  - by intros l [= <-].
Qed.

Lemma well_formed_merge_timetable : well_formed merge_timetable.
Proof.
  intros trip_id stop_times [= -> ->]%list_elem_of_singleton. split_and!; [by eexists|done|].
  intros st [->|[->|[]%elem_of_nil]%elem_of_cons]%elem_of_cons; by eexists.
Qed.

Lemma run_returns_witness :
  well_formed merge_timetable ∧
  ∃ fuel0, ∀ fuel, (fuel0 ≤ fuel)%nat →
    ∃ out, run (λ _, 0) (λ l, l) fuel (init merge_timetable) 0 0 0 180 35700 false =
             (Done out, init merge_timetable).
Proof.
  split; [apply well_formed_merge_timetable|].
  apply (run_returns (λ _, 0) (λ l, l) (λ l, reflexivity l) merge_timetable 0 0 0 180 35700
           false well_formed_merge_timetable).
Defined.

Lemma rides_of_the_timetable_witness :
  run (λ _, 0) (λ l, l) 8 (init merge_timetable) 0 0 0 180 35700 false =
    (Done {| routes := [merge_route]; debug_logs := None |}, init merge_timetable) ∧
  Forall (timetable_ride merge_timetable) (route_legs merge_route).
Proof.
  split; [apply run_merge_timetable|].
  apply (rides_of_the_timetable (λ _, 0) (λ l, l) 8 (init merge_timetable) 0 0 0 180 35700
           false _ _ run_merge_timetable merge_route).
  left.
Defined.

Lemma legs_connected_witness :
  run (λ _, 0) (λ l, l) 8 (init merge_timetable) 0 0 0 180 35700 false =
    (Done {| routes := [merge_route]; debug_logs := None |}, init merge_timetable) ∧
  joined (Walk (coordinate 0 0) (stop_place "A" stop_a) 0 0)
    (Transit "R1" "T" "A" "B" "A" "B" (10, 0, 0) (10, 10, 0)).
Proof.
  split; [apply run_merge_timetable|].
  apply (legs_connected (λ _, 0) (λ l, l) 8 (init merge_timetable) 0 0 0 180 35700
           false _ _ run_merge_timetable merge_route ltac:(left) []
           (Walk (coordinate 0 0) (stop_place "A" stop_a) 0 0)
           (Transit "R1" "T" "A" "B" "A" "B" (10, 0, 0) (10, 10, 0))
           [Walk (stop_place "B" stop_b) (coordinate 0 180) (0 + 0 * WALKING_SPEED_MS + 0) 0]).
  reflexivity.
Defined.

End ItineraryFacts.

(** ** The shape of the itineraries *)

Module ShapeFacts.
Import Py PyFacts Geo GeoFacts Raptor RaptorFacts EngineFacts.
#[local] Open Scope Z_scope.

Section shape.

Variable hash_pattern : list string → Z.
Variable set_iter : list string → list string.

(** The labels of the rounds lead every reached stop back to the origin. *)
Lemma search_ok (self : service) (origin_lat origin_lon : R) (departure_time_seconds : Z)
    (lab : labels) :
  nonnegative_transfers (transfers self) →
  search hash_pattern set_iter self origin_lat origin_lon departure_time_seconds = Some lab →
  labels_ok origin_lat origin_lon lab.
Proof.
  intros Hnn. unfold search.
  pose proof (init_origin_ok origin_lat origin_lon departure_time_seconds
                (find_nearby_stops (service_timetable self) origin_lat origin_lon)) as Hlab0.
  destruct (fold_left_opt _ _ _) as [trips_by_route|]; [|done]. cbn [mbind option_bind].
  destruct (raptor_rounds _ _ _ _ _) as [[lab' transfers']|] eqn:Hrounds; [|done].
  cbn [mbind option_bind fst]. intros [= <-].
  by apply (raptor_rounds_ok set_iter origin_lat origin_lon) in Hrounds as [Hok _];
    [|by repeat constructor|done..].
Qed.

Lemma itinerary_unmerged_legs (fuel : nat) (tt : timetable) (lab : labels)
    (dest_stops : list nearby_stop) (dest_lat dest_lon : R) (departure_time_seconds : Z)
    (candidate : Z * string * nat) (r : result) :
  itinerary fuel tt lab dest_stops dest_lat dest_lon departure_time_seconds candidate =
    Done (Some r) →
  ∃ raw, unmerged_legs fuel tt lab dest_stops dest_lat dest_lon candidate = Done raw ∧
         legs r = merge_consecutive_walk_legs raw.
Proof.
  destruct candidate as [[best_time best_dest] best_round]. unfold itinerary, unmerged_legs.
  destruct (walk_parents _ _ _ _ _ _) as [out| |]; [|done..].
  destruct (list_find _ _) as [[i dest_stop_info]|]; [|done].
  destruct (has_duplicate_route_transfer _); [done|]. case_decide; [done|].
  intros [= <-]. by eexists.
Qed.

(** The legs of a candidate with a chain begin with the walk from the
    origin and end with the walk to the destination. *)
Lemma unmerged_legs_ends (origin_lat origin_lon : R) (fuel : nat) (tt : timetable)
    (lab : labels) (dest_stops : list nearby_stop) (dest_lat dest_lon : R)
    (candidate : Z * string * nat) (raw : list leg) :
  chain origin_lat origin_lon lab candidate.1.2 candidate.2 →
  unmerged_legs fuel tt lab dest_stops dest_lat dest_lon candidate = Done raw →
  unmerged origin_lat origin_lon dest_lat dest_lon raw.
Proof.
  destruct candidate as [[best_time best_dest] best_round]. simpl. intros Hchain.
  unfold unmerged_legs.
  destruct (walk_parents _ _ _ _ _ _) as [out| |] eqn:Hwalk; [|done..].
  apply (walk_parents_chain origin_lat origin_lon tt lab _ _ Hchain) in Hwalk
    as (to & d & t & rest & ->).
  destruct (list_find _ _) as [[i dest_stop_info]|]; [|done]. intros [= <-].
  rewrite app_nil_r. by eexists _, _, _, _, _, _, _.
Qed.

(** What [run] has done when it returns an itinerary: the rounds have
    given labels, and the itinerary is the merge of the legs of one of
    the candidates. *)
Lemma run_reconstruction (fuel : nat) (self : service)
    (origin_lat origin_lon dest_lat dest_lon : R) (departure_time_seconds : Z) (debug : bool)
    (out : output) (self' : service) (rt : route) :
  run hash_pattern set_iter fuel self origin_lat origin_lon dest_lat dest_lon
    departure_time_seconds debug = (Done out, self') →
  rt ∈ routes out →
  ∃ lab candidate raw,
    search hash_pattern set_iter self origin_lat origin_lon departure_time_seconds =
      Some lab ∧
    candidate ∈ candidate_routes set_iter lab
                  (find_nearby_stops (service_timetable self) dest_lat dest_lon)
                  (departure_time_seconds + SEARCH_WINDOW_HOURS * 3600) ∧
    unmerged_legs fuel (service_timetable self) lab
      (find_nearby_stops (service_timetable self) dest_lat dest_lon) dest_lat dest_lon
      candidate = Done raw ∧
    route_legs rt = merge_consecutive_walk_legs raw.
Proof.
  unfold run, search. set (tt := service_timetable self).
  destruct (find_nearby_stops tt origin_lat origin_lon) as [|o os] eqn:Ho.
  { intros [= <- <-] Hrt. by apply elem_of_nil in Hrt. }
  destruct (find_nearby_stops tt dest_lat dest_lon) as [|d ds] eqn:Hd.
  { intros [= <- <-] Hrt. by apply elem_of_nil in Hrt. }
  destruct (fold_left_opt _ _ _) as [trips_by_route|]; [|done]. cbn [mbind option_bind].
  destruct (raptor_rounds _ _ _ _ _) as [[lab transfers']|] eqn:Hrounds; [|done].
  cbn [mbind option_bind fst].
  destruct (itineraries _ _ _ _ _ _ _ _) as [rs| |] eqn:Hrs; [|done..].
  intros [= <- <-] Hrt. simpl in Hrt.
  destruct (finish_results rs) as (_ & _ & Hfinish).
  destruct (Hfinish rt Hrt) as (r & Hr & ->). simpl.
  destruct (itineraries_results _ _ _ _ _ _ _ _ _ Hrs r Hr) as (candidate & Hc & Hit).
  apply itinerary_unmerged_legs in Hit as (raw & Hraw & Hlegs).
  by exists lab, candidate, raw.
Qed.

End shape.

(** The shape of the itineraries of a service whose transfer graph has no
    negative walking time. *)
Lemma itinerary_shape_nonnegative (hash_pattern : list string → Z)
    (set_iter : list string → list string) (self : service)
    (origin_lat origin_lon dest_lat dest_lon : R) (departure_time_seconds : Z) (debug : bool) :
  nonnegative_transfers (transfers self) →
  (∃ fuel0, ∀ fuel, (fuel0 ≤ fuel)%nat →
     (run hash_pattern set_iter fuel self origin_lat origin_lon dest_lat dest_lon
        departure_time_seconds debug).1 ≠ Timeout) ∧
  (∀ fuel out self',
     run hash_pattern set_iter fuel self origin_lat origin_lon dest_lat dest_lon
       departure_time_seconds debug = (Done out, self') →
     ∀ rt, rt ∈ routes out →
       ∃ lab candidate raw,
         search hash_pattern set_iter self origin_lat origin_lon departure_time_seconds =
           Some lab ∧
         candidate ∈ candidate_routes set_iter lab
                       (find_nearby_stops (service_timetable self) dest_lat dest_lon)
                       (departure_time_seconds + SEARCH_WINDOW_HOURS * 3600) ∧
         unmerged_legs fuel (service_timetable self) lab
           (find_nearby_stops (service_timetable self) dest_lat dest_lon) dest_lat dest_lon
           candidate = Done raw ∧
         route_legs rt = merge_consecutive_walk_legs raw ∧
         (∃ to d t rest,
            route_legs rt = Walk (coordinate origin_lat origin_lon) to d t :: rest) ∧
         (∃ from d t front,
            route_legs rt = front ++ [Walk from (coordinate dest_lat dest_lon) d t]) ∧
         (∀ pre a b post, route_legs rt = pre ++ a :: b :: post →
            ¬ (is_walk a = true ∧ is_walk b = true)) ∧
         (∀ pre w0 w1 ws post,
            raw = pre ++ (w0 :: w1 :: ws) ++ post →
            Forall (λ l, is_walk l = true) (w0 :: w1 :: ws) →
            (∀ l, last pre = Some l → is_walk l = false) →
            head_is_walk post = false →
            ∃ from to,
              walk_origin w0 = Some from ∧
              last (w0 :: w1 :: ws) ≫= walk_terminus = Some to ∧
              route_legs rt =
                merge_consecutive_walk_legs pre ++
                Walk from to
                  (fold_left Rplus (walk_distance <$> w0 :: w1 :: ws) 0%R)
                  (fold_left Z.add (walk_duration <$> w0 :: w1 :: ws) 0) ::
                merge_consecutive_walk_legs post)).
Proof.
  intros Hnn.
  destruct (run_search hash_pattern set_iter self origin_lat origin_lon dest_lat dest_lon
              departure_time_seconds debug Hnn) as [Hends _].
  split; [done|]. intros fuel out self' Hrun rt Hrt.
  destruct (run_reconstruction hash_pattern set_iter fuel self origin_lat origin_lon dest_lat
              dest_lon departure_time_seconds debug out self' rt Hrun Hrt)
    as (lab & candidate & raw & Hsearch & Hcandidate & Hraw & Hlegs).
  exists lab, candidate, raw. rewrite Hlegs. do 4 (split; [done|]).
  assert (unmerged origin_lat origin_lon dest_lat dest_lon raw) as Hunmerged.
  { eapply unmerged_legs_ends; [|done].
    destruct candidate as [[best_time best_dest] best_round].
    apply candidate_routes_spec in Hcandidate.
    apply (search_ok hash_pattern set_iter self origin_lat origin_lon departure_time_seconds
             lab Hnn Hsearch). simpl. by rewrite Hcandidate. }
  destruct (merge_unmerged origin_lat origin_lon dest_lat dest_lon raw Hunmerged)
    as [Hfirst Hlast].
  split_and!; [done..| |].
  - apply no_walk_pair_spec. by destruct (merge_collect_spec raw) as [(? & _) _].
  - intros pre w0 w1 ws post -> Hws Hpre Hpost.
    destruct (flush_walks_sum w0 w1 ws Hws) as (from & to & Hfrom & Hto & Hflush).
    exists from, to. split_and!; [done..|].
    rewrite merge_run by done. by rewrite Hflush.
Qed.

(** C8.  The reconstruction of [run] ends.  Every itinerary that [run]
    returns is the merge of [raw], the legs that the reconstruction has
    put together for one of the candidates from the labels of the rounds,
    and: the itinerary begins with a walk leg from the origin coordinate
    of the query; it ends with a walk leg to the destination coordinate;
    no two consecutive legs of it are walks; and each maximal run of two
    or more walks of [raw] appears in it as one walk leg, from the origin
    of the first walk of the run to the terminus of the last, whose
    distance and duration are the sums over the run. *)
Theorem itinerary_shape (hash_pattern : list string → Z)
    (set_iter : list string → list string) (tt : timetable)
    (origin_lat origin_lon dest_lat dest_lon : R) (departure_time_seconds : Z) (debug : bool) :
  (∃ fuel0, ∀ fuel, (fuel0 ≤ fuel)%nat →
     (run hash_pattern set_iter fuel (init tt) origin_lat origin_lon dest_lat dest_lon
        departure_time_seconds debug).1 ≠ Timeout) ∧
  (∀ fuel out self',
     run hash_pattern set_iter fuel (init tt) origin_lat origin_lon dest_lat dest_lon
       departure_time_seconds debug = (Done out, self') →
     ∀ rt, rt ∈ routes out →
       ∃ lab candidate raw,
         search hash_pattern set_iter (init tt) origin_lat origin_lon departure_time_seconds =
           Some lab ∧
         candidate ∈ candidate_routes set_iter lab (find_nearby_stops tt dest_lat dest_lon)
                       (departure_time_seconds + SEARCH_WINDOW_HOURS * 3600) ∧
         unmerged_legs fuel tt lab (find_nearby_stops tt dest_lat dest_lon) dest_lat dest_lon
           candidate = Done raw ∧
         route_legs rt = merge_consecutive_walk_legs raw ∧
         (∃ to d t rest,
            route_legs rt = Walk (coordinate origin_lat origin_lon) to d t :: rest) ∧
         (∃ from d t front,
            route_legs rt = front ++ [Walk from (coordinate dest_lat dest_lon) d t]) ∧
         (∀ pre a b post, route_legs rt = pre ++ a :: b :: post →
            ¬ (is_walk a = true ∧ is_walk b = true)) ∧
         (∀ pre w0 w1 ws post,
            raw = pre ++ (w0 :: w1 :: ws) ++ post →
            Forall (λ l, is_walk l = true) (w0 :: w1 :: ws) →
            (∀ l, last pre = Some l → is_walk l = false) →
            head_is_walk post = false →
            ∃ from to,
              walk_origin w0 = Some from ∧
              last (w0 :: w1 :: ws) ≫= walk_terminus = Some to ∧
              route_legs rt =
                merge_consecutive_walk_legs pre ++
                Walk from to
                  (fold_left Rplus (walk_distance <$> w0 :: w1 :: ws) 0%R)
                  (fold_left Z.add (walk_duration <$> w0 :: w1 :: ws) 0) ::
                merge_consecutive_walk_legs post)).
Proof.
  apply (itinerary_shape_nonnegative hash_pattern set_iter (init tt) origin_lat origin_lon
           dest_lat dest_lon departure_time_seconds debug (init_nonnegative tt)).
Qed.

(** In the query of [merge_timetable] the legs of the candidate that ends
    at C hold two walks in a row, from B to C and from C to the
    destination, which the itinerary returned has as one walk. *)
Lemma unmerged_legs_merge_timetable :
  ∃ lab,
    search (λ _, 0) (λ l, l) (init merge_timetable) 0 0 35700 = Some lab ∧
    unmerged_legs 8 merge_timetable lab (find_nearby_stops merge_timetable 0 180) 0 180
      (36600, "C", 1%nat) =
    Done [Walk (coordinate 0 0) (stop_place "A" stop_a) 0 0;
          Transit "R1" "T" "A" "B" "A" "B" (10, 0, 0) (10, 10, 0);
          Walk (stop_place "B" stop_b) (stop_place "C" stop_c) (0 * WALKING_SPEED_MS) 0;
          Walk (stop_place "C" stop_c) (coordinate 0 180) 0 0].
Proof.
  unfold search. rewrite !init_merge_timetable. cbn [service_timetable transfers].
  rewrite nearby_origin_merge_timetable, nearby_destination_merge_timetable.
  eexists. split; [by vm_compute|]. by vm_compute.
Qed.

Lemma itinerary_shape_witness :
  run (λ _, 0) (λ l, l) 8 (init merge_timetable) 0 0 0 180 35700 false =
    (Done {| routes := [merge_route]; debug_logs := None |}, init merge_timetable) ∧
  ∃ lab candidate raw,
    search (λ _, 0) (λ l, l) (init merge_timetable) 0 0 35700 = Some lab ∧
    candidate ∈ candidate_routes (λ l, l) lab (find_nearby_stops merge_timetable 0 180)
                  (35700 + SEARCH_WINDOW_HOURS * 3600) ∧
    unmerged_legs 8 merge_timetable lab (find_nearby_stops merge_timetable 0 180) 0 180
      candidate = Done raw ∧
    route_legs merge_route = merge_consecutive_walk_legs raw ∧
    (∃ to d t rest, route_legs merge_route = Walk (coordinate 0 0) to d t :: rest) ∧
    (∃ from d t front, route_legs merge_route = front ++ [Walk from (coordinate 0 180) d t]) ∧
    (∀ pre a b post, route_legs merge_route = pre ++ a :: b :: post →
       ¬ (is_walk a = true ∧ is_walk b = true)) ∧
    (∀ pre w0 w1 ws post,
       raw = pre ++ (w0 :: w1 :: ws) ++ post →
       Forall (λ l, is_walk l = true) (w0 :: w1 :: ws) →
       (∀ l, last pre = Some l → is_walk l = false) →
       head_is_walk post = false →
       ∃ from to,
         walk_origin w0 = Some from ∧
         last (w0 :: w1 :: ws) ≫= walk_terminus = Some to ∧
         route_legs merge_route =
           merge_consecutive_walk_legs pre ++
           Walk from to
             (fold_left Rplus (walk_distance <$> w0 :: w1 :: ws) 0%R)
             (fold_left Z.add (walk_duration <$> w0 :: w1 :: ws) 0) ::
           merge_consecutive_walk_legs post).
Proof.
  split; [apply run_merge_timetable|].
  destruct (itinerary_shape (λ _, 0) (λ l, l) merge_timetable 0 0 0 180 35700 false)
    as [_ Hshape].
  apply (Hshape 8%nat _ _ run_merge_timetable merge_route). by left.
Defined.

End ShapeFacts.

(** ** The loader of the timetable *)

Module TimetablesFacts.
Import Py PyFacts Raptor RaptorFacts Timetables.
#[local] Open Scope Z_scope.

Section load.

Variable trips : gmap string string.

Lemma load_stop_times_snoc (rows : list row) (st : row) (acc : loaded) :
  load_stop_times trips (rows ++ [st]) acc =
  load_stop_time trips (load_stop_times trips rows acc) st.
Proof. unfold load_stop_times. by rewrite fold_left_app. Qed.

Lemma load_stop_time_by_trip (acc : loaded) (st : row) :
  loaded_stop_times_by_trip (load_stop_time trips acc st) =
  dict_append (loaded_stop_times_by_trip acc) (row_trip_id st) (row_stop_time st).
Proof.
  unfold load_stop_time. destruct (trips !! row_trip_id st); [|done]. by case_decide.
Qed.

Lemma load_stop_times_getitem (rows : list row) :
  NoDup (loaded_stop_times_by_trip (load_stop_times trips rows empty)).*1 ∧
  ∀ trip, getitem (loaded_stop_times_by_trip (load_stop_times trips rows empty)) trip =
          match filter (λ st, row_trip_id st = trip) rows with
          | [] => None
          | l => Some (row_stop_time <$> l)
          end.
Proof.
  induction rows as [|st rows [IHnd IH]] using rev_ind.
  { split; [constructor|done]. }
  rewrite load_stop_times_snoc, load_stop_time_by_trip.
  split; [by apply dict_append_NoDup|]. intros trip.
  rewrite getitem_append, filter_app, !IH. rewrite filter_cons, filter_nil.
  case_decide as Htrip; [subst; rewrite decide_True by done|rewrite decide_False by done].
  - destruct (filter _ rows) as [|x l]; [done|]. simpl. by rewrite fmap_app.
  - by rewrite app_nil_r.
Qed.

(** [_load_stop_times] groups the rows by trip: every trip id is a key at
    most once, the list of a trip holds the stop times of the rows of the
    trip in the order of the query, and a trip is a key exactly when the
    query has a row of it, so that no list is empty. *)
Theorem stop_times_grouped (rows : list row) :
  let by_trip := loaded_stop_times_by_trip (load_stop_times trips rows empty) in
  NoDup by_trip.*1 ∧
  (∀ trip, default [] (getitem by_trip trip) =
           row_stop_time <$> filter (λ st, row_trip_id st = trip) rows) ∧
  (∀ trip, trip ∈ by_trip.*1 ↔ ∃ st, st ∈ rows ∧ row_trip_id st = trip) ∧
  (∀ trip stop_times, (trip, stop_times) ∈ by_trip → stop_times ≠ []).
Proof.
  simpl. destruct (load_stop_times_getitem rows) as [Hnd Hget].
  assert (∀ trip, trip ∈ (loaded_stop_times_by_trip (load_stop_times trips rows empty)).*1 ↔
                  ∃ st, st ∈ rows ∧ row_trip_id st = trip) as Hkeys.
  { intros trip.
    destruct (getitem (loaded_stop_times_by_trip (load_stop_times trips rows empty)) trip)
      as [l|] eqn:Hl.
    - split; [|intros _].
      + intros _. rewrite Hget in Hl.
        destruct (filter _ rows) as [|st l'] eqn:Hfilter; [done|]. exists st.
        assert (st ∈ filter (λ st, row_trip_id st = trip) rows) as Hst
          by (rewrite Hfilter; left).
        by apply list_elem_of_filter in Hst as [? ?].
      + apply getitem_elem_of in Hl. apply list_elem_of_fmap. by exists (trip, l).
    - split.
      + intros Hin. by apply getitem_None in Hl.
      + intros (st & Hin & Htrip). rewrite Hget in Hl.
        assert (st ∈ filter (λ st, row_trip_id st = trip) rows) as Hst
          by (by apply list_elem_of_filter).
        destruct (filter _ rows); [by apply elem_of_nil in Hst|done]. }
  split_and!; [done| |done|].
  - intros trip. rewrite Hget. by destruct (filter _ rows).
  - intros trip stop_times Hin Hnil. apply elem_of_getitem in Hin; [|done].
    rewrite Hget in Hin. destruct (filter _ rows); [done|]. by subst.
Qed.

(** [stop_routes] after [_load_stop_times]: the list of a stop has no
    route twice, and holds exactly the routes of the trips known to
    [trips] that have a row at the stop. *)
Theorem stop_routes_of_rows (rows : list row) (stop : string) :
  let routes := default [] (getitem (loaded_stop_routes (load_stop_times trips rows empty))
                              stop) in
  NoDup routes ∧
  ∀ route_id, route_id ∈ routes ↔
    ∃ st, st ∈ rows ∧ stop_id (row_stop_time st) = stop ∧
          trips !! row_trip_id st = Some route_id.
Proof.
  simpl. revert stop. induction rows as [|st rows IH] using rev_ind; intros stop.
  { split; [constructor|]. intros route_id. split; [by intros ?%elem_of_nil|].
    by intros (st & ?%elem_of_nil & _). }
  rewrite load_stop_times_snoc.
  set (acc := load_stop_times trips rows empty) in *.
  assert (∀ route_id,
            (∃ st', st' ∈ rows ++ [st] ∧ stop_id (row_stop_time st') = stop ∧
                    trips !! row_trip_id st' = Some route_id) ↔
            route_id ∈ default [] (getitem (loaded_stop_routes acc) stop) ∨
            (stop_id (row_stop_time st) = stop ∧ trips !! row_trip_id st = Some route_id))
    as Hrows.
  { intros route_id. destruct (IH stop) as [_ ->]. split.
    - intros (st' & [Hin| ->%list_elem_of_singleton]%elem_of_app & Hstop & Hroute);
        [left; eauto|by right].
    - intros [(st' & Hin & Hstop & Hroute)|[Hstop Hroute]].
      + exists st'. split; [|done]. apply elem_of_app. by left.
      + exists st. split; [|done]. apply elem_of_app. right. left. }
  destruct (IH stop) as [Hnd _]. unfold load_stop_time.
  destruct (trips !! row_trip_id st) as [route|] eqn:Hroute; [case_decide as Hin|]; simpl.
  - split; [done|]. intros route_id. rewrite Hrows. split; [by left|].
    intros [?|[<- [= <-]]]; done.
  - rewrite getitem_append. case_decide as Hstop.
    + subst stop. simpl. split.
      * apply NoDup_app. split_and!; [done| |apply NoDup_singleton].
        by intros x Hx ->%list_elem_of_singleton.
      * intros route_id. rewrite Hrows, elem_of_app, list_elem_of_singleton.
        split; [intros [?| ->]; [by left|by right]|].
        intros [?|[_ [= <-]]]; [by left|by right].
    + split; [done|]. intros route_id. rewrite Hrows. split; [by left|].
      intros [?|[Heq _]]; [done|]. by destruct Hstop.
  - split; [done|]. intros route_id. rewrite Hrows. split; [by left|].
    intros [?|[_ ?]]; done.
Qed.

End load.

(** If every row of the query is of a trip known to [trips] and at a stop
    known to [stops], the timetable that [load] leaves is well formed. *)
Theorem loaded_well_formed (stops : list (string * stop)) (trips : gmap string string)
    (rows : list row) :
  Forall (λ st, is_Some (trips !! row_trip_id st) ∧
                is_Some (getitem stops (stop_id (row_stop_time st)))) rows →
  well_formed (loaded_timetable stops trips rows).
Proof.
  intros Hrows trip stop_times Hin. simpl in Hin.
  destruct (load_stop_times_getitem trips rows) as [Hnd Hget].
  apply elem_of_getitem in Hin; [|done]. rewrite Hget in Hin.
  destruct (filter _ rows) as [|st0 l] eqn:Hfilter; [done|]. injection Hin as <-.
  assert (∀ st, st ∈ st0 :: l → row_trip_id st = trip ∧ st ∈ rows) as Hl.
  { intros st Hst. rewrite <-Hfilter in Hst. by apply list_elem_of_filter in Hst. }
  rewrite Forall_forall in Hrows. split_and!; [|done|].
  - destruct (Hl st0 ltac:(left)) as [<- Hst0]. by apply Hrows.
  - intros st Hst. change (st ∈ row_stop_time <$> st0 :: l) in Hst.
    apply list_elem_of_fmap in Hst as (r & -> & Hr). apply Hl in Hr as [_ Hr].
    by apply Hrows.
Qed.

(** The rows of the trip of [merge_timetable]. *)
Definition merge_rows : list row :=
  [ {| row_trip_id := "T";
       row_stop_time := {| stop_id := "A"; arrival_time := (10, 0, 0);
                           departure_time := (10, 0, 0) |} |};
    {| row_trip_id := "T";
       row_stop_time := {| stop_id := "B"; arrival_time := (10, 10, 0);
                           departure_time := (10, 10, 0) |} |} ].

Lemma loaded_well_formed_witness :
  loaded_timetable (stops merge_timetable) (trips merge_timetable) merge_rows =
    merge_timetable ∧
  well_formed (loaded_timetable (stops merge_timetable) (trips merge_timetable) merge_rows).
Proof.
  split; [done|].
  apply (loaded_well_formed (stops merge_timetable) (trips merge_timetable) merge_rows).
  repeat (constructor; [by split; eexists|]). constructor.
Defined.

End TimetablesFacts.
